(** * Family chores: chore lifecycle, recurring generation and login lockout

    A shallow embedding of the route handlers of the family-chores API
    (api/routes/chores.js, the recurring, auth and user routes, the
    scheduler's [generateRecurringChores], the [protect] and access
    middleware and the [transaction] helper of the database gateway), with
    the properties the specification states about them.

    Conventions of the embedding.
    - Instants are [Z] milliseconds since the epoch, as a JS [Date] holds
      them.  Local time is UTC shifted by a fixed offset [tz] (milliseconds
      east of UTC); daylight-saving changes are not modelled.
    - Amounts ([reward_amount], [current_reward], [earnings]) are [Z] in
      hundredths, the scale of the DECIMAL(10,2) columns; the store's
      arithmetic is taken as exact.
    - A table is the list of its rows in insertion order.  SQL [UPDATE ...
      WHERE] maps over the rows, [SELECT] filters them.
    - Every round trip to the database can fail; a handler runs in a small
      state-and-exception monad over the store. *)

From Stdlib Require Import ZArith List String Ascii Bool Lia.
Import ListNotations.
Open Scope Z_scope.

(* ------------------------------------------------------------------ *)
(** * JavaScript values and helpers *)

Module Js.

(** [Array.prototype.indexOf]: first index of [x], or -1. *)
Fixpoint indexOf {A : Type} (eqb : A -> A -> bool) (l : list A) (x : A) : Z :=
  match l with
  | [] => -1
  | y :: l' =>
      if eqb y x then 0
      else let r := indexOf eqb l' x in
           if r <? 0 then -1 else r + 1
  end.

(** [a[i]] for an integer index: [None] stands for [undefined]. *)
Definition index {A : Type} (l : list A) (i : Z) : option A :=
  if i <? 0 then None else nth_error l (Z.to_nat i).

(** [a.length]. *)
Definition length {A : Type} (l : list A) : Z := Z.of_nat (List.length l).

(** The remainder operator [%] on integers truncates toward zero. *)
Definition rem (a b : Z) : Z := Z.rem a b.

(** Truthiness of a number, of a nullable number and of a nullable string. *)
Definition truthy (n : Z) : bool := negb (n =? 0).

Definition truthy_opt (o : option Z) : bool :=
  match o with
  | Some n => truthy n
  | None => false
  end.

Definition truthy_str (o : option string) : bool :=
  match o with
  | Some EmptyString => false
  | Some _ => true
  | None => false
  end.

(** [v || null] on a nullable number. *)
Definition or_null (o : option Z) : option Z :=
  if truthy_opt o then o else None.

(** A list of user ids as the JS value the code is handed: the array, or a
    string holding the JSON text of the array. *)
Inductive id_list :=
| IdArray (ids : list Z)
| IdText (ids : list Z).

(** What [JSON.parse] returns on such a value: an array of ids, or a number. *)
Inductive parsed :=
| ParsedArray (ids : list Z)
| ParsedNumber (n : Z).

(** [JSON.parse(v)]; [None] stands for the SyntaxError it throws.  The
    argument is converted to a string first.  A string holding JSON text
    parses to the array.  An array becomes its elements joined by commas:
    the empty string for no element, the text of a number for one, and text
    with a comma at top level for more, which is not JSON. *)
Definition JSON_parse (v : id_list) : option parsed :=
  match v with
  | IdText ids => Some (ParsedArray ids)
  | IdArray [] => None
  | IdArray [n] => Some (ParsedNumber n)
  | IdArray (_ :: _ :: _) => None
  end.

Definition lower_ascii (c : ascii) : ascii :=
  let n := nat_of_ascii c in
  if (Nat.leb 65 n && Nat.leb n 90)%bool then ascii_of_nat (n + 32) else c.

(** [String.prototype.toLowerCase] on ASCII text. *)
Fixpoint toLowerCase (s : string) : string :=
  match s with
  | EmptyString => EmptyString
  | String c s' => String (lower_ascii c) (toLowerCase s')
  end.

End Js.

(* ------------------------------------------------------------------ *)
(** * The [Date] object over a fixed-offset local time *)

Module JsDate.

Definition MS_PER_MINUTE : Z := 60000.
Definition MS_PER_HOUR : Z := 3600000.
Definition MS_PER_DAY : Z := 86400000.

(** Day number (days since 1970-01-01) of a civil date; months count from 1.
    Month and day may lie outside their usual range, as in [MakeDay]. *)
Definition days_from_civil (y m d : Z) : Z :=
  let y' := y + (m - 1) / 12 in
  let m' := (m - 1) mod 12 + 1 in
  let yy := if m' <=? 2 then y' - 1 else y' in
  let era := yy / 400 in
  let yoe := yy - era * 400 in
  let mp := if 2 <? m' then m' - 3 else m' + 9 in
  let doy := (153 * mp + 2) / 5 in
  let doe := yoe * 365 + yoe / 4 - yoe / 100 + doy in
  era * 146097 + doe - 719468 + (d - 1).

(** Civil date (year, month from 1, day of month) of a day number. *)
Definition civil_from_days (z : Z) : Z * Z * Z :=
  let z' := z + 719468 in
  let era := z' / 146097 in
  let doe := z' - era * 146097 in
  let yoe := (doe - doe / 1460 + doe / 36524 - doe / 146096) / 365 in
  let doy := doe - (365 * yoe + yoe / 4 - yoe / 100) in
  let mp := (5 * doy + 2) / 153 in
  let d := doy - (153 * mp + 2) / 5 + 1 in
  let m := if mp <? 10 then mp + 3 else mp - 9 in
  let y := yoe + era * 400 + (if m <=? 2 then 1 else 0) in
  (y, m, d).

(** Day of the week of a day number: 0 is Sunday (1970-01-01 was a Thursday). *)
Definition weekday_of_day (day : Z) : Z := (day + 4) mod 7.

Section LocalTime.

(** Offset of local time from UTC, in milliseconds. *)
Variable tz : Z.

Definition local_day (t : Z) : Z := (t + tz) / MS_PER_DAY.
Definition time_in_day (t : Z) : Z := (t + tz) mod MS_PER_DAY.

(** The instant of local day [day] at [ms] milliseconds after midnight. *)
Definition make_local (day ms : Z) : Z := day * MS_PER_DAY + ms - tz.

(** [d.setHours(h, 0, 0, 0)]. *)
Definition setHours (t h : Z) : Z := make_local (local_day t) (h * MS_PER_HOUR).

(** [d.setHours(23, 59, 59, 999)]. *)
Definition endOfDay (t : Z) : Z := make_local (local_day t) (MS_PER_DAY - 1).

(** [d.getDay()]. *)
Definition getDay (t : Z) : Z := weekday_of_day (local_day t).

(** [d.setDate(d.getDate() + n)]. *)
Definition addDays (t n : Z) : Z := make_local (local_day t + n) (time_in_day t).

(** [d.setDate(dom)]: day [dom] of the month [d] is in. *)
Definition setDate (t dom : Z) : Z :=
  let '(y, m, _) := civil_from_days (local_day t) in
  make_local (days_from_civil y m dom) (time_in_day t).

(** [d.setMonth(d.getMonth() + 1)]. *)
Definition addMonth (t : Z) : Z :=
  let '(y, m, d) := civil_from_days (local_day t) in
  make_local (days_from_civil y (m + 1) d) (time_in_day t).

(** [d.setMinutes(d.getMinutes() + n)]. *)
Definition addMinutes (t n : Z) : Z := t + n * MS_PER_MINUTE.

End LocalTime.

(** SQL [DATE(ts)]: the calendar day of a stored timestamp (the pool runs
    with timezone +00:00). *)
Definition DATE (t : Z) : Z := t / MS_PER_DAY.

End JsDate.

(* ------------------------------------------------------------------ *)
(** * The relational store *)

Inductive role := parent | child.

Inductive reward_type := money | screen_time.

Inductive chore_status :=
| available | assigned | pending_acceptance | auto_accepted
| in_progress | pending_approval | completed | cancelled.

Inductive assignment_status :=
| asg_pending | asg_accepted | asg_declined | asg_auto_accepted | asg_expired.

Inductive submission_status :=
| sub_pending | sub_approved | sub_rejected | sub_needs_revision.

Inductive frequency := daily | weekly | monthly | custom.

Inductive rotation_type := none | round_robin | random.

Inductive history_status := generated | hist_completed | skipped | missed.

Definition role_eqb (a b : role) : bool :=
  match a, b with
  | parent, parent | child, child => true
  | _, _ => false
  end.

Definition status_eqb (a b : chore_status) : bool :=
  match a, b with
  | available, available | assigned, assigned
  | pending_acceptance, pending_acceptance | auto_accepted, auto_accepted
  | in_progress, in_progress | pending_approval, pending_approval
  | completed, completed | cancelled, cancelled => true
  | _, _ => false
  end.

Definition assignment_status_eqb (a b : assignment_status) : bool :=
  match a, b with
  | asg_pending, asg_pending | asg_accepted, asg_accepted
  | asg_declined, asg_declined | asg_auto_accepted, asg_auto_accepted
  | asg_expired, asg_expired => true
  | _, _ => false
  end.

(** [col = ?] on a nullable column: NULL never matches. *)
Definition opt_is (o : option Z) (v : Z) : bool :=
  match o with
  | Some x => x =? v
  | None => false
  end.

Record family := {
  f_id : Z;
  family_code : string;
}.

Record user := {
  u_id : Z;
  u_family_id : Z;
  u_name : string;
  u_email : string;
  password_hash : string;
  u_role : role;
  earnings : Z;
  screen_time_earned : Z;
  u_is_active : bool;
  last_login : option Z;
  login_attempts : Z;
  locked_until : option Z;
}.

Record chore := {
  c_id : Z;
  c_family_id : Z;
  title : string;
  description : option string;
  c_reward_type : reward_type;
  reward_amount : Z;
  current_reward : Z;
  requires_photo : bool;
  acceptance_timer : Z;
  status : chore_status;
  due_date : option Z;
  c_created_by : Z;
  assigned_to : option Z;
  assigned_at : option Z;
  accepted_at : option Z;
  completed_at : option Z;
}.

Record chore_assignment := {
  a_id : Z;
  a_chore_id : Z;
  a_user_id : Z;
  assigned_by : Z;
  a_assigned_at : Z;
  a_accepted_at : option Z;
  declined_at : option Z;
  a_status : assignment_status;
  acceptance_deadline : option Z;
}.

Record chore_submission := {
  s_id : Z;
  s_chore_id : Z;
  s_user_id : Z;
  assignment_id : option Z;
  photo_path : option string;
  notes : option string;
  submitted_at : Z;
  reviewed_at : option Z;
  reviewed_by : option Z;
  s_status : submission_status;
  review_notes : option string;
}.

Record completed_task := {
  ct_chore_id : Z;
  ct_user_id : Z;
  submission_id : Z;
  chore_title : string;
  chore_description : option string;
  ct_reward_type : reward_type;
  reward_earned : Z;
  ct_completed_at : Z;
  approved_by : Z;
  approved_at : Z;
  ct_photo_path : option string;
  ct_notes : option string;
}.

(** A template row as a SELECT hands it over.  [rotation_members] is a json
    column written with [JSON.stringify]; the driver (mysql2) decodes it on
    the way back, so the row holds what the writer passed: an array when the
    client sent an array, a string of JSON text when it sent the list as
    text. *)
Record recurring_chore := {
  r_id : Z;
  r_family_id : Z;
  r_title : string;
  r_description : option string;
  r_reward_type : reward_type;
  r_reward_amount : Z;
  r_requires_photo : bool;
  r_frequency : frequency;
  day_of_week : option string;
  day_of_month : option Z;
  start_date : Z;
  end_date : option Z;
  last_generated : option Z;
  next_due_date : Z;
  auto_assign : bool;
  r_assigned_to : option Z;
  r_rotation_type : rotation_type;
  rotation_members : option Js.id_list;
  r_is_active : bool;
  r_created_by : Z;
}.

Record history_entry := {
  h_recurring_id : Z;
  h_chore_id : Z;
  h_due_date : Z;
  h_status : history_status;
  h_assigned_to : option Z;
}.

(** The tables.  Columns no modelled statement reads (priority, category,
    metadata, ...) are left out of the rows. *)
Record tables := {
  families : list family;
  users : list user;
  chores : list chore;
  chore_assignments : list chore_assignment;
  chore_submissions : list chore_submission;
  completed_tasks : list completed_task;
  recurring_chores : list recurring_chore;
  recurring_chore_history : list history_entry;
}.

(** AUTO_INCREMENT counters.  They are not transactional: a rollback does not
    give back the ids a failed transaction consumed. *)
Record sequences := {
  seq_chore : Z;
  seq_assignment : Z;
  seq_submission : Z;
  seq_recurring : Z;
}.

Definition set_users (t : tables) (v : list user) : tables :=
  {| families := families t; users := v; chores := chores t;
     chore_assignments := chore_assignments t;
     chore_submissions := chore_submissions t;
     completed_tasks := completed_tasks t;
     recurring_chores := recurring_chores t;
     recurring_chore_history := recurring_chore_history t |}.

Definition set_chores (t : tables) (v : list chore) : tables :=
  {| families := families t; users := users t; chores := v;
     chore_assignments := chore_assignments t;
     chore_submissions := chore_submissions t;
     completed_tasks := completed_tasks t;
     recurring_chores := recurring_chores t;
     recurring_chore_history := recurring_chore_history t |}.

Definition set_chore_assignments (t : tables) (v : list chore_assignment) : tables :=
  {| families := families t; users := users t; chores := chores t;
     chore_assignments := v;
     chore_submissions := chore_submissions t;
     completed_tasks := completed_tasks t;
     recurring_chores := recurring_chores t;
     recurring_chore_history := recurring_chore_history t |}.

Definition set_chore_submissions (t : tables) (v : list chore_submission) : tables :=
  {| families := families t; users := users t; chores := chores t;
     chore_assignments := chore_assignments t;
     chore_submissions := v;
     completed_tasks := completed_tasks t;
     recurring_chores := recurring_chores t;
     recurring_chore_history := recurring_chore_history t |}.

Definition set_completed_tasks (t : tables) (v : list completed_task) : tables :=
  {| families := families t; users := users t; chores := chores t;
     chore_assignments := chore_assignments t;
     chore_submissions := chore_submissions t;
     completed_tasks := v;
     recurring_chores := recurring_chores t;
     recurring_chore_history := recurring_chore_history t |}.

Definition set_recurring_chores (t : tables) (v : list recurring_chore) : tables :=
  {| families := families t; users := users t; chores := chores t;
     chore_assignments := chore_assignments t;
     chore_submissions := chore_submissions t;
     completed_tasks := completed_tasks t;
     recurring_chores := v;
     recurring_chore_history := recurring_chore_history t |}.

Definition set_recurring_chore_history (t : tables) (v : list history_entry) : tables :=
  {| families := families t; users := users t; chores := chores t;
     chore_assignments := chore_assignments t;
     chore_submissions := chore_submissions t;
     completed_tasks := completed_tasks t;
     recurring_chores := recurring_chores t;
     recurring_chore_history := v |}.

Definition set_seq_chore (s : sequences) (v : Z) : sequences :=
  {| seq_chore := v; seq_assignment := seq_assignment s;
     seq_submission := seq_submission s; seq_recurring := seq_recurring s |}.

Definition set_seq_assignment (s : sequences) (v : Z) : sequences :=
  {| seq_chore := seq_chore s; seq_assignment := v;
     seq_submission := seq_submission s; seq_recurring := seq_recurring s |}.

Definition set_seq_submission (s : sequences) (v : Z) : sequences :=
  {| seq_chore := seq_chore s; seq_assignment := seq_assignment s;
     seq_submission := v; seq_recurring := seq_recurring s |}.

Definition set_seq_recurring (s : sequences) (v : Z) : sequences :=
  {| seq_chore := seq_chore s; seq_assignment := seq_assignment s;
     seq_submission := seq_submission s; seq_recurring := v |}.

(* ------------------------------------------------------------------ *)
(** * The database gateway (config/database.js) *)

(** What a request runs against: the committed rows, the counters, the
    position of the round trip that is going to fail ([None]: none does),
    and the values the coming calls of [Math.random] return, each given as
    the numerator of a fraction over [RANDOM_SCALE]. *)
Record world := {
  rows : tables;
  seqs : sequences;
  fault : option nat;
  entropy : list Z;
}.

Definition RANDOM_SCALE : Z := 2 ^ 53.

Definition set_rows (w : world) (t : tables) : world :=
  {| rows := t; seqs := seqs w; fault := fault w; entropy := entropy w |}.

Definition set_seqs (w : world) (s : sequences) : world :=
  {| rows := rows w; seqs := s; fault := fault w; entropy := entropy w |}.

Definition set_fault (w : world) (f : option nat) : world :=
  {| rows := rows w; seqs := seqs w; fault := f; entropy := entropy w |}.

Definition set_entropy (w : world) (e : list Z) : world :=
  {| rows := rows w; seqs := seqs w; fault := fault w; entropy := e |}.

(** Outcome of an asynchronous computation: a value, or a thrown error with
    the status code the error handler answers with ([statusCode || 500]). *)
Inductive result (A : Type) :=
| Ok (a : A)
| Throw (code : Z).

Arguments Ok {A} a.
Arguments Throw {A} code.

Definition M (A : Type) : Type := world -> result A * world.

Definition ret {A : Type} (a : A) : M A := fun w => (Ok a, w).

Definition throw {A : Type} (code : Z) : M A := fun w => (Throw code, w).

Definition bind {A B : Type} (m : M A) (k : A -> M B) : M B :=
  fun w =>
    match m w with
    | (Ok a, w') => k a w'
    | (Throw e, w') => (Throw e, w')
    end.

Declare Scope async_scope.
Delimit Scope async_scope with async.
Bind Scope async_scope with M.

Notation "x <- m ;; k" := (bind m (fun x => k))
  (at level 61, m at next level, right associativity) : async_scope.
Notation "m ;;; k" := (bind m (fun _ => k))
  (at level 61, right associativity) : async_scope.

Open Scope async_scope.

(** One round trip to the server: it throws when it is the failing one. *)
Definition round_trip : M unit :=
  fun w =>
    match fault w with
    | Some O => (Throw 500, set_fault w None)
    | Some (S k) => (Ok tt, set_fault w (Some k))
    | None => (Ok tt, w)
    end.

(** A SELECT. *)
Definition select {A : Type} (q : tables -> A) : M A :=
  round_trip ;;; (fun w => (Ok (q (rows w)), w)).

(** An UPDATE or DELETE. *)
Definition modify (f : tables -> tables) : M unit :=
  round_trip ;;; (fun w => (Ok tt, set_rows w (f (rows w)))).

(** A statement the server refuses when [ok] fails on the current rows. *)
Definition constrained (ok : tables -> bool) (m : M unit) : M unit :=
  fun w => if ok (rows w) then m w else (Throw 500, w).

(** Foreign key of a nullable reference to users(id). *)
Definition user_exists (t : tables) (o : option Z) : bool :=
  match o with
  | Some v => existsb (fun u => u_id u =? v) (users t)
  | None => true
  end.

(** INSERT INTO chores: the row gets the next id, returned as [insertId];
    its [assigned_to] must reference a user (chores_ibfk_4). *)
Definition insert_chore (mk : Z -> chore) : M Z :=
  round_trip ;;;
  (fun w =>
     let id := seq_chore (seqs w) in
     if user_exists (rows w) (assigned_to (mk id)) then
       (Ok id,
        set_seqs (set_rows w (set_chores (rows w) (chores (rows w) ++ [mk id])))
                 (set_seq_chore (seqs w) (id + 1)))
     else (Throw 500, w)).

Definition insert_assignment (mk : Z -> chore_assignment) : M Z :=
  round_trip ;;;
  (fun w =>
     let id := seq_assignment (seqs w) in
     (Ok id,
      set_seqs (set_rows w (set_chore_assignments (rows w)
                              (chore_assignments (rows w) ++ [mk id])))
               (set_seq_assignment (seqs w) (id + 1)))).

Definition insert_submission (mk : Z -> chore_submission) : M Z :=
  round_trip ;;;
  (fun w =>
     let id := seq_submission (seqs w) in
     (Ok id,
      set_seqs (set_rows w (set_chore_submissions (rows w)
                              (chore_submissions (rows w) ++ [mk id])))
               (set_seq_submission (seqs w) (id + 1)))).

Definition insert_completed_task (r : completed_task) : M unit :=
  modify (fun t => set_completed_tasks t (completed_tasks t ++ [r])).

Definition insert_history (r : history_entry) : M unit :=
  modify (fun t => set_recurring_chore_history t (recurring_chore_history t ++ [r])).

Definition insert_recurring (mk : Z -> recurring_chore) : M Z :=
  round_trip ;;;
  (fun w =>
     let id := seq_recurring (seqs w) in
     (Ok id,
      set_seqs (set_rows w (set_recurring_chores (rows w)
                              (recurring_chores (rows w) ++ [mk id])))
               (set_seq_recurring (seqs w) (id + 1)))).

(** [transaction(callback)]: begin, run the callback, commit; any throw,
    of the commit too, rolls the rows back to what they were and is
    rethrown. *)
Definition transaction {A : Type} (callback : M A) : M A :=
  fun w =>
    let snapshot := rows w in
    match (round_trip ;;; (r <- callback ;; (round_trip ;;; ret r))) w with
    | (Ok r, w') => (Ok r, w')
    | (Throw e, w') => (Throw e, set_rows w' snapshot)
    end.

(** [Math.floor(Math.random() * n)], from the next draw (0 when none is left). *)
Definition random_index (n : Z) : M Z :=
  fun w =>
    match entropy w with
    | [] => (Ok 0, w)
    | r :: e => (Ok (r * n / RANDOM_SCALE), set_entropy w e)
    end.

(** [catchAsync] and the error handler: a thrown error becomes the response
    with its status code. *)
Definition catchAsync (h : M Z) (w : world) : Z * world :=
  match h w with
  | (Ok code, w') => (code, w')
  | (Throw e, w') => (e, w')
  end.

(** [ORDER BY key DESC LIMIT 1].  Among rows with equal keys the server may
    return any; the model returns the first in table order. *)
Fixpoint latest {A : Type} (key : A -> Z) (l : list A) : option A :=
  match l with
  | [] => None
  | x :: l' =>
      match latest key l' with
      | Some y => if key x <? key y then Some y else Some x
      | None => Some x
      end
  end.

(* ------------------------------------------------------------------ *)
(** * Chore routes (api/routes/chores.js)

    Each handler is what runs after [protect] has put the caller's row in
    [req.user]; its value is the status code of the response. *)

Module Chores.

(** Body of POST /api/chores. *)
Record create_body := {
  b_title : option string;
  b_description : option string;
  b_reward_amount : option Z;
  b_reward_type : option reward_type;
  b_requires_photo : bool;
  b_acceptance_timer : option Z;
  b_auto_assign : bool;
  b_assigned_to : option Z;
  b_rotation_type : option rotation_type;
  b_rotation_members : option (list Z);
}.

(** [acceptance_timer || 5]. *)
Definition timer_or_5 (o : option Z) : Z :=
  match Js.or_null o with
  | Some n => n
  | None => 5
  end.

(** The initial assignee of a new chore. *)
Definition initialAssignedTo (b : create_body) : M (option Z) :=
  if b_auto_assign b then
    match b_rotation_type b, b_rotation_members b with
    | Some none, _ =>
        if Js.truthy_opt (b_assigned_to b) then ret (b_assigned_to b)
        else ret None
    | Some round_robin, Some members =>
        if 0 <? Js.length members then ret (Js.index members 0) else ret None
    | Some random, Some members =>
        if 0 <? Js.length members then
          i <- random_index (Js.length members) ;;
          ret (Js.index members i)
        else ret None
    | _, _ => ret None
    end
  else ret None.

(** POST /api/chores *)
Definition create (now : Z) (caller : user) (b : create_body) : M Z :=
  if negb (role_eqb (u_role caller) parent) then ret 403 else
  match b_title b, b_reward_amount b with
  | Some (String c s), Some amount =>
      let title_ := String c s in
      initial <- initialAssignedTo b ;;
      result <- transaction (
        let status_ := if Js.truthy_opt initial then assigned else available in
        let assignedAt := if Js.truthy_opt initial then Some now else None in
        choreId <- insert_chore (fun id =>
          {| c_id := id;
             c_family_id := u_family_id caller;
             title := title_;
             description := if Js.truthy_str (b_description b) then b_description b else None;
             c_reward_type := match b_reward_type b with Some r => r | None => money end;
             reward_amount := amount;
             current_reward := amount;
             requires_photo := b_requires_photo b;
             acceptance_timer := timer_or_5 (b_acceptance_timer b);
             status := status_;
             due_date := None;
             c_created_by := u_id caller;
             assigned_to := Js.or_null initial;
             assigned_at := assignedAt;
             accepted_at := None;
             completed_at := None |}) ;;
        match Js.or_null initial with
        | Some assignee =>
            _ <- insert_assignment (fun id =>
              {| a_id := id;
                 a_chore_id := choreId;
                 a_user_id := assignee;
                 assigned_by := u_id caller;
                 a_assigned_at := now;
                 a_accepted_at := None;
                 declined_at := None;
                 a_status := asg_pending;
                 acceptance_deadline :=
                   Some (JsDate.addMinutes now (timer_or_5 (b_acceptance_timer b))) |}) ;;
            ret choreId
        | None => ret choreId
        end) ;;
      _ <- select (fun t => find (fun c => c_id c =? result) (chores t)) ;;
      ret 201
  | _, _ => ret 400
  end.

(** Body of PATCH /api/chores/:id: the allowed fields it carries. *)
Record patch_body := {
  p_title : option string;
  p_description : option (option string);
  p_reward_amount : option Z;
  p_reward_type : option reward_type;
  p_requires_photo : option bool;
  p_acceptance_timer : option Z;
  p_status : option chore_status;
}.

Definition no_updates (p : patch_body) : bool :=
  match p_title p, p_description p, p_reward_amount p, p_reward_type p,
        p_requires_photo p, p_acceptance_timer p, p_status p with
  | None, None, None, None, None, None, None => true
  | _, _, _, _, _, _, _ => false
  end.

Definition or_else {A : Type} (o : option A) (d : A) : A :=
  match o with
  | Some v => v
  | None => d
  end.

(** [UPDATE chores SET <the fields present> WHERE id = ?] on one row. *)
Definition apply_patch (p : patch_body) (c : chore) : chore :=
  {| c_id := c_id c;
     c_family_id := c_family_id c;
     title := or_else (p_title p) (title c);
     description := or_else (p_description p) (description c);
     c_reward_type := or_else (p_reward_type p) (c_reward_type c);
     reward_amount := or_else (p_reward_amount p) (reward_amount c);
     current_reward := current_reward c;
     requires_photo := or_else (p_requires_photo p) (requires_photo c);
     acceptance_timer := or_else (p_acceptance_timer p) (acceptance_timer c);
     status := or_else (p_status p) (status c);
     due_date := due_date c;
     c_created_by := c_created_by c;
     assigned_to := assigned_to c;
     assigned_at := assigned_at c;
     accepted_at := accepted_at c;
     completed_at := completed_at c |}.

Definition update_where {A : Type} (p : A -> bool) (f : A -> A) (l : list A) : list A :=
  map (fun r => if p r then f r else r) l.

(** The [checkChoreAccess] middleware. *)
Definition checkChoreAccess (caller : user) (id : Z) : M unit :=
  chore_ <- select (fun t => find (fun c => c_id c =? id) (chores t)) ;;
  match chore_ with
  | None => throw 404
  | Some c =>
      if negb (c_family_id c =? u_family_id caller) then throw 403
      else if role_eqb (u_role caller) child
              && negb (opt_is (assigned_to c) (u_id caller))
              && negb (c_created_by c =? u_id caller)
           then throw 403
           else ret tt
  end.

(** PATCH /api/chores/:id *)
Definition update (caller : user) (id : Z) (p : patch_body) : M Z :=
  checkChoreAccess caller id ;;;
  (chore_ <- select (fun t => find (fun c => c_id c =? id) (chores t)) ;;
   match chore_ with
   | None => ret 404
   | Some c =>
       if negb (role_eqb (u_role caller) parent) && negb (c_created_by c =? u_id caller)
       then ret 403
       else if no_updates p then ret 400
       else
         modify (fun t => set_chores t
                   (update_where (fun r => c_id r =? id) (apply_patch p) (chores t))) ;;;
         (_ <- select (fun t => find (fun c => c_id c =? id) (chores t)) ;;
          ret 200)
   end).

Definition with_assignment (c : chore) (st : chore_status) (who at_ : option Z) : chore :=
  {| c_id := c_id c; c_family_id := c_family_id c; title := title c;
     description := description c; c_reward_type := c_reward_type c;
     reward_amount := reward_amount c; current_reward := current_reward c;
     requires_photo := requires_photo c; acceptance_timer := acceptance_timer c;
     status := st; due_date := due_date c; c_created_by := c_created_by c;
     assigned_to := who; assigned_at := at_;
     accepted_at := accepted_at c; completed_at := completed_at c |}.

Definition with_status (c : chore) (st : chore_status) : chore :=
  with_assignment c st (assigned_to c) (assigned_at c).

Definition with_accepted (c : chore) (st : chore_status) (at_ : Z) : chore :=
  {| c_id := c_id c; c_family_id := c_family_id c; title := title c;
     description := description c; c_reward_type := c_reward_type c;
     reward_amount := reward_amount c; current_reward := current_reward c;
     requires_photo := requires_photo c; acceptance_timer := acceptance_timer c;
     status := st; due_date := due_date c; c_created_by := c_created_by c;
     assigned_to := assigned_to c; assigned_at := assigned_at c;
     accepted_at := Some at_; completed_at := completed_at c |}.

Definition with_completed (c : chore) (st : chore_status) (at_ : Z) : chore :=
  {| c_id := c_id c; c_family_id := c_family_id c; title := title c;
     description := description c; c_reward_type := c_reward_type c;
     reward_amount := reward_amount c; current_reward := current_reward c;
     requires_photo := requires_photo c; acceptance_timer := acceptance_timer c;
     status := st; due_date := due_date c; c_created_by := c_created_by c;
     assigned_to := assigned_to c; assigned_at := assigned_at c;
     accepted_at := accepted_at c; completed_at := Some at_ |}.

(** POST /api/chores/:id/assign *)
Definition assign (now : Z) (caller : user) (id : Z) (userId : option Z) : M Z :=
  if negb (role_eqb (u_role caller) parent) then ret 403 else
  match Js.or_null userId with
  | None => ret 400
  | Some userId_ =>
      chore_ <- select (fun t =>
        find (fun c => (c_id c =? id) && (c_family_id c =? u_family_id caller)) (chores t)) ;;
      match chore_ with
      | None => ret 404
      | Some c =>
          user_ <- select (fun t =>
            find (fun u => (u_id u =? userId_) && (u_family_id u =? u_family_id caller)) (users t)) ;;
          match user_ with
          | None => ret 404
          | Some _ =>
              let acceptanceDeadline :=
                JsDate.addMinutes now (timer_or_5 (Some (acceptance_timer c))) in
              transaction (
                _ <- insert_assignment (fun aid =>
                  {| a_id := aid;
                     a_chore_id := c_id c;
                     a_user_id := userId_;
                     assigned_by := u_id caller;
                     a_assigned_at := now;
                     a_accepted_at := None;
                     declined_at := None;
                     a_status := asg_pending;
                     acceptance_deadline := Some acceptanceDeadline |}) ;;
                constrained (fun t => user_exists t (Some userId_))
                  (modify (fun t => set_chores t
                     (update_where (fun r => c_id r =? c_id c)
                        (fun r => with_assignment r pending_acceptance (Some userId_) (Some now))
                        (chores t))))) ;;;
              (_ <- select (fun t => find (fun r => c_id r =? id) (chores t)) ;;
               ret 200)
          end
      end
  end.

Definition set_assignment_status (a : chore_assignment) (st : assignment_status)
  (accepted declined : option Z) : chore_assignment :=
  {| a_id := a_id a; a_chore_id := a_chore_id a; a_user_id := a_user_id a;
     assigned_by := assigned_by a; a_assigned_at := a_assigned_at a;
     a_accepted_at := accepted; declined_at := declined;
     a_status := st; acceptance_deadline := acceptance_deadline a |}.

(** The pending assignment rows of a chore and a user. *)
Definition is_pending_assignment (choreId userId : Z) (a : chore_assignment) : bool :=
  (a_chore_id a =? choreId) && (a_user_id a =? userId)
  && assignment_status_eqb (a_status a) asg_pending.

(** The chore [id] when it is assigned to [userId] in status [st]. *)
Definition assigned_chore (t : tables) (id userId : Z) (st : chore_status) : option chore :=
  find (fun c => (c_id c =? id) && opt_is (assigned_to c) userId && status_eqb (status c) st)
       (chores t).

(** POST /api/chores/:id/accept *)
Definition accept (now : Z) (caller : user) (id : Z) : M Z :=
  chore_ <- select (fun t => assigned_chore t id (u_id caller) pending_acceptance) ;;
  match chore_ with
  | None => ret 404
  | Some c =>
      transaction (
        modify (fun t => set_chore_assignments t
          (update_where (is_pending_assignment (c_id c) (u_id caller))
             (fun a => set_assignment_status a asg_accepted (Some now) (declined_at a))
             (chore_assignments t))) ;;;
        modify (fun t => set_chores t
          (update_where (fun r => c_id r =? c_id c)
             (fun r => with_accepted r in_progress now) (chores t)))) ;;;
      ret 200
  end.

(** POST /api/chores/:id/decline *)
Definition decline (now : Z) (caller : user) (id : Z) : M Z :=
  chore_ <- select (fun t => assigned_chore t id (u_id caller) pending_acceptance) ;;
  match chore_ with
  | None => ret 404
  | Some c =>
      transaction (
        modify (fun t => set_chore_assignments t
          (update_where (is_pending_assignment (c_id c) (u_id caller))
             (fun a => set_assignment_status a asg_declined (a_accepted_at a) (Some now))
             (chore_assignments t))) ;;;
        modify (fun t => set_chores t
          (update_where (fun r => c_id r =? c_id c)
             (fun r => with_assignment r available None None) (chores t)))) ;;;
      ret 200
  end.

(** POST /api/chores/:id/submit; [file] is the path of the uploaded photo. *)
Definition submit (now : Z) (caller : user) (id : Z)
  (file : option string) (notes_ : option string) : M Z :=
  chore_ <- select (fun t => assigned_chore t id (u_id caller) in_progress) ;;
  match chore_ with
  | None => ret 404
  | Some c =>
      if requires_photo c && (match file with Some _ => false | None => true end)
      then ret 400
      else
        assignment <- select (fun t =>
          latest a_assigned_at
            (filter (fun a => (a_chore_id a =? c_id c) && (a_user_id a =? u_id caller))
                    (chore_assignments t))) ;;
        result <- transaction (
          sid <- insert_submission (fun sid =>
            {| s_id := sid;
               s_chore_id := c_id c;
               s_user_id := u_id caller;
               assignment_id := option_map a_id assignment;
               photo_path := file;
               notes := if Js.truthy_str notes_ then notes_ else None;
               submitted_at := now;
               reviewed_at := None;
               reviewed_by := None;
               s_status := sub_pending;
               review_notes := None |}) ;;
          modify (fun t => set_chores t
            (update_where (fun r => c_id r =? c_id c)
               (fun r => with_status r pending_approval) (chores t))) ;;;
          ret sid) ;;
        _ <- select (fun t => find (fun s => s_id s =? result) (chore_submissions t)) ;;
        ret 201
  end.

Definition review (s : chore_submission) (st : submission_status) (at_ by_ : Z)
  (note : option string) : chore_submission :=
  {| s_id := s_id s; s_chore_id := s_chore_id s; s_user_id := s_user_id s;
     assignment_id := assignment_id s; photo_path := photo_path s;
     notes := notes s; submitted_at := submitted_at s;
     reviewed_at := Some at_; reviewed_by := Some by_;
     s_status := st; review_notes := note |}.

(** [UPDATE users SET earnings = earnings + ?] on one row. *)
Definition add_earnings (u : user) (amount : Z) : user :=
  {| u_id := u_id u; u_family_id := u_family_id u; u_name := u_name u;
     u_email := u_email u; password_hash := password_hash u; u_role := u_role u;
     earnings := earnings u + amount;
     screen_time_earned := screen_time_earned u;
     u_is_active := u_is_active u; last_login := last_login u;
     login_attempts := login_attempts u; locked_until := locked_until u |}.

(** [UPDATE users SET screen_time_earned = screen_time_earned + ?] on one row. *)
Definition add_screen_time (u : user) (amount : Z) : user :=
  {| u_id := u_id u; u_family_id := u_family_id u; u_name := u_name u;
     u_email := u_email u; password_hash := password_hash u; u_role := u_role u;
     earnings := earnings u;
     screen_time_earned := screen_time_earned u + amount;
     u_is_active := u_is_active u; last_login := last_login u;
     login_attempts := login_attempts u; locked_until := locked_until u |}.

(** The latest submission of a chore by its assignee. *)
Definition latest_submission (t : tables) (c : chore) : option chore_submission :=
  latest submitted_at
    (filter (fun s => (s_chore_id s =? c_id c) && opt_is (assigned_to c) (s_user_id s))
            (chore_submissions t)).

(** The chore [id] of the family when it is pending approval. *)
Definition is_pending_approval (family_id id : Z) (c : chore) : bool :=
  (c_id c =? id) && (c_family_id c =? family_id) && status_eqb (status c) pending_approval.

(** The four writes of an approval. *)
Definition approve_writes (now : Z) (caller : user) (c : chore) (assignee : Z)
  (submission : chore_submission) : M unit :=
  modify (fun t => set_chore_submissions t
    (update_where (fun s => s_id s =? s_id submission)
       (fun s => review s sub_approved now (u_id caller) (review_notes s))
       (chore_submissions t))) ;;;
  insert_completed_task
    {| ct_chore_id := c_id c;
       ct_user_id := assignee;
       submission_id := s_id submission;
       chore_title := title c;
       chore_description := description c;
       ct_reward_type := c_reward_type c;
       reward_earned := current_reward c;
       ct_completed_at := submitted_at submission;
       approved_by := u_id caller;
       approved_at := now;
       ct_photo_path := photo_path submission;
       ct_notes := notes submission |} ;;;
  match c_reward_type c with
  | money =>
      modify (fun t => set_users t
        (update_where (fun u => u_id u =? assignee)
           (fun u => add_earnings u (current_reward c)) (users t)))
  | screen_time =>
      modify (fun t => set_users t
        (update_where (fun u => u_id u =? assignee)
           (fun u => add_screen_time u (current_reward c)) (users t)))
  end ;;;
  modify (fun t => set_chores t
    (update_where (fun r => c_id r =? c_id c)
       (fun r => with_completed r completed now) (chores t))).

(** POST /api/chores/:id/approve *)
Definition approve (now : Z) (caller : user) (id : Z) : M Z :=
  if negb (role_eqb (u_role caller) parent) then ret 403 else
  chore_ <- select (fun t =>
    find (fun c => is_pending_approval (u_family_id caller) id c
                   && match assigned_to c with
                      | Some a => existsb (fun u => u_id u =? a) (users t)
                      | None => false
                      end)
         (chores t)) ;;
  match chore_ with
  | None => ret 404
  | Some c =>
      submission_ <- select (fun t => latest_submission t c) ;;
      match submission_, assigned_to c with
      | Some submission, Some assignee =>
          transaction (approve_writes now caller c assignee submission) ;;;
          ret 200
      | _, _ => ret 404
      end
  end.

(** POST /api/chores/:id/reject *)
Definition reject (now : Z) (caller : user) (id : Z) (feedback : option string) : M Z :=
  if negb (role_eqb (u_role caller) parent) then ret 403 else
  chore_ <- select (fun t =>
    find (is_pending_approval (u_family_id caller) id) (chores t)) ;;
  match chore_ with
  | None => ret 404
  | Some c =>
      submission_ <- select (fun t => latest_submission t c) ;;
      match submission_ with
      | None => ret 404
      | Some submission =>
          transaction (
            modify (fun t => set_chore_submissions t
              (update_where (fun s => s_id s =? s_id submission)
                 (fun s => review s sub_rejected now (u_id caller)
                    (if Js.truthy_str feedback then feedback
                     else Some "Needs improvement"%string))
                 (chore_submissions t))) ;;;
            modify (fun t => set_chores t
              (update_where (fun r => c_id r =? c_id c)
                 (fun r => with_status r in_progress) (chores t)))) ;;;
          ret 200
      end
  end.

(** [DELETE FROM chores WHERE id = ?], with the rows that reference the
    chore ON DELETE CASCADE. *)
Definition delete_chore (id : Z) (t : tables) : tables :=
  {| families := families t;
     users := users t;
     chores := filter (fun c => negb (c_id c =? id)) (chores t);
     chore_assignments := filter (fun a => negb (a_chore_id a =? id)) (chore_assignments t);
     chore_submissions := filter (fun s => negb (s_chore_id s =? id)) (chore_submissions t);
     completed_tasks := filter (fun k => negb (ct_chore_id k =? id)) (completed_tasks t);
     recurring_chores := recurring_chores t;
     recurring_chore_history :=
       filter (fun h => negb (h_chore_id h =? id)) (recurring_chore_history t) |}.

(** DELETE /api/chores/:id *)
Definition delete (caller : user) (id : Z) : M Z :=
  if negb (role_eqb (u_role caller) parent) then ret 403 else
  chore_ <- select (fun t =>
    find (fun c => (c_id c =? id) && (c_family_id c =? u_family_id caller)) (chores t)) ;;
  match chore_ with
  | None => ret 404
  | Some c =>
      if status_eqb (status c) completed then ret 400
      else modify (delete_chore id) ;;; ret 200
  end.

End Chores.

(* ------------------------------------------------------------------ *)
(** * Recurring chores (the recurring routes and utils/scheduler.js) *)

Module Recurring.

Definition daysOfWeek : list string :=
  ["sunday"; "monday"; "tuesday"; "wednesday"; "thursday"; "friday"; "saturday"]%string.

Section Clock.

(** Offset of the server's local time and the instant of the request. *)
Variables tz now : Z.

(** The next due date POST /api/recurring computes for a new template;
    [start_date] is the instant [new Date(start_date)]. *)
Definition initial_next_due_date (freq : frequency) (day_of_week_ : option string)
  (day_of_month_ : option Z) (start_date_ : Z) : Z :=
  let nextDueDate := JsDate.setHours tz start_date_ 9 in
  if nextDueDate <? now then
    match freq with
    | daily => JsDate.addDays tz nextDueDate 1
    | weekly =>
        match day_of_week_ with
        | Some (String c s) =>
            let targetDay := Js.indexOf String.eqb daysOfWeek (Js.toLowerCase (String c s)) in
            if negb (targetDay =? -1) then
              let currentDay := JsDate.getDay tz nextDueDate in
              let daysToAdd := Js.rem (targetDay + 7 - currentDay) 7 in
              JsDate.addDays tz nextDueDate daysToAdd
            else JsDate.addDays tz nextDueDate 7
        | _ => JsDate.addDays tz nextDueDate 7
        end
    | monthly =>
        match Js.or_null day_of_month_ with
        | Some dom =>
            let onDay := JsDate.setDate tz nextDueDate dom in
            if onDay <? now then JsDate.addMonth tz onDay else onDay
        | None => JsDate.addMonth tz nextDueDate
        end
    | custom => JsDate.addDays tz nextDueDate 1
    end
  else nextDueDate.

(** Body of POST /api/recurring. *)
Record recurring_body := {
  rb_title : option string;
  rb_description : option string;
  rb_reward_type : option reward_type;
  rb_reward_amount : option Z;
  rb_requires_photo : bool;
  rb_frequency : option frequency;
  rb_day_of_week : option string;
  rb_day_of_month : option Z;
  rb_start_date : option Z;
  rb_end_date : option Z;
  rb_auto_assign : bool;
  rb_assigned_to : option Z;
  rb_rotation_type : option rotation_type;
  rb_rotation_members : option Js.id_list;
}.

(** POST /api/recurring *)
Definition create (caller : user) (b : recurring_body) : M Z :=
  if negb (role_eqb (u_role caller) parent) then throw 403 else
  match rb_title b, rb_frequency b, rb_start_date b, rb_reward_type b,
        Js.or_null (rb_reward_amount b) with
  | Some (String c s), Some freq, Some start, Some rtype, Some amount =>
      let nextDueDate :=
        initial_next_due_date freq (rb_day_of_week b) (rb_day_of_month b) start in
      result <- insert_recurring (fun id =>
        {| r_id := id;
           r_family_id := u_family_id caller;
           r_title := String c s;
           r_description := if Js.truthy_str (rb_description b) then rb_description b else None;
           r_reward_type := rtype;
           r_reward_amount := amount;
           r_requires_photo := rb_requires_photo b;
           r_frequency := freq;
           day_of_week := if Js.truthy_str (rb_day_of_week b) then rb_day_of_week b else None;
           day_of_month := Js.or_null (rb_day_of_month b);
           start_date := JsDate.DATE start;
           end_date := Js.or_null (rb_end_date b);
           last_generated := None;
           next_due_date := nextDueDate;
           auto_assign := rb_auto_assign b;
           r_assigned_to := Js.or_null (rb_assigned_to b);
           r_rotation_type := match rb_rotation_type b with Some r => r | None => none end;
           rotation_members := rb_rotation_members b;
           r_is_active := true;
           r_created_by := u_id caller |}) ;;
      _ <- select (fun t => find (fun r => r_id r =? result) (recurring_chores t)) ;;
      ret 201
  | _, _, _, _, _ => throw 400
  end.

(** The history row already recorded for the template and the calendar day
    of its next due date, if any. *)
Definition existingHistory (t : tables) (rc : recurring_chore) : option history_entry :=
  find (fun h => (h_recurring_id h =? r_id rc)
                 && (JsDate.DATE (h_due_date h) =? JsDate.DATE (next_due_date rc)))
       (recurring_chore_history t).

(** The most recent history row of the template, by due date. *)
Definition lastHistory (t : tables) (rc : recurring_chore) : option history_entry :=
  latest h_due_date
    (filter (fun h => h_recurring_id h =? r_id rc) (recurring_chore_history t)).

(** The round-robin branch: the member after the last assignee. *)
Definition round_robin_next (members : list Z) (last : option history_entry) : option Z :=
  match last with
  | Some h =>
      match Js.or_null (h_assigned_to h) with
      | Some previous =>
          let lastIndex := Js.indexOf Z.eqb members previous in
          Js.index members (Js.rem (lastIndex + 1) (Js.length members))
      | None => Js.index members 0
      end
  | None => Js.index members 0
  end.

(** Who the generated chore goes to ([assignedTo]).  The member list is
    passed through [JSON.parse] as the row holds it; a number, which has no
    [length], leaves the chore without assignee, and the SyntaxError is
    thrown out of the handler. *)
Definition resolve_assignee (rc : recurring_chore) : M (option Z) :=
  if auto_assign rc then
    match r_rotation_type rc, rotation_members rc with
    | none, _ =>
        if Js.truthy_opt (r_assigned_to rc) then ret (r_assigned_to rc) else ret None
    | round_robin, Some rotation_members_ =>
        match Js.JSON_parse rotation_members_ with
        | None => throw 500
        | Some (Js.ParsedArray members) =>
            if 0 <? Js.length members then
              last <- select (fun t => lastHistory t rc) ;;
              ret (round_robin_next members last)
            else ret None
        | Some (Js.ParsedNumber _) => ret None
        end
    | random, Some rotation_members_ =>
        match Js.JSON_parse rotation_members_ with
        | None => throw 500
        | Some (Js.ParsedArray members) =>
            if 0 <? Js.length members then
              randomIndex <- random_index (Js.length members) ;;
              ret (Js.index members randomIndex)
            else ret None
        | Some (Js.ParsedNumber _) => ret None
        end
    | _, None => ret None
    end
  else ret None.

(** The plain step the due date advances by after a generation. *)
Definition advance (freq : frequency) (t : Z) : Z :=
  match freq with
  | daily => JsDate.addDays tz t 1
  | weekly => JsDate.addDays tz t 7
  | monthly => JsDate.addMonth tz t
  | custom => JsDate.addDays tz t 7
  end.

Definition reschedule (rc : recurring_chore) (next : Z) : recurring_chore :=
  {| r_id := r_id rc; r_family_id := r_family_id rc; r_title := r_title rc;
     r_description := r_description rc; r_reward_type := r_reward_type rc;
     r_reward_amount := r_reward_amount rc; r_requires_photo := r_requires_photo rc;
     r_frequency := r_frequency rc; day_of_week := day_of_week rc;
     day_of_month := day_of_month rc; start_date := start_date rc;
     end_date := end_date rc; last_generated := Some now; next_due_date := next;
     auto_assign := auto_assign rc; r_assigned_to := r_assigned_to rc;
     r_rotation_type := r_rotation_type rc; rotation_members := rotation_members rc;
     r_is_active := r_is_active rc; r_created_by := r_created_by rc |}.

(** The chore row a template gives; [creator] is [req.user.id] in the route
    and the template's [created_by] in the scheduler. *)
Definition generated_chore (creator : Z) (rc : recurring_chore) (assignedTo : option Z)
  (id : Z) : chore :=
  {| c_id := id;
     c_family_id := r_family_id rc;
     title := r_title rc;
     description := r_description rc;
     c_reward_type := r_reward_type rc;
     reward_amount := r_reward_amount rc;
     current_reward := r_reward_amount rc;
     requires_photo := r_requires_photo rc;
     acceptance_timer := 5;
     status := if Js.truthy_opt assignedTo then assigned else available;
     due_date := Some (next_due_date rc);
     c_created_by := creator;
     assigned_to := assignedTo;
     assigned_at := if Js.truthy_opt assignedTo then Some now else None;
     accepted_at := None;
     completed_at := None |}.

(** The writes that materialize one template: the chore, its assignment when
    there is an assignee, the history row and the template's new due date.
    Each is a statement of its own on the pool. *)
Definition materialize (creator : Z) (rc : recurring_chore) (assignedTo : option Z) : M Z :=
  insertId <- insert_chore (generated_chore creator rc assignedTo) ;;
  match Js.or_null assignedTo with
  | Some assignee =>
      _ <- insert_assignment (fun id =>
        {| a_id := id;
           a_chore_id := insertId;
           a_user_id := assignee;
           assigned_by := creator;
           a_assigned_at := now;
           a_accepted_at := None;
           declined_at := None;
           a_status := asg_pending;
           acceptance_deadline := None |}) ;;
      ret tt
  | None => ret tt
  end ;;;
  insert_history
    {| h_recurring_id := r_id rc;
       h_chore_id := insertId;
       h_due_date := next_due_date rc;
       h_status := generated;
       h_assigned_to := assignedTo |} ;;;
  modify (fun t => set_recurring_chores t
    (Chores.update_where (fun r => r_id r =? r_id rc)
       (fun r => reschedule r (advance (r_frequency rc) (next_due_date rc)))
       (recurring_chores t))) ;;;
  ret insertId.

(** One turn of the loop of POST /api/recurring/generate: [None] when the
    template is skipped, else the id of the generated chore. *)
Definition generate_one (caller : user) (rc : recurring_chore) : M (option Z) :=
  existing <- select (fun t => existingHistory t rc) ;;
  match existing with
  | Some _ => ret None
  | None =>
      assignedTo <- resolve_assignee rc ;;
      insertId <- materialize (u_id caller) rc assignedTo ;;
      _ <- select (fun t => find (fun c => c_id c =? insertId) (chores t)) ;;
      ret (Some insertId)
  end.

(** One turn of the loop of the scheduler's [generateRecurringChores]. *)
Definition scheduled_one (rc : recurring_chore) : M (option Z) :=
  existing <- select (fun t => existingHistory t rc) ;;
  match existing with
  | Some _ => ret None
  | None =>
      assignedTo <- resolve_assignee rc ;;
      insertId <- materialize (r_created_by rc) rc assignedTo ;;
      ret (Some insertId)
  end.

(** The loop over the selected templates; its value lists the generated
    chores.  A turn that throws ends the loop. *)
Fixpoint generation_loop (turn : recurring_chore -> M (option Z))
  (recurringChores : list recurring_chore) : M (list Z) :=
  match recurringChores with
  | [] => ret []
  | rc :: rest =>
      generated_ <- turn rc ;;
      others <- generation_loop turn rest ;;
      ret (match generated_ with Some id => id :: others | None => others end)
  end.

(** The templates that are due: active, due by the end of today and not
    past their end date. *)
Definition is_due (rc : recurring_chore) : bool :=
  r_is_active rc
  && (next_due_date rc <=? JsDate.endOfDay tz now)
  && match end_date rc with
     | Some e => JsDate.DATE now <=? e
     | None => true
     end.

(** POST /api/recurring/generate; its value is the status code and the
    number of chores generated. *)
Definition generate (caller : user) (recurringId : option Z) : M (Z * Z) :=
  if negb (role_eqb (u_role caller) parent) then throw 403 else
  recurringChores <- select (fun t =>
    match Js.or_null recurringId with
    | Some rid =>
        filter (fun rc => (r_id rc =? rid) && (r_family_id rc =? u_family_id caller)
                          && r_is_active rc)
               (recurring_chores t)
    | None =>
        filter (fun rc => (r_family_id rc =? u_family_id caller) && is_due rc)
               (recurring_chores t)
    end) ;;
  match recurringChores with
  | [] => ret (200, 0)
  | _ =>
      generatedChores <- generation_loop (generate_one caller) recurringChores ;;
      ret (200, Js.length generatedChores)
  end.

(** The scheduler's [generateRecurringChores]; its value is the number of
    chores generated.  The [catch] around its body logs and rethrows. *)
Definition generateRecurringChores : M Z :=
  recurringChores <- select (fun t => filter is_due (recurring_chores t)) ;;
  match recurringChores with
  | [] => ret 0
  | _ =>
      generatedChores <- generation_loop scheduled_one recurringChores ;;
      ret (Js.length generatedChores)
  end.

End Clock.

(** The cron job around [generateRecurringChores]: it logs a failure and
    goes on; what remains is the state of the store. *)
Definition cron_job (tz now : Z) (w : world) : world :=
  snd (generateRecurringChores tz now w).

End Recurring.

(* ------------------------------------------------------------------ *)
(** * Login and account lockout (the auth routes) *)

Module Auth.

Definition LOCK_MS : Z := 15 * 60 * 1000.

Definition set_login_state (u : user) (attempts : Z) (lock last : option Z) : user :=
  {| u_id := u_id u; u_family_id := u_family_id u; u_name := u_name u;
     u_email := u_email u; password_hash := password_hash u; u_role := u_role u;
     earnings := earnings u; screen_time_earned := screen_time_earned u;
     u_is_active := u_is_active u; last_login := last;
     login_attempts := attempts; locked_until := lock |}.

(** Whether the account is locked at [now]. *)
Definition is_locked (now : Z) (u : user) : bool :=
  match locked_until u with
  | Some until => now <? until
  | None => false
  end.

Section Login.

(** [a = b] on text under the collation of the columns (utf8mb4_unicode_ci),
    which is the server's. *)
Variable same_text : string -> string -> bool.

(** [bcrypt.compare(password, hash)], an external collaborator. *)
Variable bcrypt_compare : string -> string -> bool.

(** The active users with this e-mail in the family with this code. *)
Definition find_users (t : tables) (familyCode email : string) : list user :=
  filter (fun u => existsb (fun f => (f_id f =? u_family_id u)
                                     && same_text (family_code f) familyCode)
                           (families t)
                   && same_text (u_email u) email
                   && u_is_active u)
         (users t).

(** POST /api/auth/login, after the rate limiter and the validators. *)
Definition login (now : Z) (familyCode email password : string) : M Z :=
  users_ <- select (fun t => find_users t familyCode email) ;;
  match users_ with
  | [] => throw 401
  | user_ :: _ =>
      if is_locked now user_ then throw 423
      else if negb (bcrypt_compare password (password_hash user_)) then
        let newAttempts := login_attempts user_ + 1 in
        let lockUntil := if 5 <=? newAttempts then Some (now + LOCK_MS) else None in
        modify (fun t => set_users t
          (Chores.update_where (fun u => u_id u =? u_id user_)
             (fun u => set_login_state u newAttempts lockUntil (last_login u))
             (users t))) ;;;
        throw 401
      else
        modify (fun t => set_users t
          (Chores.update_where (fun u => u_id u =? u_id user_)
             (fun u => set_login_state u 0 None (Some now))
             (users t))) ;;;
        ret 200
  end.

End Login.

End Auth.

(* ------------------------------------------------------------------ *)
(** * The API as a transition system *)

Module Api.

(** The operations that write chores. *)
Inductive request :=
| Create (b : Chores.create_body)
| Update (id : Z) (p : Chores.patch_body)
| Assign (id : Z) (userId : option Z)
| Accept (id : Z)
| Decline (id : Z)
| Submit (id : Z) (file notes_ : option string)
| Approve (id : Z)
| Reject (id : Z) (feedback : option string)
| Delete (id : Z)
| Generate (recurringId : option Z)
| Scheduled.

(** What a request does to the world; [caller] is the authenticated user. *)
Definition handle (tz now : Z) (caller : user) (r : request) (w : world) : world :=
  match r with
  | Create b => snd (Chores.create now caller b w)
  | Update id p => snd (Chores.update caller id p w)
  | Assign id userId => snd (Chores.assign now caller id userId w)
  | Accept id => snd (Chores.accept now caller id w)
  | Decline id => snd (Chores.decline now caller id w)
  | Submit id file notes_ => snd (Chores.submit now caller id file notes_ w)
  | Approve id => snd (Chores.approve now caller id w)
  | Reject id feedback => snd (Chores.reject now caller id feedback w)
  | Delete id => snd (Chores.delete caller id w)
  | Generate recurringId => snd (Recurring.generate tz now caller recurringId w)
  | Scheduled => Recurring.cron_job tz now w
  end.

(** A chore's status and assignee agree: no assignee exactly when available. *)
Definition consistent (c : chore) : Prop :=
  assigned_to c = None <-> status c = available.

(** The values of the status column. *)
Definition statuses : list chore_status :=
  [available; assigned; pending_acceptance; auto_accepted;
   in_progress; pending_approval; completed; cancelled].

(** What the keys of the schema give: user ids come from AUTO_INCREMENT, so
    none is 0; chore ids are unique (PRIMARY KEY) and below the counter. *)
Definition well_keyed (t : tables) (next_chore : Z) : Prop :=
  Forall (fun u => u_id u <> 0) (users t)
  /\ NoDup (map c_id (chores t))
  /\ Forall (fun c => c_id c < next_chore) (chores t).

Definition inv_rows (t : tables) (next_chore : Z) : Prop :=
  well_keyed t next_chore /\ Forall consistent (chores t).

Definition invariant (w : world) : Prop :=
  inv_rows (rows w) (seq_chore (seqs w)).

(** A request that sets the status column directly. *)
Definition sets_status (r : request) : bool :=
  match r with
  | Update _ p => match Chores.p_status p with Some _ => true | None => false end
  | _ => false
  end.

(** The worlds the API reaches from [w0] by requests among the [allowed]
    ones; each request comes with its own clock, caller, failing round trip
    and random draws. *)
Inductive reachable (allowed : request -> bool) (w0 : world) : world -> Prop :=
| reach_start : reachable allowed w0 w0
| reach_step : forall (w : world) (tz now : Z) (caller : user) (r : request)
                      (f : option nat) (e : list Z),
    reachable allowed w0 w ->
    allowed r = true ->
    reachable allowed w0 (handle tz now caller r (set_entropy (set_fault w f) e)).

(** A computation that, from a world satisfying the invariant and [P], ends
    in one satisfying the invariant, never lowers the chore counter, and
    establishes [Q] on the rows when it returns. *)
Definition holds {A : Type} (P : tables -> Prop) (m : M A) (Q : A -> tables -> Prop) : Prop :=
  forall w : world,
    invariant w -> P (rows w) ->
    invariant (snd (m w))
    /\ seq_chore (seqs w) <= seq_chore (seqs (snd (m w)))
    /\ match fst (m w) with
       | Ok a => Q a (rows (snd (m w)))
       | Throw _ => True
       end.

(** A computation that keeps the invariant, whatever it returns. *)
Definition safe {A : Type} (m : M A) : Prop :=
  holds (fun _ => True) m (fun _ _ => True).

End Api.

(* ------------------------------------------------------------------ *)
(** * What the specification describes, stated on the rows *)

(** The four writes the specification lists for an approval, row by row:
    the submission reviewed as approved ... *)
Definition approved_submission (now : Z) (caller : user) (s : chore_submission) :
  chore_submission :=
  {| s_id := s_id s; s_chore_id := s_chore_id s; s_user_id := s_user_id s;
     assignment_id := assignment_id s; photo_path := photo_path s; notes := notes s;
     submitted_at := submitted_at s;
     reviewed_at := Some now; reviewed_by := Some (u_id caller);
     s_status := sub_approved; review_notes := review_notes s |}.

(** ... one completed task carrying the chore's current reward ... *)
Definition completed_task_of (now : Z) (caller : user) (c : chore) (assignee : Z)
  (s : chore_submission) : completed_task :=
  {| ct_chore_id := c_id c; ct_user_id := assignee; submission_id := s_id s;
     chore_title := title c; chore_description := description c;
     ct_reward_type := c_reward_type c;
     reward_earned := current_reward c;
     ct_completed_at := submitted_at s; approved_by := u_id caller; approved_at := now;
     ct_photo_path := photo_path s; ct_notes := notes s |}.

(** ... the assignee's balance of the chore's reward type credited ... *)
Definition credited (c : chore) (u : user) : user :=
  {| u_id := u_id u; u_family_id := u_family_id u; u_name := u_name u;
     u_email := u_email u; password_hash := password_hash u; u_role := u_role u;
     earnings :=
       match c_reward_type c with
       | money => earnings u + current_reward c
       | screen_time => earnings u
       end;
     screen_time_earned :=
       match c_reward_type c with
       | money => screen_time_earned u
       | screen_time => screen_time_earned u + current_reward c
       end;
     u_is_active := u_is_active u; last_login := last_login u;
     login_attempts := login_attempts u; locked_until := locked_until u |}.

(** ... and the chore completed. *)
Definition completed_chore (now : Z) (c : chore) : chore :=
  {| c_id := c_id c; c_family_id := c_family_id c; title := title c;
     description := description c; c_reward_type := c_reward_type c;
     reward_amount := reward_amount c; current_reward := current_reward c;
     requires_photo := requires_photo c; acceptance_timer := acceptance_timer c;
     status := completed; due_date := due_date c; c_created_by := c_created_by c;
     assigned_to := assigned_to c; assigned_at := assigned_at c;
     accepted_at := accepted_at c; completed_at := Some now |}.

(** The store after an approval of submission [s] of chore [c]. *)
Definition approved_rows (now : Z) (caller : user) (c : chore) (assignee : Z)
  (s : chore_submission) (t : tables) : tables :=
  {| families := families t;
     users := map (fun x => if u_id x =? assignee then credited c x else x) (users t);
     chores := map (fun x => if c_id x =? c_id c then completed_chore now x else x) (chores t);
     chore_assignments := chore_assignments t;
     chore_submissions :=
       map (fun x => if s_id x =? s_id s then approved_submission now caller x else x)
           (chore_submissions t);
     completed_tasks := completed_tasks t ++ [completed_task_of now caller c assignee s];
     recurring_chores := recurring_chores t;
     recurring_chore_history := recurring_chore_history t |}.

(** What a decline leaves of the chore: available, with nobody assigned. *)
Definition released (c : chore) : chore :=
  {| c_id := c_id c; c_family_id := c_family_id c; title := title c;
     description := description c; c_reward_type := c_reward_type c;
     reward_amount := reward_amount c; current_reward := current_reward c;
     requires_photo := requires_photo c; acceptance_timer := acceptance_timer c;
     status := available; due_date := due_date c; c_created_by := c_created_by c;
     assigned_to := None; assigned_at := None;
     accepted_at := accepted_at c; completed_at := completed_at c |}.

(** An assignment row of the chore and the user that is still pending. *)
Definition pending_for (choreId userId : Z) (a : chore_assignment) : bool :=
  (a_chore_id a =? choreId) && (a_user_id a =? userId)
  && match a_status a with asg_pending => true | _ => false end.

(** What a decline at [now] leaves of such a row. *)
Definition declined (now : Z) (a : chore_assignment) : chore_assignment :=
  {| a_id := a_id a; a_chore_id := a_chore_id a; a_user_id := a_user_id a;
     assigned_by := assigned_by a; a_assigned_at := a_assigned_at a;
     a_accepted_at := a_accepted_at a; declined_at := Some now;
     a_status := asg_declined; acceptance_deadline := acceptance_deadline a |}.

(** What an accept at [now] leaves of such a row. *)
Definition accepted (now : Z) (a : chore_assignment) : chore_assignment :=
  {| a_id := a_id a; a_chore_id := a_chore_id a; a_user_id := a_user_id a;
     assigned_by := assigned_by a; a_assigned_at := a_assigned_at a;
     a_accepted_at := Some now; declined_at := declined_at a;
     a_status := asg_accepted; acceptance_deadline := acceptance_deadline a |}.

(** A user row with the three columns of the login state set. *)
Definition login_state (x : user) (attempts : Z) (lock last : option Z) : user :=
  {| u_id := u_id x; u_family_id := u_family_id x; u_name := u_name x;
     u_email := u_email x; password_hash := password_hash x; u_role := u_role x;
     earnings := earnings x; screen_time_earned := screen_time_earned x;
     u_is_active := u_is_active x; last_login := last;
     login_attempts := attempts; locked_until := lock |}.

(** The rows after a wrong password for user [u] at [now]: one attempt more
    on the counter, and from five on a lock of fifteen minutes. *)
Definition after_mismatch (now : Z) (u : user) (t : tables) : tables :=
  {| families := families t;
     users := map (fun x => if u_id x =? u_id u
                            then login_state x (login_attempts u + 1)
                                   (if 5 <=? login_attempts u + 1
                                    then Some (now + 900000) else None)
                                   (last_login x)
                            else x)
                  (users t);
     chores := chores t;
     chore_assignments := chore_assignments t;
     chore_submissions := chore_submissions t;
     completed_tasks := completed_tasks t;
     recurring_chores := recurring_chores t;
     recurring_chore_history := recurring_chore_history t |}.

(** The rows after a successful login of user [u] at [now]. *)
Definition after_login (now : Z) (u : user) (t : tables) : tables :=
  {| families := families t;
     users := map (fun x => if u_id x =? u_id u
                            then login_state x 0 None (Some now) else x)
                  (users t);
     chores := chores t;
     chore_assignments := chore_assignments t;
     chore_submissions := chore_submissions t;
     completed_tasks := completed_tasks t;
     recurring_chores := recurring_chores t;
     recurring_chore_history := recurring_chore_history t |}.

(** [i] is the first position of [x] in [l]. *)
Definition first_index (l : list Z) (x : Z) (i : nat) : Prop :=
  nth_error l i = Some x /\ forall j, (j < i)%nat -> nth_error l j <> Some x.

(** The users a template can hand its chores to. *)
Definition candidates (rc : recurring_chore) : list Z :=
  match r_assigned_to rc with
  | Some a => [a]
  | None => []
  end ++
  match rotation_members rc with
  | Some (Js.IdArray members) => members
  | Some (Js.IdText members) => members
  | None => []
  end.

(** The member list does not reach [JSON.parse] as an array: the template
    does not rotate, or its list, if any, is JSON text. *)
Definition members_readable (rc : recurring_chore) : Prop :=
  auto_assign rc = false
  \/ r_rotation_type rc = none
  \/ forall ids, rotation_members rc <> Some (Js.IdArray ids).

(* ------------------------------------------------------------------ *)
(** * A small family, used to run the handlers *)

Module Sample.

Local Open Scope string_scope.

Definition smiths : family := {| f_id := 1; family_code := "SMITH1" |}.

Definition member (id : Z) (name email : string) (r : role) : user :=
  {| u_id := id; u_family_id := 1; u_name := name; u_email := email;
     password_hash := "$2a$12$hash"; u_role := r; earnings := 0;
     screen_time_earned := 0; u_is_active := true; last_login := None;
     login_attempts := 0; locked_until := None |}.

Definition mum : user := member 1 "Mum" "mum@example.org" parent.
Definition ann : user := member 7 "Ann" "ann@example.org" child.
Definition bob : user := member 8 "Bob" "bob@example.org" child.
Definition cat : user := member 9 "Cat" "cat@example.org" child.

Definition a_chore (id : Z) (name : string) (st : chore_status) (who : option Z) : chore :=
  {| c_id := id; c_family_id := 1; title := name; description := None;
     c_reward_type := money; reward_amount := 500; current_reward := 500;
     requires_photo := false; acceptance_timer := 5; status := st;
     due_date := None; c_created_by := 1; assigned_to := who;
     assigned_at := match who with Some _ => Some 1000 | None => None end;
     accepted_at := None; completed_at := None |}.

Definition dishes : chore := a_chore 10 "Dishes" pending_approval (Some 7).
Definition laundry : chore := a_chore 11 "Laundry" pending_acceptance (Some 8).
Definition lawn : chore := a_chore 12 "Lawn" completed (Some 7).
Definition windows : chore := a_chore 13 "Windows" available None.

Definition an_assignment (id choreId userId : Z) (st : assignment_status) : chore_assignment :=
  {| a_id := id; a_chore_id := choreId; a_user_id := userId; assigned_by := 1;
     a_assigned_at := 1000; a_accepted_at := None; declined_at := None;
     a_status := st; acceptance_deadline := Some 301000 |}.

Definition dishes_done : chore_submission :=
  {| s_id := 1; s_chore_id := 10; s_user_id := 7; assignment_id := Some 1;
     photo_path := None; notes := Some "done"; submitted_at := 5000;
     reviewed_at := None; reviewed_by := None; s_status := sub_pending;
     review_notes := None |}.

(** 2024-01-10 09:00 UTC, a Wednesday. *)
Definition wed_10_jan_9am : Z := 19732 * JsDate.MS_PER_DAY + 9 * JsDate.MS_PER_HOUR.

(** A daily round-robin template over Ann, Bob and Cat, due on 2024-01-10. *)
Definition trash (id : Z) : recurring_chore :=
  {| r_id := id; r_family_id := 1; r_title := "Trash"; r_description := None;
     r_reward_type := money; r_reward_amount := 200; r_requires_photo := false;
     r_frequency := daily; day_of_week := None; day_of_month := None;
     start_date := 19732; end_date := None; last_generated := None;
     next_due_date := wed_10_jan_9am; auto_assign := true; r_assigned_to := None;
     r_rotation_type := round_robin;
     rotation_members := Some (Js.IdText [7; 8; 9]);
     r_is_active := true; r_created_by := 1 |}.

Definition home : tables :=
  {| families := [smiths];
     users := [mum; ann; bob; cat];
     chores := [dishes; laundry; lawn; windows];
     chore_assignments :=
       [an_assignment 1 10 7 asg_accepted; an_assignment 2 11 8 asg_pending;
        an_assignment 3 12 7 asg_accepted];
     chore_submissions := [dishes_done];
     completed_tasks := [];
     recurring_chores := [trash 1; trash 2];
     recurring_chore_history := [] |}.

Definition counters : sequences :=
  {| seq_chore := 14; seq_assignment := 4; seq_submission := 2; seq_recurring := 3 |}.

(** The store with the round trip at position [f] failing. *)
Definition world_with (f : option nat) : world :=
  {| rows := home; seqs := counters; fault := f; entropy := [] |}.

(** A history row of template 1. *)
Definition past_run (due : Z) (who : option Z) : history_entry :=
  {| h_recurring_id := 1; h_chore_id := 12; h_due_date := due;
     h_status := generated; h_assigned_to := who |}.

(** The store with the given history, no round trip failing. *)
Definition with_history (hs : list history_entry) : world :=
  {| rows := set_recurring_chore_history home hs; seqs := counters;
     fault := None; entropy := [] |}.

(** 2024-01-10 12:00 UTC. *)
Definition noon : Z := 19732 * JsDate.MS_PER_DAY + 12 * JsDate.MS_PER_HOUR.

(** A patch that only sets the status. *)
Definition status_patch (st : chore_status) : Chores.patch_body :=
  {| Chores.p_title := None; Chores.p_description := None;
     Chores.p_reward_amount := None; Chores.p_reward_type := None;
     Chores.p_requires_photo := None; Chores.p_acceptance_timer := None;
     Chores.p_status := Some st |}.

End Sample.

(* ------------------------------------------------------------------ *)
(** * Access middleware and family codes (middleware/auth.js) *)

Module Middleware.

(** [restrictTo(...roles)]. *)
Definition restrictTo (roles : list role) (caller : user) : M unit :=
  if existsb (role_eqb (u_role caller)) roles then ret tt else throw 403.

(** [checkFamilyAccess]; [familyId] is the id the request names, if any. *)
Definition checkFamilyAccess (caller : user) (familyId : option Z) : M unit :=
  match Js.or_null familyId with
  | Some id => if negb (id =? u_family_id caller) then throw 403 else ret tt
  | None => ret tt
  end.

(** [checkUserAccess]; [userId] is the numeric id in the route, if any. *)
Definition checkUserAccess (caller : user) (userId : option Z) : M unit :=
  if role_eqb (u_role caller) parent then
    match userId with
    | Some id =>
        targetUser <- select (fun t => filter (fun u => u_id u =? id) (users t)) ;;
        match targetUser with
        | [] => throw 404
        | target :: _ =>
            if negb (u_family_id target =? u_family_id caller) then throw 403 else ret tt
        end
    | None => ret tt
    end
  else
    match userId with
    | Some id => if negb (id =? u_id caller) then throw 403 else ret tt
    | None => ret tt
    end.

(** [protect]: [token] is the user id in the bearer token of the request,
    once [jwt.verify] has accepted it ([None]: the request carries no
    token).  The user must exist and be active; the row gets its
    [last_login] stamped, and [req.user] is the row as it was read. *)
Definition protect (now : Z) (token : option Z) : M user :=
  match token with
  | None => throw 401
  | Some id =>
      currentUser <- select (fun t =>
        filter (fun u => (u_id u =? id) && u_is_active u) (users t)) ;;
      match currentUser with
      | [] => throw 401
      | user_ :: _ =>
          modify (fun t => set_users t
            (Chores.update_where (fun u => u_id u =? u_id user_)
               (fun u => Auth.set_login_state u (login_attempts u) (locked_until u)
                           (Some now))
               (users t))) ;;;
          ret user_
      end
  end.

(** An entry of the rate limiter's [Map], kept per client address. *)
Record attempt := {
  count : Z;
  resetTime : Z;
}.

Definition attempts := string -> option attempt.

Definition no_attempts : attempts := fun _ => None.

(** [attempts.set(key, v)]. *)
Definition set_attempt (m : attempts) (key : string) (v : attempt) : attempts :=
  fun k => if String.eqb k key then Some v else m k.

(** What the limiter does with a request. *)
Inductive verdict :=
| Next
| TooMany (retryAfter : Z).

(** [Math.ceil(a / b)] for a positive [b]. *)
Definition ceil_div (a b : Z) : Z := - ((- a) / b).

(** [authRateLimit(maxAttempts, windowMs)] on a request from [key] at [now]. *)
Definition authRateLimit (maxAttempts windowMs : Z) (m : attempts) (key : string) (now : Z)
  : verdict * attempts :=
  match m key with
  | None => (Next, set_attempt m key {| count := 1; resetTime := now + windowMs |})
  | Some userAttempts =>
      if resetTime userAttempts <? now then
        (Next, set_attempt m key {| count := 1; resetTime := now + windowMs |})
      else if maxAttempts <=? count userAttempts then
        (TooMany (ceil_div (resetTime userAttempts - now) 1000), m)
      else
        (Next, set_attempt m key {| count := count userAttempts + 1;
                                    resetTime := resetTime userAttempts |})
  end.

(** The limiter over the requests of one client, in order: how many pass. *)
Fixpoint passed (maxAttempts windowMs : Z) (m : attempts) (key : string) (times : list Z)
  : nat * attempts :=
  match times with
  | [] => (O, m)
  | now :: later =>
      let '(v, m') := authRateLimit maxAttempts windowMs m key now in
      let '(n, m'') := passed maxAttempts windowMs m' key later in
      (match v with Next => S n | TooMany _ => n end, m'')
  end.

(** A character of [[A-Za-z0-9]]. *)
Definition alphanumeric (c : ascii) : bool :=
  let n := nat_of_ascii c in
  (Nat.leb 48 n && Nat.leb n 57) || (Nat.leb 65 n && Nat.leb n 90)
  || (Nat.leb 97 n && Nat.leb n 122).

(** [/^[A-Za-z0-9]{6,10}$/.test(s)]. *)
Definition family_code_format (s : string) : bool :=
  Nat.leb 6 (String.length s) && Nat.leb (String.length s) 10
  && forallb alphanumeric (list_ascii_of_string s).

(** [validateFamilyCode]. *)
Definition validateFamilyCode (familyCode : option string) : M unit :=
  match familyCode with
  | Some (String c s) =>
      if negb (family_code_format (String c s)) then throw 400 else ret tt
  | _ => throw 400
  end.

Definition chars : string := "ABCDEFGHIJKLMNOPQRSTUVWXYZ0123456789".

(** [s.charAt(i)]: the empty string outside the string. *)
Definition charAt (s : string) (i : Z) : string :=
  if i <? 0 then EmptyString
  else match String.get (Z.to_nat i) s with
       | Some c => String c EmptyString
       | None => EmptyString
       end.

(** The loop of [generateFamilyCode], [n] turns from [result]. *)
Fixpoint append_random_chars (n : nat) (result : string) : M string :=
  match n with
  | O => ret result
  | S n' =>
      i <- random_index (Z.of_nat (String.length chars)) ;;
      append_random_chars n' (String.append result (charAt chars i))
  end.

(** [generateFamilyCode]. *)
Definition generateFamilyCode : M string := append_random_chars 8 EmptyString.

Section Collation.

(** [a = b] under the collation of the [family_code] column
    (utf8mb4_unicode_ci), which is the server's. *)
Variable same_text : string -> string -> bool.

(** [checkFamilyCodeUnique]. *)
Definition checkFamilyCodeUnique (familyCode : string) : M bool :=
  existing <- select (fun t =>
    filter (fun f => same_text (family_code f) familyCode) (families t)) ;;
  ret (match existing with [] => true | _ => false end).

(** The loop of [generateUniqueFamilyCode] with [left] attempts to go. *)
Fixpoint unique_code_attempts (left : nat) : M string :=
  match left with
  | O => throw 500
  | S left' =>
      familyCode <- generateFamilyCode ;;
      isUnique <- checkFamilyCodeUnique familyCode ;;
      if isUnique then ret familyCode else unique_code_attempts left'
  end.

(** [generateUniqueFamilyCode]: at most 10 attempts. *)
Definition generateUniqueFamilyCode : M string := unique_code_attempts 10.

End Collation.

End Middleware.

(* ------------------------------------------------------------------ *)
(** * User routes (routes/users.js) *)

Module Users.

(** Body of PATCH /api/users/:id: the fields it carries.  The columns
    [avatar_url] and [preferences] are not among the modelled ones; a patch
    of them writes nothing the rows show. *)
Record patch_body := {
  p_name : option string;
  p_avatar_url : option string;
  p_preferences : option string;
  p_role : option role;
  p_earnings : option Z;
  p_screen_time_earned : option Z;
}.

(** The fields of the body the caller may set: parents more than children. *)
Definition updates (caller : user) (p : patch_body) : patch_body :=
  if role_eqb (u_role caller) parent then p
  else {| p_name := p_name p; p_avatar_url := p_avatar_url p;
          p_preferences := p_preferences p;
          p_role := None; p_earnings := None; p_screen_time_earned := None |}.

Definition no_updates (p : patch_body) : bool :=
  match p_name p, p_avatar_url p, p_preferences p, p_role p, p_earnings p,
        p_screen_time_earned p with
  | None, None, None, None, None, None => true
  | _, _, _, _, _, _ => false
  end.

(** [UPDATE users SET <the fields present> WHERE id = ?] on one row. *)
Definition apply_patch (p : patch_body) (u : user) : user :=
  {| u_id := u_id u; u_family_id := u_family_id u;
     u_name := Chores.or_else (p_name p) (u_name u);
     u_email := u_email u; password_hash := password_hash u;
     u_role := Chores.or_else (p_role p) (u_role u);
     earnings := Chores.or_else (p_earnings p) (earnings u);
     screen_time_earned := Chores.or_else (p_screen_time_earned p) (screen_time_earned u);
     u_is_active := u_is_active u; last_login := last_login u;
     login_attempts := login_attempts u; locked_until := locked_until u |}.

(** PATCH /api/users/:id *)
Definition patch (caller : user) (id : Z) (p : patch_body) : M Z :=
  Middleware.checkUserAccess caller (Some id) ;;;
  (if no_updates (updates caller p) then ret 400
   else
     modify (fun t => set_users t
               (Chores.update_where (fun u => u_id u =? id)
                  (apply_patch (updates caller p)) (users t))) ;;;
     (_ <- select (fun t => find (fun u => u_id u =? id) (users t)) ;;
      ret 200)).

End Users.

(* ------------------------------------------------------------------ *)
(** * Deleting a recurring template (DELETE /api/recurring/:id) *)

Module Templates.

(** [DELETE FROM recurring_chores WHERE id = ?], with the history rows that
    reference the template ON DELETE CASCADE. *)
Definition delete_recurring (id : Z) (t : tables) : tables :=
  set_recurring_chore_history
    (set_recurring_chores t (filter (fun r => negb (r_id r =? id)) (recurring_chores t)))
    (filter (fun h => negb (h_recurring_id h =? id)) (recurring_chore_history t)).

(** DELETE /api/recurring/:id *)
Definition delete (caller : user) (id : Z) : M Z :=
  if negb (role_eqb (u_role caller) parent) then throw 403 else
  existingChore <- select (fun t =>
    find (fun r => (r_id r =? id) && (r_family_id r =? u_family_id caller))
         (recurring_chores t)) ;;
  match existingChore with
  | None => throw 404
  | Some _ => modify (delete_recurring id) ;;; ret 200
  end.

End Templates.

(* ------------------------------------------------------------------ *)
(** * The routes behind [protect] *)

Module Routes.

Section Request.

(** Offset of the server's local time, the instant of the request and the
    user id of its verified token, if it carries one. *)
Variables tz now : Z.
Variable token : option Z.

(** [router.METHOD(path, protect, ..., handler)]: the handler runs for the
    user [protect] has put in [req.user]. *)
Definition protected {A : Type} (handler : user -> M A) : M A :=
  caller <- Middleware.protect now token ;;
  handler caller.

Definition create (b : Chores.create_body) : M Z :=
  protected (fun caller => Chores.create now caller b).

Definition update (id : Z) (p : Chores.patch_body) : M Z :=
  protected (fun caller => Chores.update caller id p).

Definition assign (id : Z) (userId : option Z) : M Z :=
  protected (fun caller => Chores.assign now caller id userId).

Definition accept (id : Z) : M Z :=
  protected (fun caller => Chores.accept now caller id).

Definition decline (id : Z) : M Z :=
  protected (fun caller => Chores.decline now caller id).

Definition submit (id : Z) (file notes_ : option string) : M Z :=
  protected (fun caller => Chores.submit now caller id file notes_).

Definition approve (id : Z) : M Z :=
  protected (fun caller => Chores.approve now caller id).

Definition reject (id : Z) (feedback : option string) : M Z :=
  protected (fun caller => Chores.reject now caller id feedback).

Definition delete (id : Z) : M Z :=
  protected (fun caller => Chores.delete caller id).

Definition create_recurring (b : Recurring.recurring_body) : M Z :=
  protected (fun caller => Recurring.create tz now caller b).

Definition delete_recurring (id : Z) : M Z :=
  protected (fun caller => Templates.delete caller id).

Definition generate (recurringId : option Z) : M (Z * Z) :=
  protected (fun caller => Recurring.generate tz now caller recurringId).

Definition patch_user (id : Z) (p : Users.patch_body) : M Z :=
  protected (fun caller => Users.patch caller id p).

(** What a request to the chore routes, or a run of the scheduler, leaves. *)
Definition serve (r : Api.request) (w : world) : world :=
  match r with
  | Api.Create b => snd (create b w)
  | Api.Update id p => snd (update id p w)
  | Api.Assign id userId => snd (assign id userId w)
  | Api.Accept id => snd (accept id w)
  | Api.Decline id => snd (decline id w)
  | Api.Submit id file notes_ => snd (submit id file notes_ w)
  | Api.Approve id => snd (approve id w)
  | Api.Reject id feedback => snd (reject id feedback w)
  | Api.Delete id => snd (delete id w)
  | Api.Generate recurringId => snd (generate recurringId w)
  | Api.Scheduled => Recurring.cron_job tz now w
  end.

End Request.

End Routes.

(* ------------------------------------------------------------------ *)
(** * Request bodies used to run the handlers *)

Module Bodies.

Local Open Scope string_scope.

(** A chore for 3.00, with the given assignment options. *)
Definition new_chore (name : option string) (auto : bool) (rot : option rotation_type)
  (fixed : option Z) (members : option (list Z)) : Chores.create_body :=
  {| Chores.b_title := name; Chores.b_description := None;
     Chores.b_reward_amount := Some 300; Chores.b_reward_type := None;
     Chores.b_requires_photo := false; Chores.b_acceptance_timer := Some 10;
     Chores.b_auto_assign := auto; Chores.b_assigned_to := fixed;
     Chores.b_rotation_type := rot; Chores.b_rotation_members := members |}.

Definition plain_chore : Chores.create_body :=
  new_chore (Some "Sweep") false None None None.

Definition rotating_chore (members : list Z) : Chores.create_body :=
  new_chore (Some "Sweep") true (Some round_robin) None (Some members).

(** A patch of a chore's nominal reward. *)
Definition reward_patch (amount : Z) : Chores.patch_body :=
  {| Chores.p_title := None; Chores.p_description := None;
     Chores.p_reward_amount := Some amount; Chores.p_reward_type := None;
     Chores.p_requires_photo := None; Chores.p_acceptance_timer := None;
     Chores.p_status := None |}.

Definition empty_patch : Chores.patch_body :=
  {| Chores.p_title := None; Chores.p_description := None;
     Chores.p_reward_amount := None; Chores.p_reward_type := None;
     Chores.p_requires_photo := None; Chores.p_acceptance_timer := None;
     Chores.p_status := None |}.

(** A patch of a user's balance and role. *)
Definition raise (amount : Z) : Users.patch_body :=
  {| Users.p_name := Some "Ann B."; Users.p_avatar_url := None;
     Users.p_preferences := None; Users.p_role := Some parent;
     Users.p_earnings := Some amount; Users.p_screen_time_earned := None |}.

(** A user of another family. *)
Definition stranger : user :=
  {| u_id := 20; u_family_id := 2; u_name := "Zed"; u_email := "zed@example.org";
     password_hash := "$2a$12$other"; u_role := parent; earnings := 0;
     screen_time_earned := 0; u_is_active := true; last_login := None;
     login_attempts := 0; locked_until := None |}.

End Bodies.

(* ------------------------------------------------------------------ *)
(** * The signed-in caller *)

(** The request carries a verified token of [caller]: an active user, whose
    id is a key of the users table. *)
Definition signed_in (caller : user) (t : tables) : Prop :=
  In caller (users t)
  /\ u_is_active caller = true
  /\ forall x, In x (users t) -> u_id x = u_id caller -> x = caller.

(** The row of a user seen at [now]: only [last_login] differs. *)
Definition seen (now : Z) (u : user) : user :=
  {| u_id := u_id u; u_family_id := u_family_id u; u_name := u_name u;
     u_email := u_email u; password_hash := password_hash u; u_role := u_role u;
     earnings := earnings u; screen_time_earned := screen_time_earned u;
     u_is_active := u_is_active u; last_login := Some now;
     login_attempts := login_attempts u; locked_until := locked_until u |}.

(** The rows once user [id] has been let in at [now]: that user's row is
    [seen], every other row of every table is as it was. *)
Definition let_in (now id : Z) (t : tables) : tables :=
  {| families := families t;
     users := map (fun x => if u_id x =? id then seen now x else x) (users t);
     chores := chores t;
     chore_assignments := chore_assignments t;
     chore_submissions := chore_submissions t;
     completed_tasks := completed_tasks t;
     recurring_chores := recurring_chores t;
     recurring_chore_history := recurring_chore_history t |}.

(** The world a protected handler starts in, when no round trip fails. *)
Definition admitted (now id : Z) (w : world) : world :=
  {| rows := let_in now id (rows w); seqs := seqs w; fault := None;
     entropy := entropy w |}.

(** The columns of the users table other than [last_login]. *)
Definition users_apart_from_last_login (t : tables)
  : list (Z * Z * string * string * string * role * Z * Z * bool * Z * option Z) :=
  map (fun u => (u_id u, u_family_id u, u_name u, u_email u, password_hash u, u_role u,
                 earnings u, screen_time_earned u, u_is_active u, login_attempts u,
                 locked_until u))
      (users t).

(** The columns of the users table other than the login state (attempt
    counter, lock expiry and last login). *)
Definition users_apart_from_login_state (t : tables)
  : list (Z * Z * string * string * string * role * Z * Z * bool) :=
  map (fun u => (u_id u, u_family_id u, u_name u, u_email u, password_hash u, u_role u,
                 earnings u, screen_time_earned u, u_is_active u))
      (users t).

(* ------------------------------------------------------------------ *)
(** * Parts of rows that some routes leave alone *)

(** What PATCH /api/chores/:id cannot change of a chore. *)
Definition chore_fixed_part (c : chore)
  : Z * Z * Z * Z * option Z * option Z * option Z * option Z * option Z :=
  (c_id c, c_family_id c, c_created_by c, current_reward c, assigned_to c,
   assigned_at c, accepted_at c, completed_at c, due_date c).

(** What a child's PATCH /api/users/:id cannot change of a user. *)
Definition user_fixed_part (u : user) : Z * Z * role * Z * Z * string * string * bool :=
  (u_id u, u_family_id u, u_role u, earnings u, screen_time_earned u, u_email u,
   password_hash u, u_is_active u).

(* ------------------------------------------------------------------ *)
(** * Further sample stores *)

Module Scenes.

Local Open Scope string_scope.

(** A chore in progress for Cat that asks for a photo. *)
Definition garage : chore :=
  {| c_id := 14; c_family_id := 1; title := "Garage"; description := None;
     c_reward_type := screen_time; reward_amount := 3000; current_reward := 3000;
     requires_photo := true; acceptance_timer := 5; status := in_progress;
     due_date := None; c_created_by := 1; assigned_to := Some 9;
     assigned_at := Some 1000; accepted_at := Some 2000; completed_at := None |}.

Definition with_garage : world :=
  {| rows := set_chore_assignments
               (set_chores Sample.home (chores Sample.home ++ [garage]))
               (chore_assignments Sample.home
                  ++ [Sample.an_assignment 4 14 9 asg_declined;
                      Sample.an_assignment 5 14 9 asg_accepted]);
     seqs := {| seq_chore := 15; seq_assignment := 6; seq_submission := 2;
                seq_recurring := 3 |};
     fault := None; entropy := [] |}.

(** A chore created for Bob: it starts out assigned. *)
Definition ironing : chore := Sample.a_chore 14 "Ironing" assigned (Some 8).

Definition with_ironing : world :=
  {| rows := set_chore_assignments
               (set_chores Sample.home (chores Sample.home ++ [ironing]))
               (chore_assignments Sample.home ++ [Sample.an_assignment 4 14 8 asg_pending]);
     seqs := {| seq_chore := 15; seq_assignment := 5; seq_submission := 2;
                seq_recurring := 3 |};
     fault := None; entropy := [] |}.

(** The sample family with Ann at [n] failed logins and lock expiry [lock]. *)
Definition tried (n : Z) (lock : option Z) : world :=
  set_rows (Sample.world_with None)
    (set_users Sample.home
       [Sample.mum; login_state Sample.ann n lock None; Sample.bob; Sample.cat]).

(** A collation that ignores the case of letters. *)
Definition ignoring_case (a b : string) : bool :=
  String.eqb (Js.toLowerCase a) (Js.toLowerCase b).

(** A password check for which every hash is that of "correct horse". *)
Definition checks (password hash : string) : bool :=
  String.eqb password "correct horse".

(** The template of [Sample.trash 1] with its member list as the row gives it
    back: an array when the client sent an array, which the route wrote with
    [JSON.stringify]; JSON text when the client sent the text. *)
Definition rota (members : Js.id_list) : recurring_chore :=
  {| r_id := 1; r_family_id := 1; r_title := "Trash"; r_description := None;
     r_reward_type := money; r_reward_amount := 200; r_requires_photo := false;
     r_frequency := daily; day_of_week := None; day_of_month := None;
     start_date := 19732; end_date := None; last_generated := None;
     next_due_date := Sample.wed_10_jan_9am; auto_assign := true; r_assigned_to := None;
     r_rotation_type := round_robin;
     rotation_members := Some members;
     r_is_active := true; r_created_by := 1 |}.

(** The sample family with that template alone. *)
Definition with_rota (members : Js.id_list) : world :=
  {| rows := set_recurring_chores Sample.home [rota members];
     seqs := Sample.counters; fault := None; entropy := [] |}.

End Scenes.

(** A computation that leaves the part [proj] of the rows as it was,
    whatever it returns and whichever round trip fails. *)
Definition keeps {A B : Type} (proj : tables -> B) (m : M A) : Prop :=
  forall w : world, proj (rows (snd (m w))) = proj (rows w).

(** A projection that reads none of the tables the chore routes insert
    into or update. *)
Record untouched {B : Type} (proj : tables -> B) : Prop := {
  past_chores : forall t l, proj (set_chores t l) = proj t;
  past_assignments : forall t l, proj (set_chore_assignments t l) = proj t;
  past_submissions : forall t l, proj (set_chore_submissions t l) = proj t;
}.

(* ------------------------------------------------------------------ *)
(** * The history of a template, day by day *)

(** A history row of template [id] whose due date is on calendar day [day]. *)
Definition on_day (id day : Z) (h : history_entry) : bool :=
  (h_recurring_id h =? id) && (JsDate.DATE (h_due_date h) =? day).

(** The requests that generate chores from templates. *)
Definition generates (r : Api.request) : bool :=
  match r with
  | Api.Generate _ | Api.Scheduled => true
  | _ => false
  end.

(** A computation that appends at most one row to the history, and then one
    that satisfies [P]; whatever it returns and whichever round trip fails. *)
Definition appends_once {A : Type} (P : history_entry -> Prop) (m : M A) : Prop :=
  forall w : world,
    recurring_chore_history (rows (snd (m w))) = recurring_chore_history (rows w)
    \/ exists h,
         recurring_chore_history (rows (snd (m w))) = recurring_chore_history (rows w) ++ [h]
         /\ P h.

(** A computation that leaves the history rows of template [id] on day [day]
    as they are, or adds the first one. *)
Definition day_guarded (id day : Z) {A : Type} (m : M A) : Prop :=
  forall w : world,
    filter (on_day id day) (recurring_chore_history (rows (snd (m w))))
    = filter (on_day id day) (recurring_chore_history (rows w))
    \/ (filter (on_day id day) (recurring_chore_history (rows w)) = []
        /\ exists h,
             filter (on_day id day) (recurring_chore_history (rows (snd (m w)))) = [h]).

(** A computation that removes and changes no chore: it only appends. *)
Definition extends_chores {A : Type} (m : M A) : Prop :=
  forall w : world, exists more, chores (rows (snd (m w))) = chores (rows w) ++ more.

(* ================================================================== *)
(** * Properties *)

(** ** Lists, lookups and the latest row *)

Lemma find_unique {A : Type} (key : A -> Z) (p : A -> bool) (l : list A) (x : A) :
  NoDup (map key l) ->
  In x l ->
  p x = true ->
  (forall y, p y = true -> key y = key x) ->
  find p l = Some x.
Proof.
  induction l as [|a l IH]; intros Hnd Hin Hp Hkey; [contradiction|].
  simpl in *. inversion Hnd as [|k ks Hnotin Hnd']; subst.
  destruct (p a) eqn:Hpa.
  - destruct Hin as [->|Hin]; [reflexivity|].
    exfalso. apply Hnotin. rewrite (Hkey a Hpa). now apply in_map.
  - destruct Hin as [->|Hin]; [congruence|]. now apply IH.
Qed.

Lemma latest_in {A : Type} (key : A -> Z) (l : list A) (x : A) :
  latest key l = Some x -> In x l.
Proof.
  revert x; induction l as [|a l IH]; intros x H; simpl in *; [discriminate|].
  destruct (latest key l) as [y|].
  - destruct (key a <? key y); inversion H; subst; auto.
  - inversion H; auto.
Qed.

Lemma latest_none {A : Type} (key : A -> Z) (l : list A) :
  latest key l = None -> l = [].
Proof.
  destruct l as [|a l]; [reflexivity|]. simpl.
  destruct (latest key l) as [y|]; [destruct (key a <? key y)|]; discriminate.
Qed.

Lemma latest_max {A : Type} (key : A -> Z) (l : list A) (x : A) :
  latest key l = Some x -> forall y, In y l -> key y <= key x.
Proof.
  revert x; induction l as [|a l IH]; intros x H y Hy; simpl in *; [contradiction|].
  destruct (latest key l) as [z|] eqn:Hz.
  - destruct (key a <? key z) eqn:Hlt; inversion H; subst; clear H.
    + destruct Hy as [->|Hy]; [lia | now apply IH].
    + destruct Hy as [->|Hy]; [lia|].
      specialize (IH z eq_refl y Hy). lia.
  - inversion H; subst. destruct Hy as [->|Hy]; [lia|].
    rewrite (latest_none key l Hz) in Hy. contradiction.
Qed.

Lemma latest_nonempty {A : Type} (key : A -> Z) (l : list A) :
  l <> [] -> exists x, latest key l = Some x.
Proof.
  destruct l as [|a l]; [congruence|]. intros _. simpl.
  destruct (latest key l) as [y|]; [destruct (key a <? key y)|]; eauto.
Qed.

Lemma update_where_length {A : Type} (p : A -> bool) (f : A -> A) (l : list A) :
  List.length (Chores.update_where p f l) = List.length l.
Proof. apply length_map. Qed.

(** ** The gateway *)

Lemma round_trip_no_fault (w : world) :
  fault w = None -> round_trip w = (Ok tt, w).
Proof. unfold round_trip. now intros ->. Qed.

Lemma round_trip_rows (w w' : world) (r : result unit) :
  round_trip w = (r, w') -> rows w' = rows w /\ seqs w' = seqs w.
Proof.
  unfold round_trip. destruct (fault w) as [[|k]|]; intros H; inversion H; auto.
Qed.

(** A transaction that throws leaves the rows as they were. *)
Lemma transaction_rollback {A : Type} (callback : M A) (w w' : world) (e : Z) :
  transaction callback w = (Throw e, w') -> rows w' = rows w.
Proof.
  unfold transaction.
  destruct ((round_trip ;;; (r <- callback ;; (round_trip ;;; ret r))) w) as [[r|e'] w1];
    intros H; inversion H; reflexivity.
Qed.

(** Without a fault, a transaction is its callback. *)
Lemma transaction_no_fault {A : Type} (callback : M A) (w w' : world) (a : A) :
  fault w = None ->
  callback w = (Ok a, w') ->
  fault w' = None ->
  transaction callback w = (Ok a, w').
Proof.
  intros Hf Hcb Hf'. unfold transaction, bind.
  rewrite (round_trip_no_fault w Hf), Hcb, (round_trip_no_fault w' Hf').
  reflexivity.
Qed.

Ltac unfold_gateway :=
  unfold catchAsync, transaction, insert_completed_task, insert_history,
    insert_chore, insert_assignment, insert_submission, insert_recurring,
    constrained, select, modify, bind, ret, throw, round_trip.

(** ** Approval *)

(** The approved chore row, as the lookup of the handler finds it. *)
Lemma approve_lookup (t : tables) (caller : user) (c : chore) (assignee : Z) (u : user) :
  NoDup (map c_id (chores t)) ->
  In c (chores t) ->
  c_family_id c = u_family_id caller ->
  status c = pending_approval ->
  assigned_to c = Some assignee ->
  In u (users t) ->
  u_id u = assignee ->
  find (fun c0 => Chores.is_pending_approval (u_family_id caller) (c_id c) c0
                  && match assigned_to c0 with
                     | Some a => existsb (fun u0 => u_id u0 =? a) (users t)
                     | None => false
                     end)
       (chores t) = Some c.
Proof.
  intros Hnd Hin Hfam Hst Hasg Hu Huid.
  apply (find_unique c_id); auto.
  - unfold Chores.is_pending_approval.
    rewrite Hasg, Hst, Hfam, !Z.eqb_refl. simpl.
    apply existsb_exists. exists u. split; [assumption|]. now apply Z.eqb_eq.
  - intros y Hy. unfold Chores.is_pending_approval in Hy.
    apply andb_prop in Hy as [Hy _]. apply andb_prop in Hy as [Hy _].
    apply andb_prop in Hy as [Hy _]. now apply Z.eqb_eq.
Qed.

(** The latest submission of the chore by its assignee exists as soon as one
    submission does, and no other is more recent. *)
Lemma latest_submission_spec (t : tables) (c : chore) (assignee : Z) (s0 : chore_submission) :
  assigned_to c = Some assignee ->
  In s0 (chore_submissions t) ->
  s_chore_id s0 = c_id c ->
  s_user_id s0 = assignee ->
  exists s,
    Chores.latest_submission t c = Some s
    /\ In s (chore_submissions t)
    /\ s_chore_id s = c_id c
    /\ s_user_id s = assignee
    /\ forall s', In s' (chore_submissions t) -> s_chore_id s' = c_id c ->
                  s_user_id s' = assignee -> submitted_at s' <= submitted_at s.
Proof.
  intros Hasg Hin Hc Hu. unfold Chores.latest_submission. rewrite Hasg. simpl.
  set (p := fun s => (s_chore_id s =? c_id c) && (assignee =? s_user_id s)).
  assert (Hp : forall x, p x = true <-> s_chore_id x = c_id c /\ s_user_id x = assignee).
  { intros x. unfold p. rewrite andb_true_iff, !Z.eqb_eq. intuition congruence. }
  destruct (latest_nonempty submitted_at (filter p (chore_submissions t))) as [s Hs].
  { intros Hnil. assert (Hf : In s0 (filter p (chore_submissions t))).
    { apply filter_In. split; [assumption|]. now apply Hp. }
    rewrite Hnil in Hf. contradiction. }
  exists s. split; [exact Hs|].
  pose proof (latest_in _ _ _ Hs) as Hs_in. apply filter_In in Hs_in as [Hs_in Hps].
  apply Hp in Hps as [? ?]. repeat split; auto.
  intros s' Hs' Hc' Hu'. apply (latest_max _ _ _ Hs).
  apply filter_In. split; [assumption|]. now apply Hp.
Qed.

(** C1. A parent's approve call on a chore of the family that is pending
    approval, whose assignee has a submission for it, marks the latest such
    submission approved, adds exactly one completed task with
    [reward_earned = current_reward], credits the assignee's earnings (money)
    or screen time (screen_time) by [current_reward] and completes the chore.
    Whichever round trip fails, the answer is 500 and the rows are what they
    were; when none fails the answer is 200 and all four writes are there. *)
Theorem approve_pays_once_atomically :
  forall (now : Z) (caller : user) (w : world) (c : chore) (assignee : Z)
         (u : user) (s0 : chore_submission),
    u_role caller = parent ->
    NoDup (map c_id (chores (rows w))) ->
    In c (chores (rows w)) ->
    c_family_id c = u_family_id caller ->
    status c = pending_approval ->
    assigned_to c = Some assignee ->
    In u (users (rows w)) ->
    u_id u = assignee ->
    In s0 (chore_submissions (rows w)) ->
    s_chore_id s0 = c_id c ->
    s_user_id s0 = assignee ->
    exists s : chore_submission,
      (In s (chore_submissions (rows w))
       /\ s_chore_id s = c_id c
       /\ s_user_id s = assignee
       /\ forall s', In s' (chore_submissions (rows w)) -> s_chore_id s' = c_id c ->
                     s_user_id s' = assignee -> submitted_at s' <= submitted_at s)
      /\ List.length (completed_tasks (approved_rows now caller c assignee s (rows w)))
         = S (List.length (completed_tasks (rows w)))
      /\ ((fst (catchAsync (Chores.approve now caller (c_id c)) w) = 200
           /\ rows (snd (catchAsync (Chores.approve now caller (c_id c)) w))
              = approved_rows now caller c assignee s (rows w))
          \/ (fst (catchAsync (Chores.approve now caller (c_id c)) w) = 500
              /\ rows (snd (catchAsync (Chores.approve now caller (c_id c)) w)) = rows w))
      /\ (fault w = None ->
          fst (catchAsync (Chores.approve now caller (c_id c)) w) = 200
          /\ rows (snd (catchAsync (Chores.approve now caller (c_id c)) w))
             = approved_rows now caller c assignee s (rows w)).
Proof.
  intros now caller w c assignee u s0 Hrole Hnd Hin Hfam Hst Hasg Hu Huid Hs0 Hs0c Hs0u.
  destruct (latest_submission_spec (rows w) c assignee s0 Hasg Hs0 Hs0c Hs0u)
    as (s & Hlatest & Hs_in & Hs_c & Hs_u & Hmax).
  pose proof (approve_lookup (rows w) caller c assignee u Hnd Hin Hfam Hst Hasg Hu Huid) as Hfind.
  exists s. split; [repeat split; auto|].
  split; [simpl; rewrite length_app; simpl; lia|].
  destruct w as [t sq f e]. simpl in *.
  assert (Hcases :
    forall f0,
      let w0 := {| rows := t; seqs := sq; fault := f0; entropy := e |} in
      (f0 = None \/ (exists k, f0 = Some k /\ (8 <= k)%nat) ->
       fst (catchAsync (Chores.approve now caller (c_id c)) w0) = 200
       /\ rows (snd (catchAsync (Chores.approve now caller (c_id c)) w0))
          = approved_rows now caller c assignee s t)
      /\ ((exists k, f0 = Some k /\ (k < 8)%nat) ->
          fst (catchAsync (Chores.approve now caller (c_id c)) w0) = 500
          /\ rows (snd (catchAsync (Chores.approve now caller (c_id c)) w0)) = t)).
  { intros f0 w0. subst w0. unfold Chores.approve. rewrite Hrole. simpl.
    unfold Chores.approve_writes, approved_rows, credited, completed_task_of,
      Chores.update_where.
    split.
    - intros [-> | (k & -> & Hk)].
      + unfold_gateway. simpl. rewrite Hfind. simpl. rewrite Hlatest, Hasg. simpl.
        destruct (c_reward_type c); simpl; split; reflexivity.
      + do 8 (destruct k as [|k]; [lia|]).
        unfold_gateway. simpl. rewrite Hfind. simpl. rewrite Hlatest, Hasg. simpl.
        destruct (c_reward_type c); simpl; split; reflexivity.
    - intros (k & -> & Hk).
      do 8 (destruct k as [|k];
            [unfold_gateway; simpl; rewrite ?Hfind; simpl; rewrite ?Hlatest, ?Hasg; simpl;
             destruct (c_reward_type c); simpl; split; reflexivity|]).
      lia. }
  split.
  - destruct f as [k|].
    + destruct (Nat.lt_ge_cases k 8) as [Hk|Hk].
      * right. apply (Hcases (Some k)). eauto.
      * left. apply (Hcases (Some k)). right. eauto.
    + left. apply (Hcases None). now left.
  - intros ->. apply (Hcases None). now left.
Qed.

Lemma approve_pays_once_atomically_witness :
  exists s : chore_submission,
    (In s (chore_submissions Sample.home)
     /\ s_chore_id s = 10
     /\ s_user_id s = 7
     /\ forall s', In s' (chore_submissions Sample.home) -> s_chore_id s' = 10 ->
                   s_user_id s' = 7 -> submitted_at s' <= submitted_at s)
    /\ List.length (completed_tasks
                      (approved_rows Sample.noon Sample.mum Sample.dishes 7 s Sample.home))
       = 1%nat
    /\ ((fst (catchAsync (Chores.approve Sample.noon Sample.mum 10) (Sample.world_with None)) = 200
         /\ rows (snd (catchAsync (Chores.approve Sample.noon Sample.mum 10) (Sample.world_with None)))
            = approved_rows Sample.noon Sample.mum Sample.dishes 7 s Sample.home)
        \/ (fst (catchAsync (Chores.approve Sample.noon Sample.mum 10) (Sample.world_with None)) = 500
            /\ rows (snd (catchAsync (Chores.approve Sample.noon Sample.mum 10) (Sample.world_with None)))
               = Sample.home))
    /\ (fault (Sample.world_with None) = None ->
        fst (catchAsync (Chores.approve Sample.noon Sample.mum 10) (Sample.world_with None)) = 200
        /\ rows (snd (catchAsync (Chores.approve Sample.noon Sample.mum 10) (Sample.world_with None)))
           = approved_rows Sample.noon Sample.mum Sample.dishes 7 s Sample.home).
Proof.
  apply (approve_pays_once_atomically Sample.noon Sample.mum (Sample.world_with None)
           Sample.dishes 7 Sample.ann Sample.dishes_done); try reflexivity.
  - simpl. repeat constructor; simpl; intuition discriminate.
  - simpl. auto.
  - simpl. auto.
  - simpl. auto.
Defined.

(** ** The first due date of a weekly template *)

Lemma local_day_make_local (tz day ms : Z) :
  0 <= ms < JsDate.MS_PER_DAY ->
  JsDate.local_day tz (JsDate.make_local tz day ms) = day.
Proof.
  intros H. unfold JsDate.local_day, JsDate.make_local, JsDate.MS_PER_DAY in *.
  replace (day * 86400000 + ms - tz + tz) with (ms + day * 86400000) by lia.
  rewrite Z.div_add by lia. rewrite Z.div_small by lia. lia.
Qed.

Lemma time_in_day_make_local (tz day ms : Z) :
  0 <= ms < JsDate.MS_PER_DAY ->
  JsDate.time_in_day tz (JsDate.make_local tz day ms) = ms.
Proof.
  intros H. unfold JsDate.time_in_day, JsDate.make_local, JsDate.MS_PER_DAY in *.
  replace (day * 86400000 + ms - tz + tz) with (ms + day * 86400000) by lia.
  rewrite Z.mod_add by lia. apply Z.mod_small. lia.
Qed.

(** Adding days to 09:00 local time of a day gives 09:00 of the later day. *)
Lemma addDays_setHours (tz t h n : Z) :
  0 <= h < 24 ->
  JsDate.addDays tz (JsDate.setHours tz t h) n
  = JsDate.make_local tz (JsDate.local_day tz t + n) (h * JsDate.MS_PER_HOUR).
Proof.
  intros H. unfold JsDate.addDays, JsDate.setHours.
  assert (0 <= h * JsDate.MS_PER_HOUR < JsDate.MS_PER_DAY)
    by (unfold JsDate.MS_PER_HOUR, JsDate.MS_PER_DAY; lia).
  now rewrite local_day_make_local, time_in_day_make_local.
Qed.

(** The weekly branch with a known day name, for a start instant in the
    past: the days added are those to the next such weekday. *)
Lemma weekly_named_day (tz now : Z) (dow : string) (dom : option Z) (start target : Z) :
  dow <> EmptyString ->
  Js.indexOf String.eqb Recurring.daysOfWeek (Js.toLowerCase dow) = target ->
  target <> -1 ->
  JsDate.setHours tz start 9 < now ->
  Recurring.initial_next_due_date tz now weekly (Some dow) dom start
  = JsDate.make_local tz
      (JsDate.local_day tz start
       + Z.rem (target + 7 - JsDate.weekday_of_day (JsDate.local_day tz start)) 7)
      (9 * JsDate.MS_PER_HOUR).
Proof.
  intros Hne Hidx Htarget Hpast. unfold Recurring.initial_next_due_date.
  apply Z.ltb_lt in Hpast. rewrite Hpast.
  destruct dow as [|c s]; [congruence|].
  rewrite Hidx. apply Z.eqb_neq in Htarget. rewrite Htarget. cbv [negb].
  rewrite addDays_setHours by lia. unfold Js.rem, JsDate.getDay, JsDate.setHours.
  rewrite local_day_make_local; [reflexivity|].
  unfold JsDate.MS_PER_HOUR, JsDate.MS_PER_DAY; lia.
Qed.

(** C6. A weekly template for "monday" whose start date is a Wednesday (the
    date [D], read by [new Date] as midnight UTC) and already past gets as
    next due date 09:00 local time of day [D + 5]: that day is a Monday, no
    day between the start date and it is one, and it is not the start day. *)
Theorem weekly_monday_after_past_wednesday :
  forall (tz now D : Z) (dow : string) (dom : option Z),
    -12 * JsDate.MS_PER_HOUR <= tz <= 14 * JsDate.MS_PER_HOUR ->
    JsDate.weekday_of_day D = 3 ->
    Js.toLowerCase dow = "monday"%string ->
    JsDate.setHours tz (D * JsDate.MS_PER_DAY) 9 < now ->
    let due := Recurring.initial_next_due_date tz now weekly (Some dow) dom
                 (D * JsDate.MS_PER_DAY) in
    due = JsDate.make_local tz (D + 5) (9 * JsDate.MS_PER_HOUR)
    /\ JsDate.local_day tz due = D + 5
    /\ JsDate.time_in_day tz due = 9 * JsDate.MS_PER_HOUR
    /\ JsDate.getDay tz due = 1
    /\ (forall d, D <= d < D + 5 -> JsDate.weekday_of_day d <> 1)
    /\ JsDate.setHours tz (D * JsDate.MS_PER_DAY) 9 < due.
Proof.
  intros tz now D dow dom Htz Hwed Hdow Hpast due.
  assert (H9 : 0 <= 9 * JsDate.MS_PER_HOUR < JsDate.MS_PER_DAY)
    by (unfold JsDate.MS_PER_HOUR, JsDate.MS_PER_DAY; lia).
  assert (Hdue : due = JsDate.make_local tz (D + 5) (9 * JsDate.MS_PER_HOUR)).
  { subst due. rewrite (weekly_named_day tz now dow dom (D * JsDate.MS_PER_DAY) 1).
    - f_equal. unfold JsDate.weekday_of_day, JsDate.local_day, JsDate.MS_PER_DAY,
        JsDate.MS_PER_HOUR in *.
      assert (Hday : (D * 86400000 + tz) / 86400000 = D
                     \/ (D * 86400000 + tz) / 86400000 = D - 1)
        by (Z.div_mod_to_equations; lia).
      destruct Hday as [-> | ->].
      + rewrite Hwed. change (Z.rem (1 + 7 - 3) 7) with 5. reflexivity.
      + replace ((D - 1 + 4) mod 7) with 2 by (Z.div_mod_to_equations; lia).
        change (Z.rem (1 + 7 - 2) 7) with 6. lia.
    - intros ->. discriminate.
    - rewrite Hdow. reflexivity.
    - discriminate.
    - assumption. }
  rewrite Hdue.
  rewrite local_day_make_local, time_in_day_make_local by assumption.
  unfold JsDate.getDay. rewrite local_day_make_local by assumption.
  repeat split; auto.
  - unfold JsDate.weekday_of_day in *. Z.div_mod_to_equations; lia.
  - intros d Hd. unfold JsDate.weekday_of_day in *. Z.div_mod_to_equations; lia.
  - unfold JsDate.setHours, JsDate.make_local, JsDate.local_day,
      JsDate.MS_PER_DAY, JsDate.MS_PER_HOUR in *. Z.div_mod_to_equations; lia.
Qed.

Lemma weekly_monday_after_past_wednesday_witness :
  let due := Recurring.initial_next_due_date 0 Sample.noon weekly (Some "Monday"%string) None
               (19725 * JsDate.MS_PER_DAY) in
  due = JsDate.make_local 0 (19725 + 5) (9 * JsDate.MS_PER_HOUR)
  /\ JsDate.local_day 0 due = 19725 + 5
  /\ JsDate.time_in_day 0 due = 9 * JsDate.MS_PER_HOUR
  /\ JsDate.getDay 0 due = 1
  /\ (forall d, 19725 <= d < 19725 + 5 -> JsDate.weekday_of_day d <> 1)
  /\ JsDate.setHours 0 (19725 * JsDate.MS_PER_DAY) 9 < due.
Proof.
  apply (weekly_monday_after_past_wednesday 0 Sample.noon 19725 "Monday"%string None).
  - vm_compute. split; discriminate.
  - reflexivity.
  - reflexivity.
  - reflexivity.
Defined.

(** ** Round-robin rotation *)

Lemma indexOf_bounds (l : list Z) (x : Z) :
  -1 <= Js.indexOf Z.eqb l x < Js.length l.
Proof.
  unfold Js.length. induction l as [|y l IH]; simpl; [lia|].
  destruct (y =? x); [lia|].
  destruct (Js.indexOf Z.eqb l x <? 0) eqn:E; [lia|].
  apply Z.ltb_ge in E. lia.
Qed.

Lemma indexOf_first (l : list Z) (x : Z) (i : nat) :
  first_index l x i -> Js.indexOf Z.eqb l x = Z.of_nat i.
Proof.
  revert i; induction l as [|y l IH]; intros i [Hnth Hfirst].
  - destruct i; discriminate.
  - simpl. destruct i as [|i].
    + simpl in Hnth. inversion Hnth; subst. now rewrite Z.eqb_refl.
    + destruct (y =? x) eqn:E.
      * apply Z.eqb_eq in E. subst. exfalso. apply (Hfirst 0%nat); [lia | reflexivity].
      * rewrite (IH i).
        -- destruct (Z.of_nat i <? 0) eqn:E'; [apply Z.ltb_lt in E'; lia | lia].
        -- split; [exact Hnth|]. intros j Hj. apply (Hfirst (S j)). lia.
Qed.

Lemma indexOf_absent (l : list Z) (x : Z) :
  ~ In x l -> Js.indexOf Z.eqb l x = -1.
Proof.
  induction l as [|y l IH]; intros Hnot; simpl; [reflexivity|].
  destruct (y =? x) eqn:E.
  - apply Z.eqb_eq in E. subst. exfalso. apply Hnot. now left.
  - rewrite IH by (intros H; apply Hnot; now right). reflexivity.
Qed.

Lemma index_of_nat {A : Type} (l : list A) (k : nat) :
  Js.index l (Z.of_nat k) = nth_error l k.
Proof.
  unfold Js.index. destruct (Z.of_nat k <? 0) eqn:E.
  - apply Z.ltb_lt in E. lia.
  - now rewrite Nat2Z.id.
Qed.

(** The member the round-robin branch picks, by the position of the last
    assignee. *)
Lemma round_robin_next_spec (members : list Z) (h : history_entry) (prev : Z) :
  members <> [] ->
  h_assigned_to h = Some prev ->
  prev <> 0 ->
  (forall i, first_index members prev i ->
     Recurring.round_robin_next members (Some h)
     = nth_error members ((i + 1) mod List.length members))
  /\ (~ In prev members ->
      Recurring.round_robin_next members (Some h) = nth_error members 0).
Proof.
  intros Hne Hprev Hnz. unfold Recurring.round_robin_next, Js.or_null, Js.truthy_opt, Js.truthy.
  rewrite Hprev. apply Z.eqb_neq in Hnz. rewrite Hnz. simpl.
  assert (Hlen : (0 < List.length members)%nat) by (destruct members; [congruence | simpl; lia]).
  split.
  - intros i Hi. rewrite (indexOf_first members prev i Hi).
    unfold Js.rem, Js.length. rewrite Z.rem_mod_nonneg by lia.
    replace (Z.of_nat i + 1) with (Z.of_nat (i + 1)) by lia.
    rewrite <- Nat2Z.inj_mod. apply index_of_nat.
  - intros Habs. rewrite (indexOf_absent members prev Habs).
    unfold Js.rem, Js.length. simpl. rewrite Z.rem_0_l by lia. reflexivity.
Qed.

(** X31. The rotation as the branch computes it once [JSON.parse] has
    returned the member list, which it does when the row holds the list as
    JSON text, no round trip failing.  For an auto-assigned round-robin
    template with a non-empty list it picks: the first member when the
    template has no history row, or when its most recent row (greatest due
    date) has no assignee; for an assignee with a non-zero id, the member at
    [(i + 1) mod length] when that row's assignee is first found at index
    [i], hence the first member again after the last one; and the first
    member when that assignee is not in the list. *)
Theorem round_robin_over_json_text :
  forall (rc : recurring_chore) (members : list Z) (w : world),
    auto_assign rc = true ->
    r_rotation_type rc = round_robin ->
    rotation_members rc = Some (Js.IdText members) ->
    members <> [] ->
    fault w = None ->
    exists assignedTo : option Z,
      Recurring.resolve_assignee rc w = (Ok assignedTo, w)
      /\ match Recurring.lastHistory (rows w) rc with
         | None =>
             (forall h, In h (recurring_chore_history (rows w)) -> h_recurring_id h <> r_id rc)
             /\ assignedTo = nth_error members 0
         | Some h =>
             (In h (recurring_chore_history (rows w))
              /\ h_recurring_id h = r_id rc
              /\ forall h', In h' (recurring_chore_history (rows w)) ->
                            h_recurring_id h' = r_id rc -> h_due_date h' <= h_due_date h)
             /\ match h_assigned_to h with
                | None => assignedTo = nth_error members 0
                | Some prev =>
                    prev <> 0 ->
                    (forall i, first_index members prev i ->
                       assignedTo = nth_error members ((i + 1) mod List.length members))
                    /\ (forall i, first_index members prev i -> S i = List.length members ->
                          assignedTo = nth_error members 0)
                    /\ (~ In prev members -> assignedTo = nth_error members 0)
                end
         end.
Proof.
  intros rc members w Hauto Hrot Hmem Hne Hfault.
  assert (Hlen : (0 <? Js.length members) = true).
  { apply Z.ltb_lt. unfold Js.length. destruct members; [congruence | simpl; lia]. }
  exists (Recurring.round_robin_next members (Recurring.lastHistory (rows w) rc)).
  split.
  - unfold Recurring.resolve_assignee. rewrite Hauto, Hrot, Hmem. simpl. rewrite Hlen.
    unfold select, bind, ret. rewrite (round_trip_no_fault w Hfault). reflexivity.
  - unfold Recurring.lastHistory.
    set (mine := filter (fun h => h_recurring_id h =? r_id rc)
                        (recurring_chore_history (rows w))).
    destruct (latest h_due_date mine) as [h|] eqn:Hlast.
    + split.
      * pose proof (latest_in _ _ _ Hlast) as Hin. apply filter_In in Hin as [Hin Hid].
        apply Z.eqb_eq in Hid. repeat split; auto.
        intros h' Hin' Hid'. apply (latest_max _ _ _ Hlast).
        apply filter_In. split; [assumption | now apply Z.eqb_eq].
      * destruct (h_assigned_to h) as [prev|] eqn:Hprev.
        -- intros Hnz.
           destruct (round_robin_next_spec members h prev Hne Hprev Hnz) as [Hfound Habsent].
           repeat split; auto.
           intros i Hi Hlast_i. rewrite (Hfound i Hi).
           replace (i + 1)%nat with (List.length members) by lia.
           now rewrite Nat.Div0.mod_same.
        -- unfold Recurring.round_robin_next, Js.or_null. rewrite Hprev. simpl.
           reflexivity.
    + split; [|reflexivity].
      intros h Hin Hid. apply latest_none in Hlast.
      assert (Hf : In h mine) by (apply filter_In; split; [assumption | now apply Z.eqb_eq]).
      rewrite Hlast in Hf. contradiction.
Qed.

Lemma round_robin_over_json_text_witness :
  exists assignedTo : option Z,
    Recurring.resolve_assignee (Sample.trash 1)
      (Sample.with_history [Sample.past_run 1000 (Some 7); Sample.past_run 2000 (Some 8)])
    = (Ok assignedTo,
       Sample.with_history [Sample.past_run 1000 (Some 7); Sample.past_run 2000 (Some 8)])
    /\ assignedTo = Some 9.
Proof.
  destruct (round_robin_over_json_text (Sample.trash 1) [7; 8; 9]
              (Sample.with_history [Sample.past_run 1000 (Some 7); Sample.past_run 2000 (Some 8)])
              eq_refl eq_refl eq_refl ltac:(discriminate) eq_refl)
    as (assignedTo & Hrun & Hpick).
  exists assignedTo. split; [exact Hrun|].
  simpl in Hpick. destruct Hpick as (_ & Hpick).
  destruct (Hpick ltac:(discriminate)) as (Hnext & _ & _).
  apply (Hnext 1%nat). split; [reflexivity|].
  intros j Hj. destruct j as [|j]; [discriminate | lia].
Defined.

(** The three cases of the specification over members [A, B, C] = [7, 8, 9]. *)
Example rotation_starts_with_first :
  fst (Recurring.resolve_assignee (Sample.trash 1) (Sample.with_history [])) = Ok (Some 7).
Proof. reflexivity. Qed.

Example rotation_after_second :
  fst (Recurring.resolve_assignee (Sample.trash 1)
         (Sample.with_history [Sample.past_run 1000 (Some 7); Sample.past_run 2000 (Some 8)]))
  = Ok (Some 9).
Proof. reflexivity. Qed.

Example rotation_wraps_after_last :
  fst (Recurring.resolve_assignee (Sample.trash 1)
         (Sample.with_history [Sample.past_run 3000 (Some 9); Sample.past_run 2000 (Some 8)]))
  = Ok (Some 7).
Proof. reflexivity. Qed.

Example rotation_after_stranger :
  fst (Recurring.resolve_assignee (Sample.trash 1)
         (Sample.with_history [Sample.past_run 3000 (Some 42)]))
  = Ok (Some 7).
Proof. reflexivity. Qed.

(** ** Decline *)

Lemma find_none_iff {A : Type} (p : A -> bool) (l : list A) :
  (forall x, In x l -> p x = false) -> find p l = None.
Proof.
  induction l as [|a l IH]; intros H; simpl; [reflexivity|].
  rewrite (H a (or_introl eq_refl)). apply IH. intros x Hx. apply H. now right.
Qed.

Lemma find_some_exists {A : Type} (p : A -> bool) (l : list A) (x : A) :
  In x l -> p x = true -> exists y, find p l = Some y /\ In y l /\ p y = true.
Proof.
  intros Hin Hp. destruct (find p l) as [y|] eqn:E.
  - exists y. apply find_some in E. tauto.
  - exfalso. pose proof (find_none _ _ E x Hin) as H. congruence.
Qed.

(** No row of chore [id] matches a lookup for status [st] once every such row
    was made available and unassigned. *)
Lemma assigned_chore_after_release (l : list chore) (id userId : Z) (st : chore_status) :
  find (fun c => (c_id c =? id) && opt_is (assigned_to c) userId && status_eqb (status c) st)
       (Chores.update_where (fun r => c_id r =? id)
          (fun r => Chores.with_assignment r available None None) l)
  = None.
Proof.
  apply find_none_iff. intros x Hx. unfold Chores.update_where in Hx.
  apply in_map_iff in Hx as (r & <- & _).
  destruct (c_id r =? id) eqn:E; simpl; rewrite E; simpl; [reflexivity|reflexivity].
Qed.

Lemma Forall2_map_r {A B : Type} (R : A -> B -> Prop) (f : A -> B) (l : list A) :
  (forall x, In x l -> R x (f x)) -> Forall2 R l (map f l).
Proof.
  induction l as [|a l IH]; intros H; simpl; constructor.
  - apply H. now left.
  - apply IH. intros x Hx. apply H. now right.
Qed.

(** C8. Decline by the assignee of a chore pending acceptance answers 200.
    Every assignment row of the chore and the user that was pending is now
    declined, with [declined_at] set to now, and every other assignment row
    is as it was; none is added, so nobody else is assigned.  Every row of
    the chore is available with [assigned_to] and [assigned_at] cleared, and
    every other chore is as it was.  The same user's accept on the same id
    then answers 404, its handler writing nothing. *)
Theorem decline_then_accept_not_found :
  forall (now later : Z) (caller : user) (w : world) (c : chore),
    In c (chores (rows w)) ->
    assigned_to c = Some (u_id caller) ->
    status c = pending_acceptance ->
    fault w = None ->
    let declined_ := catchAsync (Chores.decline now caller (c_id c)) w in
    fst declined_ = 200
    /\ chores (rows (snd declined_))
       = map (fun r => if c_id r =? c_id c
                       then Chores.with_assignment r available None None else r)
             (chores (rows w))
    /\ (forall r, In r (chores (rows (snd declined_))) -> c_id r = c_id c ->
          status r = available /\ assigned_to r = None /\ assigned_at r = None)
    /\ chore_assignments (rows (snd declined_))
       = map (fun a => if Chores.is_pending_assignment (c_id c) (u_id caller) a
                       then Chores.set_assignment_status a asg_declined
                              (a_accepted_at a) (Some now)
                       else a)
             (chore_assignments (rows w))
    /\ List.length (chore_assignments (rows (snd declined_)))
       = List.length (chore_assignments (rows w))
    /\ catchAsync (Chores.accept later caller (c_id c)) (snd declined_)
       = (404, snd declined_)
    /\ chores (rows (snd declined_))
       = map (fun r => if c_id r =? c_id c then released r else r) (chores (rows w))
    /\ In (released c) (chores (rows (snd declined_)))
    /\ chore_assignments (rows (snd declined_))
       = map (fun a => if pending_for (c_id c) (u_id caller) a then declined now a else a)
             (chore_assignments (rows w))
    /\ Forall2
         (fun a a' =>
            a_id a' = a_id a /\ a_chore_id a' = a_chore_id a /\ a_user_id a' = a_user_id a
            /\ (a_chore_id a = c_id c -> a_user_id a = u_id caller ->
                a_status a = asg_pending ->
                a_status a' = asg_declined /\ declined_at a' = Some now
                /\ a_accepted_at a' = a_accepted_at a /\ assigned_by a' = assigned_by a
                /\ a_assigned_at a' = a_assigned_at a
                /\ acceptance_deadline a' = acceptance_deadline a)
            /\ (a_chore_id a <> c_id c \/ a_user_id a <> u_id caller
                \/ a_status a <> asg_pending -> a' = a))
         (chore_assignments (rows w)) (chore_assignments (rows (snd declined_)))
    /\ users (rows (snd declined_)) = users (rows w)
    /\ chore_submissions (rows (snd declined_)) = chore_submissions (rows w)
    /\ completed_tasks (rows (snd declined_)) = completed_tasks (rows w).
Proof.
  intros now later caller w c Hin Hasg Hst Hfault declined_.
  assert (Hfound : exists c', Chores.assigned_chore (rows w) (c_id c) (u_id caller)
                                pending_acceptance = Some c' /\ c_id c' = c_id c).
  { unfold Chores.assigned_chore.
    destruct (find_some_exists
                (fun c0 => (c_id c0 =? c_id c) && opt_is (assigned_to c0) (u_id caller)
                           && status_eqb (status c0) pending_acceptance)
                (chores (rows w)) c Hin) as (c' & Hfind & _ & Hp).
    - rewrite Hasg, Hst. simpl. now rewrite !Z.eqb_refl.
    - exists c'. split; [exact Hfind|].
      apply andb_prop in Hp as [Hp _]. apply andb_prop in Hp as [Hp _].
      now apply Z.eqb_eq. }
  destruct Hfound as (c' & Hfind & Hid).
  destruct w as [t sq f e]. simpl in *. subst f.
  assert (Hrun : declined_
    = (200, {| rows := set_chores
                 (set_chore_assignments t
                    (Chores.update_where (Chores.is_pending_assignment (c_id c) (u_id caller))
                       (fun a => Chores.set_assignment_status a asg_declined
                                   (a_accepted_at a) (Some now))
                       (chore_assignments t)))
                 (Chores.update_where (fun r => c_id r =? c_id c)
                    (fun r => Chores.with_assignment r available None None) (chores t));
               seqs := sq; fault := None; entropy := e |})).
  { subst declined_. unfold Chores.decline. unfold_gateway. simpl.
    rewrite Hfind. simpl. rewrite Hid. reflexivity. }
  rewrite Hrun. simpl.
  assert (Hrows : Chores.update_where (fun r => c_id r =? c_id c)
                    (fun r => Chores.with_assignment r available None None) (chores t)
                  = map (fun r => if c_id r =? c_id c then released r else r) (chores t)).
  { reflexivity. }
  assert (Hasgs : Chores.update_where (Chores.is_pending_assignment (c_id c) (u_id caller))
                    (fun a => Chores.set_assignment_status a asg_declined
                                (a_accepted_at a) (Some now))
                    (chore_assignments t)
                  = map (fun a => if pending_for (c_id c) (u_id caller) a
                                  then declined now a else a)
                        (chore_assignments t)).
  { unfold Chores.update_where. apply map_ext. intros a.
    unfold Chores.is_pending_assignment, pending_for.
    destruct (a_status a); reflexivity. }
  split; [reflexivity|]. split; [reflexivity|].
  split.
  { intros r Hr Hrid. unfold Chores.update_where in Hr.
    apply in_map_iff in Hr as (r0 & <- & _).
    destruct (c_id r0 =? c_id c) eqn:E; [repeat split|].
    apply Z.eqb_neq in E. contradiction. }
  split; [reflexivity|]. split; [apply update_where_length|].
  split.
  { unfold Chores.accept. unfold_gateway. simpl.
    unfold Chores.assigned_chore. simpl.
    rewrite assigned_chore_after_release. reflexivity. }
  split; [exact Hrows|].
  split.
  { rewrite Hrows. apply in_map_iff. exists c. split; [now rewrite Z.eqb_refl | exact Hin]. }
  split; [exact Hasgs|].
  split; [|repeat split; reflexivity].
  rewrite Hasgs. apply Forall2_map_r. intros a _.
  unfold pending_for.
  destruct (a_chore_id a =? c_id c) eqn:Ec; simpl.
  - destruct (a_user_id a =? u_id caller) eqn:Eu; simpl.
    + destruct (a_status a) eqn:Es; simpl;
        (split; [reflexivity|]); (split; [reflexivity|]); (split; [reflexivity|]);
        (split; [intros _ _ Hs; try discriminate Hs; repeat split; reflexivity|]);
        intros [H|[H|H]]; try reflexivity;
        apply Z.eqb_eq in Ec; apply Z.eqb_eq in Eu; contradiction.
    + split; [reflexivity|]. split; [reflexivity|]. split; [reflexivity|].
      apply Z.eqb_neq in Eu. split; [intros _ Hu; contradiction | reflexivity].
  - split; [reflexivity|]. split; [reflexivity|]. split; [reflexivity|].
    apply Z.eqb_neq in Ec. split; [intros Hc; contradiction | reflexivity].
Qed.

Lemma decline_then_accept_not_found_witness :
  fst (catchAsync (Chores.decline Sample.noon Sample.bob 11) (Sample.world_with None)) = 200
  /\ catchAsync (Chores.accept (Sample.noon + 1) Sample.bob 11)
       (snd (catchAsync (Chores.decline Sample.noon Sample.bob 11) (Sample.world_with None)))
     = (404, snd (catchAsync (Chores.decline Sample.noon Sample.bob 11) (Sample.world_with None)))
  /\ map (fun a => (a_id a, a_status a, declined_at a))
         (chore_assignments
            (rows (snd (catchAsync (Chores.decline Sample.noon Sample.bob 11)
                          (Sample.world_with None)))))
     = [(1, asg_accepted, None); (2, asg_declined, Some Sample.noon);
        (3, asg_accepted, None)]
  /\ map (fun r => (c_id r, status r, assigned_to r))
         (chores
            (rows (snd (catchAsync (Chores.decline Sample.noon Sample.bob 11)
                          (Sample.world_with None)))))
     = [(10, pending_approval, Some 7); (11, available, None);
        (12, completed, Some 7); (13, available, None)].
Proof.
  pose proof (decline_then_accept_not_found Sample.noon (Sample.noon + 1) Sample.bob
                (Sample.world_with None) Sample.laundry
                ltac:(simpl; auto) eq_refl eq_refl eq_refl) as H.
  destruct H as (Hcode & _ & _ & _ & _ & Haccept & Hchores & _ & Hasgs & _).
  split; [exact Hcode|]. split; [exact Haccept|]. split.
  - etransitivity; [apply f_equal; exact Hasgs | reflexivity].
  - etransitivity; [apply f_equal; exact Hchores | reflexivity].
Defined.

(** ** Delete *)

Lemma status_eqb_eq (a b : chore_status) : status_eqb a b = true <-> a = b.
Proof. destruct a, b; simpl; split; intros H; try reflexivity; discriminate. Qed.

(** C9. A parent's delete of a chore of the family answers 200 and removes
    the chore row when its status is not completed, and answers 400 when it
    is completed, leaving every row, the completed chore and the completed
    tasks among them, in place. *)
Theorem delete_refuses_completed :
  forall (caller : user) (w : world) (c : chore),
    u_role caller = parent ->
    NoDup (map c_id (chores (rows w))) ->
    In c (chores (rows w)) ->
    c_family_id c = u_family_id caller ->
    fault w = None ->
    let answer := catchAsync (Chores.delete caller (c_id c)) w in
    (status c <> completed ->
       fst answer = 200
       /\ rows (snd answer) = Chores.delete_chore (c_id c) (rows w)
       /\ (forall x, In x (chores (rows (snd answer))) -> c_id x <> c_id c)
       /\ users (rows (snd answer)) = users (rows w))
    /\ (status c = completed ->
          fst answer = 400
          /\ snd answer = w
          /\ In c (chores (rows (snd answer)))
          /\ completed_tasks (rows (snd answer)) = completed_tasks (rows w)).
Proof.
  intros caller w c Hrole Hnd Hin Hfam Hfault answer.
  assert (Hfind : find (fun c0 => (c_id c0 =? c_id c) && (c_family_id c0 =? u_family_id caller))
                       (chores (rows w)) = Some c).
  { apply (find_unique c_id); auto.
    - now rewrite Hfam, !Z.eqb_refl.
    - intros y Hy. apply andb_prop in Hy as [Hy _]. now apply Z.eqb_eq. }
  destruct w as [t sq f e]. simpl in *. subst f.
  subst answer. unfold Chores.delete. rewrite Hrole. unfold_gateway. simpl.
  rewrite Hfind. split.
  - intros Hst. destruct (status_eqb (status c) completed) eqn:E.
    + apply status_eqb_eq in E. contradiction.
    + simpl. repeat split.
      intros x Hx. apply filter_In in Hx as [_ Hx].
      intros Heq. rewrite Heq, Z.eqb_refl in Hx. discriminate.
  - intros Hst. rewrite Hst. simpl. repeat split. assumption.
Qed.

Lemma delete_refuses_completed_witness :
  (status Sample.lawn <> completed ->
     fst (catchAsync (Chores.delete Sample.mum 12) (Sample.world_with None)) = 200
     /\ rows (snd (catchAsync (Chores.delete Sample.mum 12) (Sample.world_with None)))
        = Chores.delete_chore 12 Sample.home
     /\ (forall x, In x (chores (rows (snd (catchAsync (Chores.delete Sample.mum 12)
                                              (Sample.world_with None))))) ->
                   c_id x <> 12)
     /\ users (rows (snd (catchAsync (Chores.delete Sample.mum 12) (Sample.world_with None))))
        = users Sample.home)
  /\ (status Sample.lawn = completed ->
        fst (catchAsync (Chores.delete Sample.mum 12) (Sample.world_with None)) = 400
        /\ snd (catchAsync (Chores.delete Sample.mum 12) (Sample.world_with None))
           = Sample.world_with None
        /\ In Sample.lawn
             (chores (rows (snd (catchAsync (Chores.delete Sample.mum 12)
                                    (Sample.world_with None)))))
        /\ completed_tasks (rows (snd (catchAsync (Chores.delete Sample.mum 12)
                                         (Sample.world_with None))))
           = completed_tasks Sample.home).
Proof.
  apply (delete_refuses_completed Sample.mum (Sample.world_with None) Sample.lawn);
    try reflexivity.
  - simpl. repeat constructor; simpl; intuition discriminate.
  - simpl. auto.
Defined.

Example delete_available_chore :
  fst (catchAsync (Chores.delete Sample.mum 13) (Sample.world_with None)) = 200
  /\ map c_id (chores (rows (snd (catchAsync (Chores.delete Sample.mum 13)
                                    (Sample.world_with None)))))
     = [10; 11; 12].
Proof. split; reflexivity. Qed.

(** ** Login lockout *)

Lemma updated_rows {A : Type} (p : A -> bool) (f : A -> A) (l : list A) (x : A) :
  In x (Chores.update_where p f l) ->
  exists r, In r l /\ x = (if p r then f r else r).
Proof.
  unfold Chores.update_where. intros H. apply in_map_iff in H as (r & <- & Hr). eauto.
Qed.

Lemma filter_head {A : Type} (p : A -> bool) (l : list A) (x : A) :
  In x l ->
  p x = true ->
  (forall y, In y l -> p y = true -> y = x) ->
  exists rest, filter p l = x :: rest.
Proof.
  induction l as [|a l IH]; intros Hin Hp Huniq; [contradiction|].
  simpl. destruct (p a) eqn:Hpa.
  - rewrite (Huniq a (or_introl eq_refl) Hpa). eauto.
  - destruct Hin as [->|Hin]; [congruence|].
    apply IH; auto. intros y Hy. apply Huniq. now right.
Qed.

(** The lookup of the login finds the user: the active row with that e-mail
    in the family with that code, both compared under the collation. *)
Lemma login_lookup (same_text : string -> string -> bool) (t : tables)
  (familyCode email : string) (u : user) (f : family) :
  In u (users t) ->
  u_is_active u = true ->
  same_text (u_email u) email = true ->
  In f (families t) ->
  f_id f = u_family_id u ->
  same_text (family_code f) familyCode = true ->
  (forall x g, In x (users t) -> u_is_active x = true ->
     same_text (u_email x) email = true ->
     In g (families t) -> f_id g = u_family_id x ->
     same_text (family_code g) familyCode = true -> x = u) ->
  exists rest, Auth.find_users same_text t familyCode email = u :: rest.
Proof.
  intros Hu Hact Hmail Hf Hfid Hcode Huniq. unfold Auth.find_users.
  apply filter_head; [exact Hu | |].
  - rewrite Hact, Hmail, !andb_true_r. apply existsb_exists. exists f.
    split; [exact Hf|]. now rewrite Hfid, Z.eqb_refl, Hcode.
  - intros x Hx Hp. apply andb_prop in Hp as [Hp Hxact].
    apply andb_prop in Hp as [Hfam Hxmail].
    apply existsb_exists in Hfam as (g & Hg & Hmatch).
    apply andb_prop in Hmatch as [Hgid Hgcode]. apply Z.eqb_eq in Hgid.
    exact (Huniq x g Hx Hxact Hxmail Hg Hgid Hgcode).
Qed.

(** C10. A login on an existing active user — the one row that is active,
    has the e-mail and is in the family with the code — no round trip
    failing.  While the lockout expiry is in the future the answer is 423
    whatever the password, and nothing is written.  Otherwise a wrong
    password answers 401, sets the counter of that user's row to one more
    than it was and, when that is 5 or more, the expiry to 15 minutes from
    now (no expiry below 5); a right password answers 200, sets the counter
    to 0, clears the expiry and stamps the last login.  No other row and no
    other column changes. *)
Theorem login_lockout :
  forall (same_text bcrypt_compare : string -> string -> bool) (now : Z)
         (familyCode email password : string) (w : world) (u : user) (f : family),
    In u (users (rows w)) ->
    u_is_active u = true ->
    same_text (u_email u) email = true ->
    In f (families (rows w)) ->
    f_id f = u_family_id u ->
    same_text (family_code f) familyCode = true ->
    (forall x g, In x (users (rows w)) -> u_is_active x = true ->
       same_text (u_email x) email = true ->
       In g (families (rows w)) -> f_id g = u_family_id x ->
       same_text (family_code g) familyCode = true -> x = u) ->
    fault w = None ->
    let answer :=
      catchAsync (Auth.login same_text bcrypt_compare now familyCode email password) w in
    (forall expiry, locked_until u = Some expiry -> now < expiry ->
       fst answer = 423 /\ snd answer = w)
    /\ (locked_until u = None \/ (exists expiry, locked_until u = Some expiry /\ expiry <= now) ->
        bcrypt_compare password (password_hash u) = false ->
        fst answer = 401
        /\ rows (snd answer) = after_mismatch now u (rows w)
        /\ (exists x, In x (users (rows (snd answer)))
                      /\ u_id x = u_id u
                      /\ login_attempts x = login_attempts u + 1
                      /\ (5 <= login_attempts u + 1 ->
                          locked_until x = Some (now + 15 * 60 * 1000))
                      /\ (login_attempts u + 1 < 5 -> locked_until x = None)
                      /\ last_login x = last_login u)
        /\ (forall x, In x (users (rows (snd answer))) -> u_id x = u_id u ->
              login_attempts x = login_attempts u + 1
              /\ (5 <= login_attempts u + 1 -> locked_until x = Some (now + 15 * 60 * 1000))
              /\ (login_attempts u + 1 < 5 -> locked_until x = None))
        /\ (forall x, In x (users (rows w)) -> u_id x <> u_id u ->
              In x (users (rows (snd answer)))))
    /\ (locked_until u = None \/ (exists expiry, locked_until u = Some expiry /\ expiry <= now) ->
        bcrypt_compare password (password_hash u) = true ->
        fst answer = 200
        /\ rows (snd answer) = after_login now u (rows w)
        /\ (exists x, In x (users (rows (snd answer)))
                      /\ u_id x = u_id u
                      /\ login_attempts x = 0
                      /\ locked_until x = None
                      /\ last_login x = Some now)
        /\ (forall x, In x (users (rows (snd answer))) -> u_id x = u_id u ->
              login_attempts x = 0 /\ locked_until x = None)
        /\ (forall x, In x (users (rows w)) -> u_id x <> u_id u ->
              In x (users (rows (snd answer))))).
Proof.
  intros same_text bcrypt_compare now familyCode email password w u f
         Hu Hact Hmail Hf Hfid Hcode Huniq Hfault answer.
  destruct (login_lookup same_text (rows w) familyCode email u f
              Hu Hact Hmail Hf Hfid Hcode Huniq) as (others & Hfound).
  assert (Hfree : locked_until u = None
                  \/ (exists expiry, locked_until u = Some expiry /\ expiry <= now) ->
                  Auth.is_locked now u = false).
  { unfold Auth.is_locked. intros [-> | (expiry & -> & Hle)]; [reflexivity|].
    now apply Z.ltb_ge. }
  destruct w as [t sq fl e]. simpl in *. subst fl.
  subst answer. unfold Auth.login. unfold_gateway. simpl. rewrite Hfound.
  split; [|split].
  - intros expiry Hlock Hlt. unfold Auth.is_locked. rewrite Hlock.
    apply Z.ltb_lt in Hlt. rewrite Hlt. split; reflexivity.
  - intros Hopen Hwrong. rewrite (Hfree Hopen), Hwrong. simpl.
    split; [reflexivity|]. split; [reflexivity|]. split; [|split].
    + exists (login_state u (login_attempts u + 1)
                (if 5 <=? login_attempts u + 1 then Some (now + 900000) else None)
                (last_login u)).
      split.
      * apply in_map_iff. exists u. split; [now rewrite Z.eqb_refl | exact Hu].
      * simpl. split; [reflexivity|]. split; [reflexivity|]. split; [|split].
        -- intros H. apply Z.leb_le in H. now rewrite H.
        -- intros H. apply Z.leb_gt in H. now rewrite H.
        -- reflexivity.
    + intros x Hx Hid. apply updated_rows in Hx as (r & _ & ->).
      destruct (u_id r =? u_id u) eqn:E.
      * simpl. split; [reflexivity|]. split; intros H.
        -- apply Z.leb_le in H. rewrite H. reflexivity.
        -- apply Z.leb_gt in H. rewrite H. reflexivity.
      * apply Z.eqb_neq in E. contradiction.
    + intros x Hx Hne. apply in_map_iff. exists x. split; [|exact Hx].
      apply Z.eqb_neq in Hne. now rewrite Hne.
  - intros Hopen Hright. rewrite (Hfree Hopen), Hright. simpl.
    split; [reflexivity|]. split; [reflexivity|]. split; [|split].
    + exists (login_state u 0 None (Some now)). split.
      * apply in_map_iff. exists u. split; [now rewrite Z.eqb_refl | exact Hu].
      * simpl. repeat split; reflexivity.
    + intros x Hx Hid. apply updated_rows in Hx as (r & _ & ->).
      destruct (u_id r =? u_id u) eqn:E.
      * simpl. split; reflexivity.
      * apply Z.eqb_neq in E. contradiction.
    + intros x Hx Hne. apply in_map_iff. exists x. split; [|exact Hx].
      apply Z.eqb_neq in Hne. now rewrite Hne.
Qed.

(** The hypotheses of the lockout theorem on the sample family, for Ann with
    [n] failed attempts and lock [lock]. *)
Lemma ann_signs_in (n : Z) (lock : option Z) :
  forall x g,
    In x (users (rows (Scenes.tried n lock))) -> u_is_active x = true ->
    Scenes.ignoring_case (u_email x) "ann@example.org" = true ->
    In g (families (rows (Scenes.tried n lock))) -> f_id g = u_family_id x ->
    Scenes.ignoring_case (family_code g) "smith1" = true ->
    x = login_state Sample.ann n lock None.
Proof.
  intros x g Hx _ Hmail _ _ _. simpl in Hx.
  destruct Hx as [<-|[<-|[<-|[<-|[]]]]]; try reflexivity;
    vm_compute in Hmail; discriminate Hmail.
Qed.

Lemma login_lockout_witness :
  (* a fifth wrong password locks the account for fifteen minutes *)
  (let answer := catchAsync (Auth.login Scenes.ignoring_case Scenes.checks Sample.noon
                               "smith1" "ann@example.org" "letmein1")
                   (Scenes.tried 4 None) in
   fst answer = 401
   /\ map (fun x => (u_id x, login_attempts x, locked_until x)) (users (rows (snd answer)))
      = [(1, 0, None); (7, 5, Some (Sample.noon + 900000)); (8, 0, None); (9, 0, None)])
  (* a first wrong password does not *)
  /\ (let answer := catchAsync (Auth.login Scenes.ignoring_case Scenes.checks Sample.noon
                                  "smith1" "ann@example.org" "letmein1")
                      (Scenes.tried 0 None) in
      fst answer = 401
      /\ map (fun x => (u_id x, login_attempts x, locked_until x)) (users (rows (snd answer)))
         = [(1, 0, None); (7, 1, None); (8, 0, None); (9, 0, None)])
  (* while the lock lasts the right password is refused, nothing written *)
  /\ catchAsync (Auth.login Scenes.ignoring_case Scenes.checks (Sample.noon + 899999)
                   "smith1" "ann@example.org" "correct horse")
       (Scenes.tried 5 (Some (Sample.noon + 900000)))
     = (423, Scenes.tried 5 (Some (Sample.noon + 900000)))
  (* once it is over the right password resets the counter and the lock *)
  /\ (let answer := catchAsync (Auth.login Scenes.ignoring_case Scenes.checks
                                  (Sample.noon + 900000)
                                  "smith1" "ann@example.org" "correct horse")
                      (Scenes.tried 5 (Some (Sample.noon + 900000))) in
      fst answer = 200
      /\ map (fun x => (u_id x, login_attempts x, locked_until x, last_login x))
             (users (rows (snd answer)))
         = [(1, 0, None, None); (7, 0, None, Some (Sample.noon + 900000));
            (8, 0, None, None); (9, 0, None, None)]).
Proof.
  assert (Hall : forall n lock now password,
            let w := Scenes.tried n lock in
            let u := login_state Sample.ann n lock None in
            let answer := catchAsync (Auth.login Scenes.ignoring_case Scenes.checks now
                                        "smith1" "ann@example.org" password) w in
            (forall expiry, locked_until u = Some expiry -> now < expiry ->
               fst answer = 423 /\ snd answer = w)
            /\ (locked_until u = None
                \/ (exists expiry, locked_until u = Some expiry /\ expiry <= now) ->
                Scenes.checks password (password_hash u) = false ->
                fst answer = 401 /\ rows (snd answer) = after_mismatch now u (rows w))
            /\ (locked_until u = None
                \/ (exists expiry, locked_until u = Some expiry /\ expiry <= now) ->
                Scenes.checks password (password_hash u) = true ->
                fst answer = 200 /\ rows (snd answer) = after_login now u (rows w))).
  { intros n lock now password w u answer.
    destruct (login_lockout Scenes.ignoring_case Scenes.checks now
                "smith1" "ann@example.org" password (Scenes.tried n lock)
                (login_state Sample.ann n lock None) Sample.smiths
                ltac:(simpl; auto) eq_refl eq_refl ltac:(simpl; auto) eq_refl eq_refl
                (ann_signs_in n lock) eq_refl) as (Hlocked & Hwrong & Hright).
    split; [exact Hlocked|]. split.
    - intros Hopen Hpw. destruct (Hwrong Hopen Hpw) as (Hcode & Hrows & _).
      split; assumption.
    - intros Hopen Hpw. destruct (Hright Hopen Hpw) as (Hcode & Hrows & _).
      split; assumption. }
  split; [|split; [|split]].
  - destruct (Hall 4 None Sample.noon "letmein1"%string) as (_ & Hwrong & _).
    destruct (Hwrong (or_introl eq_refl) eq_refl) as (Hcode & Hrows).
    cbv zeta. split; [exact Hcode|].
    etransitivity; [apply f_equal, f_equal; exact Hrows | reflexivity].
  - destruct (Hall 0 None Sample.noon "letmein1"%string) as (_ & Hwrong & _).
    destruct (Hwrong (or_introl eq_refl) eq_refl) as (Hcode & Hrows).
    cbv zeta. split; [exact Hcode|].
    etransitivity; [apply f_equal, f_equal; exact Hrows | reflexivity].
  - destruct (Hall 5 (Some (Sample.noon + 900000)) (Sample.noon + 899999)
                "correct horse"%string) as (Hlocked & _ & _).
    destruct (Hlocked (Sample.noon + 900000) eq_refl ltac:(lia)) as (Hcode & Hsame).
    apply injective_projections; assumption.
  - destruct (Hall 5 (Some (Sample.noon + 900000)) (Sample.noon + 900000)
                "correct horse"%string) as (_ & _ & Hright).
    destruct (Hright (or_intror (ex_intro _ (Sample.noon + 900000)
                                   (conj eq_refl (Z.le_refl _)))) eq_refl)
      as (Hcode & Hrows).
    cbv zeta. split; [exact Hcode|].
    etransitivity; [apply f_equal, f_equal; exact Hrows | reflexivity].
Defined.

(** ** Generation *)

Lemma filter_unique {A : Type} (key : A -> Z) (p : A -> bool) (l : list A) (x : A) :
  NoDup (map key l) ->
  In x l ->
  p x = true ->
  (forall y, p y = true -> key y = key x) ->
  filter p l = [x].
Proof.
  induction l as [|a l IH]; intros Hnd Hin Hp Hkey; [contradiction|].
  simpl in *. inversion Hnd as [|k ks Hnotin Hnd']; subst.
  assert (Hrest : forall l0, ~ In (key x) (map key l0) -> filter p l0 = []).
  { induction l0 as [|b l0 IH0]; intros Hn; simpl in *; [reflexivity|].
    destruct (p b) eqn:Hpb.
    - exfalso. apply Hn. left. now apply Hkey.
    - apply IH0. intros H. apply Hn. now right. }
  destruct Hin as [->|Hin].
  - rewrite Hp. f_equal. now apply Hrest.
  - destruct (p a) eqn:Hpa.
    + exfalso. apply Hnotin. rewrite (Hkey a Hpa). now apply in_map.
    + now apply IH.
Qed.

Lemma index_in {A : Type} (l : list A) (i : Z) (x : A) :
  Js.index l i = Some x -> In x l.
Proof.
  unfold Js.index. destruct (i <? 0); [discriminate|]. apply nth_error_In.
Qed.

(** Without a fault, and with a member list that [JSON.parse] reads, the
    assignee is resolved, and is one of the template's candidates or nobody;
    the rows and counters are not touched. *)
Lemma resolve_assignee_no_fault (rc : recurring_chore) (w : world) :
  fault w = None ->
  members_readable rc ->
  exists a w',
    Recurring.resolve_assignee rc w = (Ok a, w')
    /\ rows w' = rows w /\ seqs w' = seqs w /\ fault w' = None
    /\ (a = None \/ exists x, a = Some x /\ In x (candidates rc)).
Proof.
  intros Hfault Hread. unfold Recurring.resolve_assignee, candidates.
  destruct (auto_assign rc) eqn:Hauto; [|exists None, w; unfold ret; auto 6].
  assert (Htext : r_rotation_type rc = none
                  \/ forall ids, rotation_members rc <> Some (Js.IdArray ids)).
  { destruct Hread as [H|[H|H]]; [congruence | now left | now right]. }
  clear Hread.
  destruct (r_rotation_type rc) eqn:Hrot.
  - destruct (r_assigned_to rc) as [a|] eqn:Ha; simpl.
    + destruct (Js.truthy a).
      * exists (Some a), w. unfold ret. repeat split; auto. right. exists a. simpl. auto.
      * exists None, w. unfold ret. auto 6.
    + exists None, w. unfold ret. auto 6.
  - destruct Htext as [Htext|Htext]; [discriminate|].
    destruct (rotation_members rc) as [[members|members]|];
      [exfalso; exact (Htext members eq_refl) | | exists None, w; unfold ret; auto 6].
    simpl.
    destruct (0 <? Js.length members); [|exists None, w; unfold ret; auto 6].
    exists (Recurring.round_robin_next members (Recurring.lastHistory (rows w) rc)), w.
    unfold select, bind, ret. rewrite (round_trip_no_fault w Hfault).
    repeat split; auto.
    destruct (Recurring.round_robin_next members (Recurring.lastHistory (rows w) rc))
      as [x|] eqn:Hx; [right|now left].
    exists x. split; [reflexivity|]. apply in_or_app. right.
    unfold Recurring.round_robin_next in Hx.
    destruct (Recurring.lastHistory (rows w) rc) as [h|];
      [destruct (Js.or_null (h_assigned_to h))|]; eapply index_in; exact Hx.
  - destruct Htext as [Htext|Htext]; [discriminate|].
    destruct (rotation_members rc) as [[members|members]|];
      [exfalso; exact (Htext members eq_refl) | | exists None, w; unfold ret; auto 6].
    simpl.
    destruct (0 <? Js.length members); [|exists None, w; unfold ret; auto 6].
    unfold bind, random_index, ret.
    destruct (entropy w) as [|r e] eqn:He.
    + exists (Js.index members 0), w. repeat split; auto.
      destruct (Js.index members 0) as [x|] eqn:Hx; [right|now left].
      exists x. split; [reflexivity|]. apply in_or_app. right. eapply index_in; exact Hx.
    + exists (Js.index members (r * Js.length members / RANDOM_SCALE)), (set_entropy w e).
      repeat split; auto.
      destruct (Js.index members (r * Js.length members / RANDOM_SCALE)) as [x|] eqn:Hx;
        [right|now left].
      exists x. split; [reflexivity|]. apply in_or_app. right. eapply index_in; exact Hx.
Qed.

(** The guard: a template whose due day already has a history row is
    skipped, by the route and by the scheduler, and nothing is written. *)
Lemma generation_guard (tz now : Z) (caller : user) (rc : recurring_chore) (w : world)
  (h : history_entry) :
  Recurring.existingHistory (rows w) rc = Some h ->
  fault w = None ->
  Recurring.generate_one tz now caller rc w = (Ok None, w)
  /\ Recurring.scheduled_one tz now rc w = (Ok None, w).
Proof.
  intros Hex Hfault. unfold Recurring.generate_one, Recurring.scheduled_one.
  unfold select, bind, ret. rewrite (round_trip_no_fault w Hfault), Hex. split; reflexivity.
Qed.

(** Without a fault, and with the assignee an existing user, the writes of
    one generation go through: one chore and one history row are appended. *)
Lemma materialize_no_fault (tz now creator : Z) (rc : recurring_chore) (a : option Z)
  (w : world) :
  fault w = None ->
  user_exists (rows w) a = true ->
  exists c w',
    Recurring.materialize tz now creator rc a w = (Ok (c_id c), w')
    /\ fault w' = None
    /\ chores (rows w') = chores (rows w) ++ [c]
    /\ due_date c = Some (next_due_date rc)
    /\ recurring_chore_history (rows w')
       = recurring_chore_history (rows w)
         ++ [ {| h_recurring_id := r_id rc; h_chore_id := c_id c;
                 h_due_date := next_due_date rc; h_status := generated;
                 h_assigned_to := a |} ].
Proof.
  intros Hfault Hfk. destruct w as [t sq f e]. simpl in *. subst f.
  unfold Recurring.materialize. unfold_gateway. simpl. rewrite Hfk.
  exists (Recurring.generated_chore now creator rc a (seq_chore sq)).
  destruct a as [x|]; [destruct (Js.truthy x) eqn:Hx|];
    unfold Js.or_null, Js.truthy_opt; rewrite ?Hx; simpl;
    eexists; (split; [reflexivity|]); simpl; repeat split; reflexivity.
Qed.

(** ** Failures during generation *)

(** A turn that throws ends the loop: the templates after it are not visited. *)
Lemma generation_loop_throw (turn : recurring_chore -> M (option Z))
  (before after : list recurring_chore) (rc : recurring_chore)
  (w w1 w2 : world) (ids : list Z) (e : Z) :
  Recurring.generation_loop turn before w = (Ok ids, w1) ->
  turn rc w1 = (Throw e, w2) ->
  Recurring.generation_loop turn (before ++ rc :: after) w = (Throw e, w2).
Proof.
  revert w ids. induction before as [|x before IH]; intros w ids Hbefore Hturn; simpl in *.
  - unfold ret in Hbefore. inversion Hbefore; subst. unfold bind. now rewrite Hturn.
  - unfold bind in *. destruct (turn x w) as [[g|e'] wx]; [|discriminate].
    destruct (Recurring.generation_loop turn before wx) as [[ids'|e'] wy] eqn:Hrest;
      [|discriminate].
    inversion Hbefore; subst. now rewrite (IH wx ids' Hrest Hturn).
Qed.

(** C5, as the code has it.  When the turn of one due template throws, the
    scheduler's generation ends there: the error is rethrown to the cron job,
    the store is left as it was at the failure, and the turns of the templates
    after it are not run.  The loop of the route ends the same way. *)
Theorem generation_stops_at_first_failure :
  forall (tz now : Z) (before after : list recurring_chore) (rc : recurring_chore)
         (w w0 w1 w2 : world) (ids : list Z) (e : Z),
    select (fun t => filter (Recurring.is_due tz now) (recurring_chores t)) w
    = (Ok (before ++ rc :: after), w0) ->
    Recurring.generation_loop (Recurring.scheduled_one tz now) before w0 = (Ok ids, w1) ->
    Recurring.scheduled_one tz now rc w1 = (Throw e, w2) ->
    Recurring.generateRecurringChores tz now w = (Throw e, w2)
    /\ Recurring.cron_job tz now w = w2
    /\ forall (caller : user) (v v1 v2 : world) (ids' : list Z) (e' : Z),
         Recurring.generation_loop (Recurring.generate_one tz now caller) before v
         = (Ok ids', v1) ->
         Recurring.generate_one tz now caller rc v1 = (Throw e', v2) ->
         Recurring.generation_loop (Recurring.generate_one tz now caller)
           (before ++ rc :: after) v
         = (Throw e', v2).
Proof.
  intros tz now before after rc w w0 w1 w2 ids e Hselect Hbefore Hturn.
  assert (Hrun : Recurring.generateRecurringChores tz now w = (Throw e, w2)).
  { unfold Recurring.generateRecurringChores. unfold bind at 1. rewrite Hselect.
    destruct (before ++ rc :: after) eqn:Hlist; [destruct before; discriminate|].
    rewrite <- Hlist. unfold bind.
    now rewrite (generation_loop_throw _ before after rc w0 w1 w2 ids e Hbefore Hturn). }
  split; [exact Hrun|]. split.
  - unfold Recurring.cron_job. now rewrite Hrun.
  - intros caller v v1 v2 ids' e' Hb Ht.
    exact (generation_loop_throw _ before after rc v v1 v2 ids' e' Hb Ht).
Qed.

Lemma generation_stops_at_first_failure_witness :
  Recurring.generateRecurringChores 0 Sample.noon (Sample.world_with (Some 3%nat))
  = (Throw 500, Sample.world_with None)
  /\ Recurring.cron_job 0 Sample.noon (Sample.world_with (Some 3%nat)) = Sample.world_with None.
Proof.
  destruct (generation_stops_at_first_failure 0 Sample.noon [] [Sample.trash 2] (Sample.trash 1)
              (Sample.world_with (Some 3%nat)) (Sample.world_with (Some 2%nat))
              (Sample.world_with (Some 2%nat)) (Sample.world_with None) [] 500
              eq_refl eq_refl eq_refl) as (Hrun & Hcron & _).
  split; assumption.
Defined.

(** C5 as stated fails: with two due templates, a failure in the turn of the
    first leaves the second without chore and without history row, though it
    is due and gets both when nothing fails. *)
Lemma generation_does_not_continue_after_failure :
  let failing := Recurring.generateRecurringChores 0 Sample.noon (Sample.world_with (Some 3%nat)) in
  let clean := Recurring.generateRecurringChores 0 Sample.noon (Sample.world_with None) in
  filter (Recurring.is_due 0 Sample.noon) (recurring_chores Sample.home)
  = [Sample.trash 1; Sample.trash 2]
  /\ fst failing = Throw 500
  /\ ~ (exists h, In h (recurring_chore_history (rows (snd failing))) /\ h_recurring_id h = 2)
  /\ chores (rows (snd failing)) = chores Sample.home
  /\ fst clean = Ok 2
  /\ map h_recurring_id (recurring_chore_history (rows (snd clean))) = [1; 2]
  /\ fst (Recurring.generate 0 Sample.noon Sample.mum None (Sample.world_with (Some 3%nat)))
     = Throw 500
  /\ recurring_chore_history
       (rows (snd (Recurring.generate 0 Sample.noon Sample.mum None
                     (Sample.world_with (Some 3%nat))))) = [].
Proof.
  cbv zeta. repeat split; try reflexivity.
  intros (h & Hin & _). exact Hin.
Qed.

(** ** Generation is not transactional *)

(** C4 at the failing input: the history insert of a generation fails (the
    sixth round trip of the request).  The chore and its assignment stay in
    the store although the history row is missing and the template's due date
    was not advanced; the next call generates the same due date again.  The
    scheduler leaves the same partial writes. *)
Theorem generation_failure_leaves_partial_writes :
  let failed := Recurring.generate 0 Sample.noon Sample.mum (Some 1)
                  (Sample.world_with (Some 5%nat)) in
  let again := Recurring.generate 0 Sample.noon Sample.mum (Some 1) (snd failed) in
  fst failed = Throw 500
  /\ map c_id (chores (rows (snd failed))) = [10; 11; 12; 13; 14]
  /\ map a_chore_id (chore_assignments (rows (snd failed))) = [10; 11; 12; 14]
  /\ recurring_chore_history (rows (snd failed)) = []
  /\ recurring_chores (rows (snd failed)) = recurring_chores Sample.home
  /\ fst again = Ok (200, 1)
  /\ map (fun c => (c_id c, due_date c))
         (filter (fun c => 14 <=? c_id c) (chores (rows (snd again))))
     = [(14, Some Sample.wed_10_jan_9am); (15, Some Sample.wed_10_jan_9am)]
  /\ map c_id (chores (rows (Recurring.cron_job 0 Sample.noon (Sample.world_with (Some 5%nat)))))
     = [10; 11; 12; 13; 14]
  /\ recurring_chore_history
       (rows (Recurring.cron_job 0 Sample.noon (Sample.world_with (Some 5%nat)))) = [].
Proof. cbv zeta. repeat split; reflexivity. Qed.

(** ** The status and assignee invariant *)

Import Api.

Lemma inv_rows_mono (t : tables) (s s' : Z) :
  inv_rows t s -> s <= s' -> inv_rows t s'.
Proof.
  intros ((Hu & Hnd & Hlt) & Hc) Hle. repeat split; auto.
  eapply Forall_impl; [|exact Hlt]. simpl. intros c Hc'. lia.
Qed.

Lemma inv_rows_frame (t t' : tables) (s : Z) :
  users t' = users t -> chores t' = chores t -> inv_rows t s -> inv_rows t' s.
Proof. unfold inv_rows, well_keyed. intros -> ->. auto. Qed.

Lemma update_where_keys {A : Type} (key : A -> Z) (p : A -> bool) (f : A -> A) (l : list A) :
  (forall r, In r l -> p r = true -> key (f r) = key r) ->
  map key (Chores.update_where p f l) = map key l.
Proof.
  unfold Chores.update_where. intros H. rewrite map_map. apply map_ext_in.
  intros r Hr. destruct (p r) eqn:E; [now apply H | reflexivity].
Qed.

Lemma update_where_Forall {A : Type} (Q : A -> Prop) (p : A -> bool) (f : A -> A) (l : list A) :
  Forall Q l ->
  (forall r, In r l -> p r = true -> Q (f r)) ->
  Forall Q (Chores.update_where p f l).
Proof.
  unfold Chores.update_where. intros HQ Hf. apply Forall_forall. intros x Hx.
  apply in_map_iff in Hx as (r & <- & Hr). rewrite Forall_forall in HQ.
  destruct (p r) eqn:E; auto.
Qed.

(** UPDATE chores: the rows hit stay consistent and keep their id. *)
Lemma inv_rows_update (t t' : tables) (s : Z) (p : chore -> bool) (f : chore -> chore) :
  inv_rows t s ->
  users t' = users t ->
  chores t' = Chores.update_where p f (chores t) ->
  (forall r, In r (chores t) -> p r = true -> consistent (f r) /\ c_id (f r) = c_id r) ->
  inv_rows t' s.
Proof.
  intros ((Hu & Hnd & Hlt) & Hc) Husers Hchores Hf.
  unfold inv_rows, well_keyed. rewrite Husers, Hchores.
  rewrite (update_where_keys c_id) by (intros r Hr Hp; apply (Hf r Hr Hp)).
  repeat split; auto.
  - apply update_where_Forall; [assumption|].
    intros r Hr Hp. rewrite (proj2 (Hf r Hr Hp)).
    rewrite Forall_forall in Hlt. now apply Hlt.
  - apply update_where_Forall; [assumption|]. intros r Hr Hp. apply (Hf r Hr Hp).
Qed.

(** INSERT INTO chores with the next id. *)
Lemma inv_rows_insert (t t' : tables) (s : Z) (c : chore) :
  inv_rows t s ->
  users t' = users t ->
  chores t' = chores t ++ [c] ->
  consistent c ->
  c_id c = s ->
  inv_rows t' (s + 1).
Proof.
  intros ((Hu & Hnd & Hlt) & Hc) Husers Hchores Hcons Hid.
  unfold inv_rows, well_keyed. rewrite Husers, Hchores. repeat split; auto.
  - rewrite map_app. simpl. apply NoDup_app.
    + assumption.
    + repeat constructor. simpl. tauto.
    + intros x Hx [Heq|[]]. apply in_map_iff in Hx as (r & <- & Hr).
      rewrite Forall_forall in Hlt. specialize (Hlt r Hr). lia.
  - apply Forall_app. split.
    + eapply Forall_impl; [|exact Hlt]. simpl. intros r Hr. lia.
    + constructor; [lia | constructor].
  - apply Forall_app. split; [assumption | constructor; [assumption | constructor]].
Qed.

Lemma NoDup_map_filter {A : Type} (key : A -> Z) (p : A -> bool) (l : list A) :
  NoDup (map key l) -> NoDup (map key (filter p l)).
Proof.
  induction l as [|a l IH]; simpl; intros Hnd; [constructor|].
  inversion Hnd as [|k ks Hnotin Hnd']; subst.
  destruct (p a); [|now apply IH]. simpl. constructor; [|now apply IH].
  intros Hin. apply Hnotin. apply in_map_iff in Hin as (r & Hk & Hr).
  apply filter_In in Hr as [Hr _]. apply in_map_iff. eauto.
Qed.

(** DELETE FROM chores. *)
Lemma inv_rows_delete (t t' : tables) (s : Z) (p : chore -> bool) :
  inv_rows t s ->
  users t' = users t ->
  chores t' = filter p (chores t) ->
  inv_rows t' s.
Proof.
  intros ((Hu & Hnd & Hlt) & Hc) Husers Hchores.
  unfold inv_rows, well_keyed. rewrite Husers, Hchores. repeat split; auto.
  - now apply NoDup_map_filter.
  - apply Forall_forall. intros x Hx. apply filter_In in Hx as [Hx _].
    rewrite Forall_forall in Hlt. auto.
  - apply Forall_forall. intros x Hx. apply filter_In in Hx as [Hx _].
    rewrite Forall_forall in Hc. auto.
Qed.

(** UPDATE users that keeps the ids. *)
Lemma inv_rows_users (t t' : tables) (s : Z) (p : user -> bool) (g : user -> user) :
  inv_rows t s ->
  users t' = Chores.update_where p g (users t) ->
  (forall u, u_id (g u) = u_id u) ->
  chores t' = chores t ->
  inv_rows t' s.
Proof.
  intros ((Hu & Hnd & Hlt) & Hc) Husers Hg Hchores.
  unfold inv_rows, well_keyed. rewrite Husers, Hchores. repeat split; auto.
  apply update_where_Forall; [assumption|]. intros u Hin _. rewrite Hg.
  rewrite Forall_forall in Hu. now apply Hu.
Qed.

(** *** Rules of the logic *)

Lemma holds_ret {A : Type} (P : tables -> Prop) (Q : A -> tables -> Prop) (a : A) :
  (forall t, P t -> Q a t) -> holds P (ret a) Q.
Proof. intros H w Hinv HP. unfold ret. simpl. (split; [|split]); auto; try lia. Qed.

Lemma holds_throw {A : Type} (P : tables -> Prop) (Q : A -> tables -> Prop) (e : Z) :
  holds P (throw e) Q.
Proof. intros w Hinv HP. unfold throw. simpl. (split; [|split]); auto; try lia. Qed.

Lemma holds_bind {A B : Type} (P : tables -> Prop) (Q : A -> tables -> Prop)
  (R : B -> tables -> Prop) (m : M A) (k : A -> M B) :
  holds P m Q -> (forall a, holds (Q a) (k a) R) -> holds P (bind m k) R.
Proof.
  intros Hm Hk w Hinv HP. specialize (Hm w Hinv HP). unfold bind.
  destruct (m w) as [[a|e] w1]; simpl in *.
  - destruct Hm as (Hinv1 & Hle & HQ). specialize (Hk a w1 Hinv1 HQ).
    destruct Hk as (Hinv2 & Hle2 & HR). (split; [|split]); auto; try lia.
  - destruct Hm as (Hinv1 & Hle & _). (split; [|split]); auto; try lia.
Qed.

Lemma holds_weaken {A : Type} (P P' : tables -> Prop) (Q Q' : A -> tables -> Prop) (m : M A) :
  holds P m Q ->
  (forall t, P' t -> P t) ->
  (forall a t, Q a t -> Q' a t) ->
  holds P' m Q'.
Proof.
  intros Hm HP HQ w Hinv HP'. destruct (Hm w Hinv (HP _ HP')) as (H1 & H2 & H3).
  (split; [|split]); auto; try lia. destruct (fst (m w)); auto.
Qed.

Lemma holds_round_trip (P : tables -> Prop) :
  holds P round_trip (fun _ t => P t).
Proof.
  intros w Hinv HP. unfold round_trip.
  destruct (fault w) as [[|k]|]; simpl; (split; [|split]); auto; try lia.
Qed.

Lemma holds_select {A : Type} (P : tables -> Prop) (q : tables -> A) :
  holds P (select q) (fun a t => P t /\ a = q t).
Proof.
  intros w Hinv HP. unfold select, bind, round_trip.
  destruct (fault w) as [[|k]|]; simpl; (split; [|split]); auto; try lia.
Qed.

Lemma holds_modify (P : tables -> Prop) (Q : unit -> tables -> Prop) (f : tables -> tables) :
  (forall t s, inv_rows t s -> P t -> inv_rows (f t) s /\ Q tt (f t)) ->
  holds P (modify f) Q.
Proof.
  intros Hf w Hinv HP. unfold modify, bind, round_trip.
  destruct (Hf _ _ Hinv HP) as [Hi HQ].
  destruct (fault w) as [[|k]|]; simpl; (split; [|split]); auto; try lia.
Qed.

Lemma holds_constrained (P : tables -> Prop) (Q : unit -> tables -> Prop)
  (ok : tables -> bool) (m : M unit) :
  holds P m Q -> holds P (constrained ok m) Q.
Proof.
  intros Hm w Hinv HP. unfold constrained. destruct (ok (rows w)).
  - now apply Hm.
  - simpl. (split; [|split]); auto; try lia.
Qed.

Lemma holds_insert_chore (P : tables -> Prop) (Q : Z -> tables -> Prop) (mk : Z -> chore) :
  (forall t s, inv_rows t s -> P t -> user_exists t (assigned_to (mk s)) = true ->
     consistent (mk s) /\ c_id (mk s) = s /\ Q s (set_chores t (chores t ++ [mk s]))) ->
  holds P (insert_chore mk) Q.
Proof.
  intros Hmk w Hinv HP. unfold insert_chore, bind, round_trip.
  assert (Hok : user_exists (rows w) (assigned_to (mk (seq_chore (seqs w)))) = true ->
                inv_rows (set_chores (rows w) (chores (rows w) ++ [mk (seq_chore (seqs w))]))
                         (seq_chore (seqs w) + 1)
                /\ Q (seq_chore (seqs w))
                     (set_chores (rows w) (chores (rows w) ++ [mk (seq_chore (seqs w))]))).
  { intros Hfk. destruct (Hmk _ _ Hinv HP Hfk) as (Hc & Hid & HQ). split; [|exact HQ].
    eapply inv_rows_insert; [exact Hinv | reflexivity | reflexivity | exact Hc | exact Hid]. }
  destruct (fault w) as [[|k]|]; simpl.
  - (split; [|split]); auto; try lia.
  - destruct (user_exists (rows w) (assigned_to (mk (seq_chore (seqs w))))); simpl.
    + destruct (Hok eq_refl). (split; [|split]); auto; try lia.
    + (split; [|split]); auto; try lia.
  - destruct (user_exists (rows w) (assigned_to (mk (seq_chore (seqs w))))); simpl.
    + destruct (Hok eq_refl). (split; [|split]); auto; try lia.
    + (split; [|split]); auto; try lia.
Qed.

Lemma holds_insert_assignment (P : tables -> Prop) (Q : Z -> tables -> Prop)
  (mk : Z -> chore_assignment) :
  (forall t id, P t ->
     Q id (set_chore_assignments t (chore_assignments t ++ [mk id]))) ->
  holds P (insert_assignment mk) Q.
Proof.
  intros HQ w Hinv HP. unfold insert_assignment, bind, round_trip.
  destruct (fault w) as [[|k]|]; simpl; (split; [|split]); auto; try lia.
Qed.

Lemma holds_insert_submission (P : tables -> Prop) (Q : Z -> tables -> Prop)
  (mk : Z -> chore_submission) :
  (forall t id, P t ->
     Q id (set_chore_submissions t (chore_submissions t ++ [mk id]))) ->
  holds P (insert_submission mk) Q.
Proof.
  intros HQ w Hinv HP. unfold insert_submission, bind, round_trip.
  destruct (fault w) as [[|k]|]; simpl; (split; [|split]); auto; try lia.
Qed.

Lemma holds_random_index (P : tables -> Prop) (n : Z) :
  holds P (random_index n) (fun _ t => P t).
Proof.
  intros w Hinv HP. unfold random_index.
  destruct (entropy w); simpl; (split; [|split]); auto; try lia.
Qed.

(** A transaction keeps the invariant when its callback does: committed, the
    rows are the callback's; rolled back, they are the rows before, under
    counters that only grew. *)
Lemma holds_transaction {A : Type} (P : tables -> Prop) (Q : A -> tables -> Prop)
  (callback : M A) :
  holds P callback Q -> holds P (transaction callback) Q.
Proof.
  intros Hcb w Hinv HP.
  assert (Hbody : holds P (round_trip ;;; (r <- callback ;; (round_trip ;;; ret r))) Q).
  { eapply holds_bind; [apply holds_round_trip|]. intros u0. simpl.
    eapply holds_bind; [exact Hcb|]. intros r0.
    eapply holds_bind; [apply (holds_round_trip (Q r0))|]. intros u1. simpl.
    apply holds_ret. auto. }
  specialize (Hbody w Hinv HP). unfold transaction.
  destruct ((round_trip ;;; (r <- callback ;; (round_trip ;;; ret r))) w) as [[a|e] w1];
    simpl in *.
  - exact Hbody.
  - destruct Hbody as (_ & Hle & _). (split; [|split]); auto; try lia.
    unfold invariant. simpl. eapply inv_rows_mono; [exact Hinv | exact Hle].
Qed.

(** *** The handlers *)

Ltac done_ret := apply holds_ret; auto.

Ltac then_trivially := eapply holds_bind with (Q := fun _ _ => True).

(** A write that touches neither chores nor users. *)
Ltac frame :=
  let t := fresh "t" in
  let s := fresh "s" in
  let Hinv := fresh "Hinv" in
  let HP := fresh "HP" in
  intros t s Hinv HP;
  split; [eapply inv_rows_frame; [reflexivity | reflexivity | exact Hinv] | auto].

Lemma safe_weaken {A : Type} (P : tables -> Prop) (m : M A) :
  safe m -> holds P m (fun _ _ => True).
Proof.
  intros H. apply (holds_weaken (fun _ => True) P (fun _ _ => True) (fun _ _ => True) m H); auto.
Qed.

Lemma NoDup_map_inj {A : Type} (key : A -> Z) (l : list A) (a b : A) :
  NoDup (map key l) -> In a l -> In b l -> key a = key b -> a = b.
Proof.
  induction l as [|x l IH]; intros Hnd Ha Hb Hk; [contradiction|].
  simpl in *. inversion Hnd as [|k ks Hnotin Hnd']; subst.
  destruct Ha as [->|Ha], Hb as [->|Hb]; auto.
  - exfalso. apply Hnotin. rewrite Hk. now apply in_map.
  - exfalso. apply Hnotin. rewrite <- Hk. now apply in_map.
Qed.

(** Moving a chore that has an assignee to a status other than available. *)
Lemma inv_rows_move (t t' : tables) (s : Z) (c : chore) (f : chore -> chore) :
  inv_rows t s ->
  In c (chores t) ->
  assigned_to c <> None ->
  users t' = users t ->
  chores t' = Chores.update_where (fun r => c_id r =? c_id c) f (chores t) ->
  (forall r, c_id (f r) = c_id r /\ assigned_to (f r) = assigned_to r
             /\ status (f r) <> available) ->
  inv_rows t' s.
Proof.
  intros Hinv Hin Hasg Husers Hchores Hf.
  eapply inv_rows_update; [exact Hinv | exact Husers | exact Hchores |].
  intros r Hr Hp. apply Z.eqb_eq in Hp.
  destruct Hinv as ((_ & Hnd & _) & _).
  assert (r = c) by (eapply NoDup_map_inj; eauto). subst r.
  destruct (Hf c) as (Hid & Hsame & Hst). split; [|exact Hid].
  unfold consistent. rewrite Hsame. split; intros H; contradiction.
Qed.

Lemma select_then {A : Type} (P : tables -> Prop) (q : tables -> A)
  (Q : A -> tables -> Prop) :
  (forall t, P t -> Q (q t) t) -> holds P (select q) Q.
Proof.
  intros H.
  apply (holds_weaken P P (fun a t => P t /\ a = q t) Q _ (holds_select P q)); auto.
  intros a t [HP ->]. auto.
Qed.

Lemma select_any {A : Type} (P : tables -> Prop) (q : tables -> A) :
  holds P (select q) (fun _ _ => True).
Proof.
  apply (holds_weaken P P (fun a t => P t /\ a = q t) (fun _ _ => True) _ (holds_select P q));
    auto.
Qed.

Lemma random_index_any (P : tables -> Prop) (n : Z) :
  holds P (random_index n) (fun _ _ => True).
Proof.
  apply (holds_weaken P P (fun _ t => P t) (fun _ _ => True) _ (holds_random_index P n));
    auto.
Qed.

Lemma insert_assignment_any (P : tables -> Prop) (mk : Z -> chore_assignment) :
  holds P (insert_assignment mk) (fun _ _ => True).
Proof. apply holds_insert_assignment. auto. Qed.

Lemma initialAssignedTo_safe (b : Chores.create_body) :
  safe (Chores.initialAssignedTo b).
Proof.
  unfold safe, Chores.initialAssignedTo.
  destruct (Chores.b_auto_assign b); [|done_ret].
  destruct (Chores.b_rotation_type b) as [[| |]|]; try done_ret.
  - destruct (Js.truthy_opt (Chores.b_assigned_to b)); done_ret.
  - destruct (Chores.b_rotation_members b) as [members|]; [|done_ret].
    destruct (0 <? Js.length members); done_ret.
  - destruct (Chores.b_rotation_members b) as [members|]; [|done_ret].
    destruct (0 <? Js.length members); [|done_ret].
    then_trivially; [apply random_index_any|].
    intros i. done_ret.
Qed.

Lemma create_safe (now : Z) (caller : user) (b : Chores.create_body) :
  safe (Chores.create now caller b).
Proof.
  unfold safe, Chores.create.
  destruct (negb (role_eqb (u_role caller) parent)); [done_ret|].
  destruct (Chores.b_title b) as [[|c0 s0]|]; try done_ret.
  destruct (Chores.b_reward_amount b) as [amount|]; [|done_ret].
  then_trivially; [apply initialAssignedTo_safe|]. intros initial.
  then_trivially;
    [|intros result; then_trivially; [apply select_any | intros; done_ret]].
  apply holds_transaction.
  then_trivially.
  - apply holds_insert_chore. intros t s Hinv _ _. simpl. split; [|auto].
    unfold consistent, Js.or_null. simpl.
    destruct (Js.truthy_opt initial) eqn:E.
    + destruct initial; [|discriminate]. split; intros H; discriminate.
    + split; reflexivity.
  - intros choreId. destruct (Js.or_null initial).
    + then_trivially; [apply insert_assignment_any | intros; done_ret].
    + done_ret.
Qed.

Lemma checkChoreAccess_safe (caller : user) (id : Z) :
  safe (Chores.checkChoreAccess caller id).
Proof.
  unfold safe, Chores.checkChoreAccess.
  then_trivially; [apply select_any|]. intros [c|]; [|apply holds_throw].
  destruct (negb (c_family_id c =? u_family_id caller)); [apply holds_throw|].
  destruct (role_eqb (u_role caller) child && negb (opt_is (assigned_to c) (u_id caller))
            && negb (c_created_by c =? u_id caller));
    [apply holds_throw | done_ret].
Qed.

(** A patch that leaves the status alone keeps every chore consistent. *)
Lemma update_safe (caller : user) (id : Z) (p : Chores.patch_body) :
  Chores.p_status p = None ->
  safe (Chores.update caller id p).
Proof.
  intros Hstatus. unfold safe, Chores.update.
  then_trivially; [apply checkChoreAccess_safe|]. intros _.
  then_trivially; [apply select_any|]. intros [c|]; [|done_ret].
  destruct (negb (role_eqb (u_role caller) parent) && negb (c_created_by c =? u_id caller));
    [done_ret|].
  destruct (Chores.no_updates p); [done_ret|].
  then_trivially; [|intros _; then_trivially; [apply select_any | intros; done_ret]].
  apply holds_modify. intros t s Hinv _. split; [|exact I].
  eapply inv_rows_update; [exact Hinv | reflexivity | reflexivity |].
  intros r Hr _. split; [|reflexivity].
  destruct Hinv as (_ & Hc). rewrite Forall_forall in Hc. specialize (Hc r Hr).
  unfold consistent, Chores.apply_patch in *. simpl. rewrite Hstatus. exact Hc.
Qed.

Lemma assign_safe (now : Z) (caller : user) (id : Z) (userId : option Z) :
  safe (Chores.assign now caller id userId).
Proof.
  unfold safe, Chores.assign.
  destruct (negb (role_eqb (u_role caller) parent)); [done_ret|].
  destruct (Js.or_null userId) as [userId_|]; [|done_ret].
  then_trivially; [apply select_any|]. intros [c|]; [|done_ret].
  then_trivially; [apply select_any|]. intros [u|]; [|done_ret].
  then_trivially; [|intros _; then_trivially; [apply select_any | intros; done_ret]].
  apply holds_transaction.
  then_trivially; [apply insert_assignment_any|]. intros _.
  apply holds_constrained, holds_modify. intros t s Hinv _. split; [|exact I].
  eapply inv_rows_update; [exact Hinv | reflexivity | reflexivity |].
  intros r Hr _. split; [|reflexivity].
  unfold consistent. simpl. split; intros H; discriminate.
Qed.

Lemma decline_safe (now : Z) (caller : user) (id : Z) :
  safe (Chores.decline now caller id).
Proof.
  unfold safe, Chores.decline.
  then_trivially; [apply select_any|]. intros [c|]; [|done_ret].
  then_trivially; [|intros _; done_ret].
  apply holds_transaction.
  then_trivially; [apply holds_modify; frame|]. intros _.
  apply holds_modify. intros t s Hinv _. split; [|exact I].
  eapply inv_rows_update; [exact Hinv | reflexivity | reflexivity |].
  intros r Hr _. split; [|reflexivity].
  unfold consistent. simpl. split; reflexivity.
Qed.

Lemma delete_safe (caller : user) (id : Z) :
  safe (Chores.delete caller id).
Proof.
  unfold safe, Chores.delete.
  destruct (negb (role_eqb (u_role caller) parent)); [done_ret|].
  then_trivially; [apply select_any|]. intros [c|]; [|done_ret].
  destruct (status_eqb (status c) completed); [done_ret|].
  then_trivially; [|intros _; done_ret].
  apply holds_modify. intros t s Hinv _. split; [|exact I].
  eapply inv_rows_delete; [exact Hinv | reflexivity | reflexivity].
Qed.

(** What a lookup by id, assignee and status tells about the row found. *)
Lemma assigned_chore_found (t : tables) (id userId : Z) (st : chore_status) (c : chore) :
  Some c = Chores.assigned_chore t id userId st ->
  In c (chores t) /\ assigned_to c <> None.
Proof.
  intros H. symmetry in H. unfold Chores.assigned_chore in H.
  apply find_some in H as [Hin Hp]. split; [exact Hin|].
  apply andb_prop in Hp as [Hp _]. apply andb_prop in Hp as [_ Hp].
  destruct (assigned_to c); [discriminate | discriminate].
Qed.

Lemma accept_safe (now : Z) (caller : user) (id : Z) :
  safe (Chores.accept now caller id).
Proof.
  unfold safe, Chores.accept.
  eapply holds_bind; [apply holds_select|]. intros [c|]; [|done_ret].
  then_trivially; [|intros _; done_ret].
  apply holds_transaction.
  eapply holds_bind with (Q := fun _ t => In c (chores t) /\ assigned_to c <> None).
  - apply holds_modify. intros t s Hinv [_ Hc]. apply assigned_chore_found in Hc.
    split; [eapply inv_rows_frame; [reflexivity | reflexivity | exact Hinv] | exact Hc].
  - intros _. apply holds_modify. intros t s Hinv [Hin Hasg]. split; [|exact I].
    eapply (inv_rows_move t _ s c); [exact Hinv | exact Hin | exact Hasg
                                     | reflexivity | reflexivity |].
    intros r. simpl. repeat split. discriminate.
Qed.

Lemma submit_safe (now : Z) (caller : user) (id : Z) (file notes_ : option string) :
  safe (Chores.submit now caller id file notes_).
Proof.
  unfold safe, Chores.submit.
  eapply holds_bind; [apply holds_select|]. intros [c|]; [|done_ret].
  destruct (requires_photo c && match file with Some _ => false | None => true end);
    [done_ret|].
  eapply holds_bind with (Q := fun _ t => In c (chores t) /\ assigned_to c <> None).
  { apply select_then. intros t [_ Hc]. now apply assigned_chore_found in Hc. }
  intros assignment.
  then_trivially; [|intros result; then_trivially; [apply select_any | intros; done_ret]].
  apply holds_transaction.
  eapply holds_bind with (Q := fun _ t => In c (chores t) /\ assigned_to c <> None).
  - apply holds_insert_submission. auto.
  - intros sid. then_trivially; [|intros _; done_ret].
    apply holds_modify. intros t s Hinv [Hin Hasg]. split; [|exact I].
    eapply (inv_rows_move t _ s c); [exact Hinv | exact Hin | exact Hasg
                                     | reflexivity | reflexivity |].
    intros r. simpl. repeat split. discriminate.
Qed.

Lemma reject_safe (now : Z) (caller : user) (id : Z) (feedback : option string) :
  safe (Chores.reject now caller id feedback).
Proof.
  unfold safe, Chores.reject.
  destruct (negb (role_eqb (u_role caller) parent)); [done_ret|].
  eapply holds_bind; [apply holds_select|]. intros [c|]; [|done_ret].
  eapply holds_bind with (Q := fun _ t => In c (chores t) /\ status c = pending_approval).
  { apply select_then. intros t [_ Hc]. symmetry in Hc. apply find_some in Hc as [Hin Hp].
    split; [exact Hin|]. unfold Chores.is_pending_approval in Hp.
    apply andb_prop in Hp as [_ Hp]. now apply status_eqb_eq. }
  intros [submission|]; [|done_ret].
  then_trivially; [|intros _; done_ret].
  apply holds_transaction.
  eapply holds_bind with (Q := fun _ t => In c (chores t) /\ status c = pending_approval).
  - apply holds_modify. intros t s Hinv HP.
    split; [eapply inv_rows_frame; [reflexivity | reflexivity | exact Hinv] | exact HP].
  - intros _. apply holds_modify. intros t s Hinv [Hin Hst]. split; [|exact I].
    eapply (inv_rows_move t _ s c); [exact Hinv | exact Hin | | reflexivity | reflexivity |].
    + destruct Hinv as (_ & Hc). rewrite Forall_forall in Hc.
      intros Hnone. apply (Hc c Hin) in Hnone. congruence.
    + intros r. simpl. repeat split. discriminate.
Qed.

Lemma approve_safe (now : Z) (caller : user) (id : Z) :
  safe (Chores.approve now caller id).
Proof.
  unfold safe, Chores.approve.
  destruct (negb (role_eqb (u_role caller) parent)); [done_ret|].
  eapply holds_bind with (Q := fun a t => forall c, a = Some c -> In c (chores t)).
  { apply select_then. intros t _ c Hc. now apply find_some in Hc. }
  intros [c|]; [|done_ret].
  eapply holds_bind with (Q := fun _ t => In c (chores t)).
  { apply select_then. intros t Hc. now apply Hc. }
  intros [submission|]; [|done_ret].
  destruct (assigned_to c) as [assignee|] eqn:Hasg; [|done_ret].
  then_trivially; [|intros _; done_ret].
  apply holds_transaction. unfold Chores.approve_writes, insert_completed_task.
  eapply holds_bind with (Q := fun _ t => In c (chores t)).
  { apply holds_modify. intros t s Hinv HP.
    split; [eapply inv_rows_frame; [reflexivity | reflexivity | exact Hinv] | exact HP]. }
  intros _.
  eapply holds_bind with (Q := fun _ t => In c (chores t)).
  { apply holds_modify. intros t s Hinv HP.
    split; [eapply inv_rows_frame; [reflexivity | reflexivity | exact Hinv] | exact HP]. }
  intros _.
  eapply holds_bind with (Q := fun _ t => In c (chores t)).
  { destruct (c_reward_type c); apply holds_modify; intros t s Hinv HP;
      (split; [|exact HP]);
      (eapply inv_rows_users; [exact Hinv | reflexivity | reflexivity | reflexivity]). }
  intros _. apply holds_modify. intros t s Hinv Hin. split; [|exact I].
  eapply (inv_rows_move t _ s c); [exact Hinv | exact Hin | | reflexivity | reflexivity |].
  - rewrite Hasg. discriminate.
  - intros r. simpl. repeat split. discriminate.
Qed.

Lemma resolve_assignee_safe (rc : recurring_chore) :
  safe (Recurring.resolve_assignee rc).
Proof.
  unfold safe, Recurring.resolve_assignee.
  destruct (auto_assign rc); [|done_ret].
  destruct (r_rotation_type rc).
  - destruct (Js.truthy_opt (r_assigned_to rc)); done_ret.
  - destruct (rotation_members rc) as [rotation_members_|]; [|done_ret].
    destruct (Js.JSON_parse rotation_members_) as [[members|n]|];
      [|done_ret|apply holds_throw].
    destruct (0 <? Js.length members); [|done_ret].
    then_trivially; [apply select_any | intros; done_ret].
  - destruct (rotation_members rc) as [rotation_members_|]; [|done_ret].
    destruct (Js.JSON_parse rotation_members_) as [[members|n]|];
      [|done_ret|apply holds_throw].
    destruct (0 <? Js.length members); [|done_ret].
    then_trivially; [apply random_index_any | intros; done_ret].
Qed.

(** The chore a template gives is consistent once its assignee passed the
    foreign key: an existing user has a non-zero id, hence is truthy. *)
Lemma generated_chore_consistent (now creator : Z) (rc : recurring_chore)
  (a : option Z) (id : Z) (t : tables) (s : Z) :
  inv_rows t s ->
  user_exists t a = true ->
  consistent (Recurring.generated_chore now creator rc a id).
Proof.
  intros ((Hu & _) & _) Hfk. unfold consistent. simpl.
  destruct a as [x|]; simpl in *; [|split; reflexivity].
  apply existsb_exists in Hfk as (u & Hin & Hid). apply Z.eqb_eq in Hid.
  rewrite Forall_forall in Hu. specialize (Hu u Hin).
  unfold Js.truthy. destruct (x =? 0) eqn:E; [apply Z.eqb_eq in E; congruence|].
  simpl. split; intros H; discriminate.
Qed.

Lemma materialize_safe (tz now creator : Z) (rc : recurring_chore) (a : option Z) :
  safe (Recurring.materialize tz now creator rc a).
Proof.
  unfold safe, Recurring.materialize, insert_history.
  then_trivially.
  { apply holds_insert_chore. intros t s Hinv _ Hfk.
    split; [|split; [reflexivity | exact I]].
    eapply generated_chore_consistent; eauto. }
  intros insertId.
  then_trivially.
  { destruct (Js.or_null a);
      [then_trivially; [apply insert_assignment_any | intros; done_ret] | done_ret]. }
  intros _. then_trivially; [apply holds_modify; frame|]. intros _.
  then_trivially; [apply holds_modify; frame|]. intros _. done_ret.
Qed.

Lemma generate_one_safe (tz now : Z) (caller : user) (rc : recurring_chore) :
  safe (Recurring.generate_one tz now caller rc).
Proof.
  unfold safe, Recurring.generate_one.
  then_trivially; [apply select_any|]. intros [h|]; [done_ret|].
  then_trivially; [apply resolve_assignee_safe|]. intros a.
  then_trivially; [apply materialize_safe|]. intros insertId.
  then_trivially; [apply select_any | intros; done_ret].
Qed.

Lemma scheduled_one_safe (tz now : Z) (rc : recurring_chore) :
  safe (Recurring.scheduled_one tz now rc).
Proof.
  unfold safe, Recurring.scheduled_one.
  then_trivially; [apply select_any|]. intros [h|]; [done_ret|].
  then_trivially; [apply resolve_assignee_safe|]. intros a.
  then_trivially; [apply materialize_safe|]. intros insertId. done_ret.
Qed.

(** The loop keeps the invariant through every turn, also when one throws
    part-way: each statement of a turn keeps it on its own. *)
Lemma generation_loop_safe (turn : recurring_chore -> M (option Z))
  (l : list recurring_chore) :
  (forall rc, safe (turn rc)) -> safe (Recurring.generation_loop turn l).
Proof.
  intros Hturn. unfold safe. induction l as [|rc l IH]; simpl; [done_ret|].
  then_trivially; [apply Hturn|]. intros g.
  then_trivially; [exact IH|]. intros others. done_ret.
Qed.

Lemma generate_safe (tz now : Z) (caller : user) (recurringId : option Z) :
  safe (Recurring.generate tz now caller recurringId).
Proof.
  unfold safe, Recurring.generate.
  destruct (negb (role_eqb (u_role caller) parent)); [apply holds_throw|].
  then_trivially; [apply select_any|]. intros [|rc l]; [done_ret|].
  then_trivially; [|intros; done_ret].
  apply generation_loop_safe. intros rc0. apply generate_one_safe.
Qed.

Lemma generateRecurringChores_safe (tz now : Z) :
  safe (Recurring.generateRecurringChores tz now).
Proof.
  unfold safe, Recurring.generateRecurringChores.
  then_trivially; [apply select_any|]. intros [|rc l]; [done_ret|].
  then_trivially; [|intros; done_ret].
  apply generation_loop_safe. intros rc0. apply scheduled_one_safe.
Qed.

(** Every request other than a patch of the status keeps the invariant. *)
Lemma handle_keeps_invariant (tz now : Z) (caller : user) (r : request) (w : world) :
  sets_status r = false ->
  invariant w ->
  invariant (handle tz now caller r w).
Proof.
  intros Hallowed Hinv.
  assert (Hsafe : forall (A : Type) (m : M A), safe m -> invariant (snd (m w))).
  { intros A m Hm. apply (Hm w Hinv I). }
  destruct r; simpl in *.
  - apply Hsafe, create_safe.
  - apply Hsafe, update_safe. destruct (Chores.p_status p); [discriminate | reflexivity].
  - apply Hsafe, assign_safe.
  - apply Hsafe, accept_safe.
  - apply Hsafe, decline_safe.
  - apply Hsafe, submit_safe.
  - apply Hsafe, approve_safe.
  - apply Hsafe, reject_safe.
  - apply Hsafe, delete_safe.
  - apply Hsafe, generate_safe.
  - unfold Recurring.cron_job. apply Hsafe, generateRecurringChores_safe.
Qed.

Lemma status_in_statuses (s : chore_status) : In s statuses.
Proof. destruct s; simpl; tauto. Qed.

(** C7, as the code has it.  From a store where every chore is consistent
    ([assigned_to] null exactly when the status is available), every store
    reached through create, assign, accept, decline, submit, approve, reject,
    delete, generation (route and scheduler) and updates that do not carry
    the status field — whatever the clock, the caller, the failing round
    trip and the random draws of each request — keeps every chore
    consistent, with its status among the eight values of the column. *)
Theorem status_and_assignee_stay_consistent :
  forall (w0 w : world),
    invariant w0 ->
    reachable (fun r => negb (sets_status r)) w0 w ->
    invariant w
    /\ forall c, In c (chores (rows w)) ->
         In (status c) statuses
         /\ (assigned_to c = None <-> status c = available).
Proof.
  intros w0 w Hinv0 Hreach.
  assert (Hinv : invariant w).
  { induction Hreach as [|w tz now caller r f e Hreach IH Hallowed]; [exact Hinv0|].
    apply handle_keeps_invariant.
    - now apply negb_true_iff.
    - exact IH. }
  split; [exact Hinv|]. intros c Hc. split; [apply status_in_statuses|].
  destruct Hinv as (_ & Hcons). rewrite Forall_forall in Hcons. exact (Hcons c Hc).
Qed.

Lemma sample_invariant : invariant (Sample.world_with None).
Proof.
  unfold invariant, inv_rows, well_keyed. simpl. repeat split.
  - repeat constructor; simpl; discriminate.
  - repeat constructor; simpl; intuition discriminate.
  - repeat constructor; simpl; lia.
  - repeat (apply Forall_cons;
            [unfold consistent; simpl; split; intros H; (discriminate || reflexivity)|]).
    apply Forall_nil.
Qed.

Lemma status_and_assignee_stay_consistent_witness :
  invariant (handle 0 Sample.noon Sample.bob (Api.Decline 11) (Sample.world_with None))
  /\ forall c,
       In c (chores (rows (handle 0 Sample.noon Sample.bob (Api.Decline 11)
                             (Sample.world_with None)))) ->
       In (status c) statuses /\ (assigned_to c = None <-> status c = available).
Proof.
  apply (status_and_assignee_stay_consistent (Sample.world_with None)
           (handle 0 Sample.noon Sample.bob (Api.Decline 11) (Sample.world_with None))).
  - exact sample_invariant.
  - apply (reach_step (fun r => negb (sets_status r)) (Sample.world_with None)
             (Sample.world_with None) 0 Sample.noon Sample.bob (Api.Decline 11) None []).
    + apply reach_start.
    + reflexivity.
Defined.

(** C7 as stated fails: the update route writes the status it is given and
    leaves [assigned_to] alone.  A parent's PATCH of [status] to available on
    a chore assigned to Bob yields an available chore that still has its
    assignee; a PATCH to completed on an unassigned chore yields a completed
    chore without one. *)
Lemma status_patch_breaks_consistency :
  let w1 := handle 0 Sample.noon Sample.mum
              (Api.Update 11 (Sample.status_patch available)) (Sample.world_with None) in
  let w2 := handle 0 Sample.noon Sample.mum
              (Api.Update 13 (Sample.status_patch completed)) (Sample.world_with None) in
  invariant (Sample.world_with None)
  /\ reachable (fun _ => true) (Sample.world_with None) w1
  /\ reachable (fun _ => true) (Sample.world_with None) w2
  /\ (exists c, In c (chores (rows w1)) /\ c_id c = 11
                /\ status c = available /\ assigned_to c = Some 8)
  /\ (exists c, In c (chores (rows w2)) /\ c_id c = 13
                /\ status c = completed /\ assigned_to c = None)
  /\ ~ (forall c, In c (chores (rows w1)) ->
          (assigned_to c = None <-> status c = available)).
Proof.
  cbv zeta. split; [exact sample_invariant|].
  split.
  { apply (reach_step (fun _ => true) (Sample.world_with None) (Sample.world_with None)
             0 Sample.noon Sample.mum (Api.Update 11 (Sample.status_patch available)) None []);
      [apply reach_start | reflexivity]. }
  split.
  { apply (reach_step (fun _ => true) (Sample.world_with None) (Sample.world_with None)
             0 Sample.noon Sample.mum (Api.Update 13 (Sample.status_patch completed)) None []);
      [apply reach_start | reflexivity]. }
  split.
  { exists (Chores.with_status Sample.laundry available). simpl. intuition. }
  split.
  { exists (Chores.with_status Sample.windows completed). simpl. intuition. }
  intros H.
  specialize (H (Chores.with_status Sample.laundry available)).
  simpl in H. destruct H as [_ H]; [intuition|].
  specialize (H eq_refl). discriminate.
Qed.

(** ** Runs on the sample family *)

Example civil_2024_01_03 : JsDate.days_from_civil 2024 1 3 = 19725.
Proof. reflexivity. Qed.

Example civil_back_2024_01_03 : JsDate.civil_from_days 19725 = (2024, 1, 3).
Proof. reflexivity. Qed.

Example wednesday_2024_01_03 : JsDate.weekday_of_day 19725 = 3.
Proof. reflexivity. Qed.

(** [setMonth] overflows as in JS: one month after January 31st is March 3rd. *)
Example jan31_plus_month :
  JsDate.civil_from_days
    (JsDate.local_day 0
       (JsDate.addMonth 0 (JsDate.make_local 0 (JsDate.days_from_civil 2023 1 31) 0)))
  = (2023, 3, 3).
Proof. reflexivity. Qed.

(** West of Greenwich the date-only start date falls on the local Tuesday
    evening; the due date is the same Monday, 09:00 local time. *)
Example monday_west_of_greenwich :
  let tz := -5 * JsDate.MS_PER_HOUR in
  let due := Recurring.initial_next_due_date tz Sample.noon weekly (Some "monday"%string) None
               (19725 * JsDate.MS_PER_DAY) in
  JsDate.civil_from_days (JsDate.local_day tz due) = (2024, 1, 8)
  /\ JsDate.getDay tz due = 1
  /\ JsDate.time_in_day tz due = 9 * JsDate.MS_PER_HOUR.
Proof. repeat split; reflexivity. Qed.

(** Approving Ann's dishes pays her 5.00 once and completes the chore. *)
Example approve_dishes :
  let after := snd (catchAsync (Chores.approve Sample.noon Sample.mum 10)
                      (Sample.world_with None)) in
  map (fun u => (u_id u, earnings u)) (users (rows after)) = [(1, 0); (7, 500); (8, 0); (9, 0)]
  /\ map reward_earned (completed_tasks (rows after)) = [500]
  /\ map (fun c => (c_id c, status c)) (chores (rows after))
     = [(10, completed); (11, pending_acceptance); (12, completed); (13, available)]
  /\ map s_status (chore_submissions (rows after)) = [sub_approved].
Proof. repeat split; reflexivity. Qed.

(** The same approval with the commit failing: 500 and nothing written. *)
Example approve_dishes_commit_fails :
  let answer := catchAsync (Chores.approve Sample.noon Sample.mum 10)
                  (Sample.world_with (Some 7%nat)) in
  fst answer = 500 /\ rows (snd answer) = Sample.home.
Proof. split; reflexivity. Qed.

(** Five wrong passwords lock the account: the right one is then refused
    until the fifteen minutes are over. *)
Example five_wrong_passwords :
  let wrong (w : world) :=
    snd (catchAsync (Auth.login Scenes.ignoring_case Scenes.checks Sample.noon
                       "smith1" "ann@example.org" "letmein1") w) in
  let locked := wrong (wrong (wrong (wrong (wrong (Sample.world_with None))))) in
  map (fun u => (login_attempts u, locked_until u))
      (filter (fun u => u_id u =? 7) (users (rows locked)))
  = [(5, Some (Sample.noon + 900000))]
  /\ fst (catchAsync (Auth.login Scenes.ignoring_case Scenes.checks (Sample.noon + 899999)
                        "smith1" "ann@example.org" "correct horse") locked) = 423
  /\ fst (catchAsync (Auth.login Scenes.ignoring_case Scenes.checks (Sample.noon + 900000)
                        "smith1" "ann@example.org" "correct horse") locked) = 200.
Proof. repeat split; reflexivity. Qed.

(* ================================================================== *)
(** * Further properties of the handlers *)

(** ** Creating a chore *)

(** X4. A parent's POST /api/chores without auto-assignment, no round trip
    failing, answers 201 and adds exactly one chore: it takes the next id,
    belongs to the caller's family, is available with no assignee, and its
    payable [current_reward] is the [reward_amount] given; no assignment row
    is written. *)
Theorem create_unassigned_chore :
  forall (now : Z) (caller : user) (b : Chores.create_body) (w : world) (amount : Z),
    u_role caller = parent ->
    Js.truthy_str (Chores.b_title b) = true ->
    Chores.b_reward_amount b = Some amount ->
    Chores.b_auto_assign b = false ->
    fault w = None ->
    exists (c : chore) (w' : world),
      Chores.create now caller b w = (Ok 201, w')
      /\ chores (rows w') = chores (rows w) ++ [c]
      /\ c_id c = seq_chore (seqs w)
      /\ c_family_id c = u_family_id caller
      /\ c_created_by c = u_id caller
      /\ Chores.b_title b = Some (title c)
      /\ status c = available
      /\ assigned_to c = None
      /\ reward_amount c = amount
      /\ current_reward c = amount
      /\ chore_assignments (rows w') = chore_assignments (rows w)
      /\ users (rows w') = users (rows w).
Proof.
  intros now caller b w amount Hrole Htitle Hamount Hauto Hfault.
  destruct w as [t sq f e]. simpl in *. subst f.
  unfold Chores.create, Chores.initialAssignedTo. rewrite Hrole, Hamount, Hauto. simpl.
  destruct (Chores.b_title b) as [[|c0 s0]|]; try discriminate.
  unfold_gateway. simpl.
  eexists. eexists. split; [reflexivity|]. simpl. repeat split; reflexivity.
Qed.

Lemma create_unassigned_chore_witness :
  exists (c : chore) (w' : world),
    Chores.create Sample.noon Sample.mum Bodies.plain_chore (Sample.world_with None)
    = (Ok 201, w')
    /\ chores (rows w') = chores Sample.home ++ [c]
    /\ status c = available
    /\ current_reward c = 300.
Proof.
  destruct (create_unassigned_chore Sample.noon Sample.mum Bodies.plain_chore
              (Sample.world_with None) 300 eq_refl eq_refl eq_refl eq_refl eq_refl)
    as (c & w' & Hrun & Hrows & _ & _ & _ & _ & Hst & _ & _ & Hcur & _).
  exists c, w'. repeat split; assumption.
Defined.

(** X5. A parent's POST /api/chores with auto-assignment and either a fixed
    assignee (rotation none) or a round-robin member list goes to that
    assignee, respectively to the first member, whatever the rotation
    history: when that user exists (and no round trip fails) the answer is
    201, the new chore is assigned to them as of now, and one pending
    assignment row is added whose deadline is now plus the acceptance timer
    (5 minutes when none is given). *)
Theorem create_assigned_chore :
  forall (now : Z) (caller : user) (b : Chores.create_body) (w : world)
         (amount assignee : Z),
    u_role caller = parent ->
    Js.truthy_str (Chores.b_title b) = true ->
    Chores.b_reward_amount b = Some amount ->
    Chores.b_auto_assign b = true ->
    (Chores.b_rotation_type b = Some none /\ Chores.b_assigned_to b = Some assignee)
    \/ (Chores.b_rotation_type b = Some round_robin
        /\ exists rest, Chores.b_rotation_members b = Some (assignee :: rest)) ->
    assignee <> 0 ->
    user_exists (rows w) (Some assignee) = true ->
    fault w = None ->
    exists (c : chore) (a : chore_assignment) (w' : world),
      Chores.create now caller b w = (Ok 201, w')
      /\ chores (rows w') = chores (rows w) ++ [c]
      /\ c_id c = seq_chore (seqs w)
      /\ status c = assigned
      /\ assigned_to c = Some assignee
      /\ assigned_at c = Some now
      /\ current_reward c = amount
      /\ chore_assignments (rows w') = chore_assignments (rows w) ++ [a]
      /\ a_chore_id a = c_id c
      /\ a_user_id a = assignee
      /\ assigned_by a = u_id caller
      /\ a_status a = asg_pending
      /\ acceptance_deadline a
         = Some (now + Chores.timer_or_5 (Chores.b_acceptance_timer b) * 60000).
Proof.
  intros now caller b w amount assignee Hrole Htitle Hamount Hauto Hwho Hnz Hfk Hfault.
  destruct w as [t sq f e]. simpl in *. subst f.
  assert (Htruthy : Js.truthy assignee = true).
  { unfold Js.truthy. apply Z.eqb_neq in Hnz. now rewrite Hnz. }
  assert (Hinitial : Chores.initialAssignedTo b
                       {| rows := t; seqs := sq; fault := None; entropy := e |}
                     = (Ok (Some assignee),
                        {| rows := t; seqs := sq; fault := None; entropy := e |})).
  { unfold Chores.initialAssignedTo. rewrite Hauto.
    destruct Hwho as [[Hrot Hfixed] | [Hrot (rest & Hmembers)]].
    - rewrite Hrot, Hfixed. simpl. rewrite Htruthy. reflexivity.
    - rewrite Hrot, Hmembers.
      replace (0 <? Js.length (assignee :: rest)) with true; [reflexivity|].
      symmetry. apply Z.ltb_lt. unfold Js.length. simpl List.length. lia. }
  unfold Chores.create. rewrite Hrole, Hamount. simpl.
  destruct (Chores.b_title b) as [[|c0 s0]|]; try discriminate.
  unfold bind at 1. rewrite Hinitial.
  unfold_gateway. unfold Js.or_null, Js.truthy_opt. rewrite Htruthy. simpl.
  rewrite Hfk. simpl.
  eexists. eexists. eexists. split; [reflexivity|]. simpl.
  unfold JsDate.addMinutes, JsDate.MS_PER_MINUTE. repeat split; reflexivity.
Qed.

Lemma create_assigned_chore_witness :
  exists (c : chore) (a : chore_assignment) (w' : world),
    Chores.create Sample.noon Sample.mum (Bodies.rotating_chore [8; 9]) (Sample.world_with None)
    = (Ok 201, w')
    /\ assigned_to c = Some 8
    /\ chores (rows w') = chores Sample.home ++ [c]
    /\ acceptance_deadline a = Some (Sample.noon + 600000).
Proof.
  destruct (create_assigned_chore Sample.noon Sample.mum (Bodies.rotating_chore [8; 9])
              (Sample.world_with None) 300 8 eq_refl eq_refl eq_refl eq_refl
              (or_intror (conj eq_refl (ex_intro _ [9] eq_refl)))
              ltac:(discriminate) eq_refl eq_refl)
    as (c & a & w' & Hrun & Hrows & _ & _ & Hwho & _ & _ & _ & _ & _ & _ & _ & Hdl).
  exists c, a, w'. repeat split; assumption.
Defined.

(** X6. The same request naming a user who does not exist fails on the
    chore's foreign key: the transaction is rolled back, the error is
    rethrown (500), and no chore or assignment is written. *)
Theorem create_unknown_assignee_rolls_back :
  forall (now : Z) (caller : user) (b : Chores.create_body) (w : world)
         (amount assignee : Z),
    u_role caller = parent ->
    Js.truthy_str (Chores.b_title b) = true ->
    Chores.b_reward_amount b = Some amount ->
    Chores.b_auto_assign b = true ->
    (Chores.b_rotation_type b = Some none /\ Chores.b_assigned_to b = Some assignee)
    \/ (Chores.b_rotation_type b = Some round_robin
        /\ exists rest, Chores.b_rotation_members b = Some (assignee :: rest)) ->
    assignee <> 0 ->
    user_exists (rows w) (Some assignee) = false ->
    fault w = None ->
    fst (catchAsync (Chores.create now caller b) w) = 500
    /\ rows (snd (catchAsync (Chores.create now caller b) w)) = rows w.
Proof.
  intros now caller b w amount assignee Hrole Htitle Hamount Hauto Hwho Hnz Hfk Hfault.
  destruct w as [t sq f e]. simpl in *. subst f.
  assert (Htruthy : Js.truthy assignee = true).
  { unfold Js.truthy. apply Z.eqb_neq in Hnz. now rewrite Hnz. }
  assert (Hinitial : Chores.initialAssignedTo b
                       {| rows := t; seqs := sq; fault := None; entropy := e |}
                     = (Ok (Some assignee),
                        {| rows := t; seqs := sq; fault := None; entropy := e |})).
  { unfold Chores.initialAssignedTo. rewrite Hauto.
    destruct Hwho as [[Hrot Hfixed] | [Hrot (rest & Hmembers)]].
    - rewrite Hrot, Hfixed. simpl. rewrite Htruthy. reflexivity.
    - rewrite Hrot, Hmembers.
      replace (0 <? Js.length (assignee :: rest)) with true; [reflexivity|].
      symmetry. apply Z.ltb_lt. unfold Js.length. simpl List.length. lia. }
  assert (Hrun : Chores.create now caller b
                   {| rows := t; seqs := sq; fault := None; entropy := e |}
                 = (Throw 500, {| rows := t; seqs := sq; fault := None; entropy := e |})).
  { unfold Chores.create. rewrite Hrole, Hamount. simpl.
    destruct (Chores.b_title b) as [[|c0 s0]|]; try discriminate.
    unfold bind at 1. rewrite Hinitial.
    unfold_gateway. unfold Js.or_null, Js.truthy_opt. rewrite Htruthy. simpl.
    rewrite Hfk. reflexivity. }
  unfold catchAsync. rewrite Hrun. split; reflexivity.
Qed.

Lemma create_unknown_assignee_rolls_back_witness :
  fst (catchAsync (Chores.create Sample.noon Sample.mum (Bodies.rotating_chore [42; 8]))
         (Sample.world_with None)) = 500
  /\ rows (snd (catchAsync (Chores.create Sample.noon Sample.mum (Bodies.rotating_chore [42; 8]))
                  (Sample.world_with None))) = Sample.home.
Proof.
  apply (create_unknown_assignee_rolls_back Sample.noon Sample.mum
           (Bodies.rotating_chore [42; 8]) (Sample.world_with None) 300 42);
    try reflexivity.
  - right. split; [reflexivity|]. exists [8]. reflexivity.
  - discriminate.
Defined.

(** ** Due dates *)

Lemma make_local_shift (tz t n : Z) :
  JsDate.make_local tz (JsDate.local_day tz t + n) (JsDate.time_in_day tz t)
  = t + n * JsDate.MS_PER_DAY.
Proof.
  unfold JsDate.make_local, JsDate.local_day, JsDate.time_in_day, JsDate.MS_PER_DAY.
  Z.div_mod_to_equations. lia.
Qed.

Lemma addDays_shift (tz t n : Z) : JsDate.addDays tz t n = t + n * JsDate.MS_PER_DAY.
Proof. apply make_local_shift. Qed.

Lemma time_in_day_shift (tz t n : Z) :
  JsDate.time_in_day tz (t + n * JsDate.MS_PER_DAY) = JsDate.time_in_day tz t.
Proof.
  unfold JsDate.time_in_day.
  replace (t + n * JsDate.MS_PER_DAY + tz) with (t + tz + n * JsDate.MS_PER_DAY) by lia.
  apply Z.mod_add. unfold JsDate.MS_PER_DAY. lia.
Qed.

Lemma local_day_shift (tz t n : Z) :
  JsDate.local_day tz (t + n * JsDate.MS_PER_DAY) = JsDate.local_day tz t + n.
Proof.
  unfold JsDate.local_day.
  replace (t + n * JsDate.MS_PER_DAY + tz) with (t + tz + n * JsDate.MS_PER_DAY) by lia.
  apply Z.div_add. unfold JsDate.MS_PER_DAY. lia.
Qed.

Lemma indexOf_range {A : Type} (eqb : A -> A -> bool) (l : list A) (x : A) :
  -1 <= Js.indexOf eqb l x < Js.length l.
Proof.
  unfold Js.length. induction l as [|a l IH]; simpl Js.indexOf; [simpl; lia|].
  rewrite length_cons, Nat2Z.inj_succ.
  destruct (eqb a x); [lia|].
  destruct (Js.indexOf eqb l x <? 0) eqn:E; [lia|]. apply Z.ltb_ge in E. lia.
Qed.

(** X16. The first due date of a new template is 09:00 local time of the
    start day when that instant is not yet past, whatever the frequency.
    When it is past, a daily or custom template is due one day after it,
    and a weekly template without a day name, or with a name that is not a
    day of the week, seven days after it — without looking at how long ago
    the start was. *)
Theorem first_due_date_from_start :
  forall (tz now : Z) (freq : frequency) (dow : option string) (dom : option Z)
         (start : Z),
    let nine := JsDate.setHours tz start 9 in
    let due := Recurring.initial_next_due_date tz now freq dow dom start in
    JsDate.time_in_day tz nine = 9 * JsDate.MS_PER_HOUR
    /\ JsDate.local_day tz nine = JsDate.local_day tz start
    /\ (now <= nine -> due = nine)
    /\ (nine < now -> freq = daily \/ freq = custom ->
        due = nine + JsDate.MS_PER_DAY)
    /\ (nine < now -> freq = weekly ->
        dow = None
        \/ (exists d, dow = Some d
                      /\ Js.indexOf String.eqb Recurring.daysOfWeek (Js.toLowerCase d) = -1) ->
        due = nine + 7 * JsDate.MS_PER_DAY).
Proof.
  intros tz now freq dow dom start nine due.
  assert (H9 : 0 <= 9 * JsDate.MS_PER_HOUR < JsDate.MS_PER_DAY)
    by (unfold JsDate.MS_PER_HOUR, JsDate.MS_PER_DAY; lia).
  split; [apply time_in_day_make_local; exact H9|].
  split; [apply local_day_make_local; exact H9|].
  subst due. unfold Recurring.initial_next_due_date. fold nine.
  split; [|split].
  - intros H. apply Z.ltb_ge in H. now rewrite H.
  - intros H Hfreq. apply Z.ltb_lt in H. rewrite H.
    destruct Hfreq as [-> | ->]; rewrite addDays_shift; lia.
  - intros H -> Hdow. apply Z.ltb_lt in H. rewrite H.
    destruct Hdow as [-> | (d & -> & Hidx)]; [apply addDays_shift|].
    destruct d as [|c s]; [apply addDays_shift|].
    rewrite Hidx. simpl. apply addDays_shift.
Qed.

(** X17. A weekly template with a day name (in any letter case) whose start
    at 09:00 is already past is due at 09:00 local time on the first day on
    or after the start day that falls on that weekday: zero to six days
    later.  When the start day is itself that weekday the due date is the
    start day, which is in the past. *)
Theorem weekly_first_due_date :
  forall (tz now : Z) (dow : string) (dom : option Z) (start target : Z),
    dow <> EmptyString ->
    Js.indexOf String.eqb Recurring.daysOfWeek (Js.toLowerCase dow) = target ->
    target <> -1 ->
    JsDate.setHours tz start 9 < now ->
    let due := Recurring.initial_next_due_date tz now weekly (Some dow) dom start in
    exists k : Z,
      0 <= k <= 6
      /\ due = JsDate.setHours tz start 9 + k * JsDate.MS_PER_DAY
      /\ JsDate.local_day tz due = JsDate.local_day tz start + k
      /\ JsDate.time_in_day tz due = 9 * JsDate.MS_PER_HOUR
      /\ JsDate.getDay tz due = target
      /\ (forall j, 0 <= j < k ->
            JsDate.weekday_of_day (JsDate.local_day tz start + j) <> target)
      /\ (JsDate.getDay tz start = target -> k = 0 /\ due < now).
Proof.
  intros tz now dow dom start target Hne Hidx Htarget Hpast due.
  assert (H9 : 0 <= 9 * JsDate.MS_PER_HOUR < JsDate.MS_PER_DAY)
    by (unfold JsDate.MS_PER_HOUR, JsDate.MS_PER_DAY; lia).
  pose proof (indexOf_range String.eqb Recurring.daysOfWeek (Js.toLowerCase dow)) as Hrange.
  rewrite Hidx in Hrange. change (Js.length Recurring.daysOfWeek) with 7 in Hrange.
  set (cur := JsDate.weekday_of_day (JsDate.local_day tz start)).
  assert (Hcur : 0 <= cur < 7)
    by (subst cur; unfold JsDate.weekday_of_day; apply Z.mod_pos_bound; lia).
  assert (Hrem : Z.rem (target + 7 - cur) 7 = (target + 7 - cur) mod 7)
    by (apply Z.rem_mod_nonneg; lia).
  assert (Hdue : due = JsDate.make_local tz
                         (JsDate.local_day tz start + (target + 7 - cur) mod 7)
                         (9 * JsDate.MS_PER_HOUR)).
  { subst due. rewrite (weekly_named_day tz now dow dom start target Hne Hidx Htarget Hpast).
    fold cur. now rewrite Hrem. }
  exists ((target + 7 - cur) mod 7).
  assert (Hk : 0 <= (target + 7 - cur) mod 7 < 7) by (apply Z.mod_pos_bound; lia).
  split; [lia|]. split.
  { rewrite Hdue. unfold JsDate.setHours, JsDate.make_local. lia. }
  split; [rewrite Hdue; now apply local_day_make_local|].
  split; [rewrite Hdue; now apply time_in_day_make_local|].
  split.
  { unfold JsDate.getDay. rewrite Hdue, local_day_make_local by exact H9.
    subst cur. unfold JsDate.weekday_of_day in *. Z.div_mod_to_equations. lia. }
  split.
  { intros j Hj. subst cur. unfold JsDate.weekday_of_day in *.
    Z.div_mod_to_equations. lia. }
  intros Hsame. unfold JsDate.getDay in Hsame. fold cur in Hsame.
  assert (Hzero : (target + 7 - cur) mod 7 = 0).
  { rewrite Hsame. replace (target + 7 - target) with 7 by lia. reflexivity. }
  split; [exact Hzero|].
  rewrite Hdue, Hzero, Z.add_0_r. exact Hpast.
Qed.

Lemma weekly_first_due_date_witness :
  exists k : Z,
    0 <= k <= 6
    /\ Recurring.initial_next_due_date 0 Sample.noon weekly (Some "WEDNESDAY"%string) None
         (19732 * JsDate.MS_PER_DAY)
       = JsDate.setHours 0 (19732 * JsDate.MS_PER_DAY) 9 + k * JsDate.MS_PER_DAY
    /\ k = 0
    /\ Recurring.initial_next_due_date 0 Sample.noon weekly (Some "WEDNESDAY"%string) None
         (19732 * JsDate.MS_PER_DAY) < Sample.noon.
Proof.
  destruct (weekly_first_due_date 0 Sample.noon "WEDNESDAY"%string None
              (19732 * JsDate.MS_PER_DAY) 3 ltac:(discriminate) eq_refl
              ltac:(discriminate) eq_refl)
    as (k & Hk & Hdue & _ & _ & _ & _ & Hsame).
  exists k. split; [exact Hk|]. split; [exact Hdue|].
  exact (Hsame eq_refl).
Defined.

Lemma civil_yoe_bounds (doe : Z) :
  0 <= doe < 146097 ->
  let yoe := (doe - doe / 1460 + doe / 36524 - doe / 146096) / 365 in
  0 <= yoe <= 399 /\ 0 <= doe - (365 * yoe + yoe / 4 - yoe / 100) <= 365.
Proof. intros H yoe. subst yoe. Z.div_mod_to_equations. lia. Qed.

Lemma civil_mp_bounds (doy : Z) :
  0 <= doy <= 365 ->
  let mp := (5 * doy + 2) / 153 in
  0 <= mp <= 11 /\ 0 <= doy - (153 * mp + 2) / 5 <= 30.
Proof. intros H mp. subst mp. Z.div_mod_to_equations. lia. Qed.

(** The calendar of the [Date] model: a day number is the day number of its
    civil date, whose month and day are in range. *)
Lemma civil_round_trip (z : Z) :
  let '(y, m, d) := JsDate.civil_from_days z in
  JsDate.days_from_civil y m d = z /\ 1 <= m <= 12 /\ 1 <= d <= 31.
Proof.
  unfold JsDate.civil_from_days.
  set (z' := z + 719468).
  set (era := z' / 146097).
  set (doe := z' - era * 146097).
  assert (Hdoe : 0 <= doe < 146097) by (subst doe era; Z.div_mod_to_equations; lia).
  pose proof (civil_yoe_bounds doe Hdoe) as Hy. cbv zeta in Hy.
  set (yoe := (doe - doe / 1460 + doe / 36524 - doe / 146096) / 365) in *.
  set (doy := doe - (365 * yoe + yoe / 4 - yoe / 100)) in *.
  destruct Hy as [Hyoe Hdoy].
  pose proof (civil_mp_bounds doy Hdoy) as Hm. cbv zeta in Hm.
  set (mp := (5 * doy + 2) / 153) in *.
  destruct Hm as [Hmp Hd].
  unfold JsDate.days_from_civil.
  destruct (mp <? 10) eqn:E.
  - apply Z.ltb_lt in E.
    replace ((mp + 3 - 1) / 12) with 0 by (Z.div_mod_to_equations; lia).
    replace ((mp + 3 - 1) mod 12 + 1) with (mp + 3) by (Z.div_mod_to_equations; lia).
    replace (mp + 3 <=? 2) with false by (symmetry; apply Z.leb_gt; lia).
    replace (2 <? mp + 3) with true by (symmetry; apply Z.ltb_lt; lia).
    replace (mp + 3 - 3) with mp by lia.
    replace ((yoe + era * 400 + 0 + 0) / 400) with era by (Z.div_mod_to_equations; lia).
    replace (yoe + era * 400 + 0 + 0 - era * 400) with yoe by lia.
    subst doy doe z'. split; [lia|]. split; lia.
  - apply Z.ltb_ge in E.
    replace ((mp - 9 - 1) / 12) with 0 by (Z.div_mod_to_equations; lia).
    replace ((mp - 9 - 1) mod 12 + 1) with (mp - 9) by (Z.div_mod_to_equations; lia).
    replace (mp - 9 <=? 2) with true by (symmetry; apply Z.leb_le; lia).
    replace (2 <? mp - 9) with false by (symmetry; apply Z.ltb_ge; lia).
    replace (mp - 9 + 9) with mp by lia.
    replace (yoe + era * 400 + 1 + 0 - 1) with (yoe + era * 400) by lia.
    replace ((yoe + era * 400) / 400) with era by (Z.div_mod_to_equations; lia).
    replace (yoe + era * 400 - era * 400) with yoe by lia.
    subst doy doe z'. split; [lia|]. split; lia.
Qed.

Lemma civil_month_length (y m d : Z) :
  1 <= m <= 12 ->
  28 <= JsDate.days_from_civil y (m + 1) d - JsDate.days_from_civil y m d <= 31.
Proof.
  intros H. assert (Hm : m = 1 \/ m = 2 \/ m = 3 \/ m = 4 \/ m = 5 \/ m = 6 \/ m = 7
                        \/ m = 8 \/ m = 9 \/ m = 10 \/ m = 11 \/ m = 12) by lia.
  unfold JsDate.days_from_civil.
  repeat (destruct Hm as [-> | Hm]; [cbn; Z.div_mod_to_equations; lia|]).
  subst m. cbn. Z.div_mod_to_equations; lia.
Qed.

Lemma addMonth_shift (tz t : Z) :
  exists n : Z, 28 <= n <= 31 /\ JsDate.addMonth tz t = t + n * JsDate.MS_PER_DAY.
Proof.
  unfold JsDate.addMonth.
  pose proof (civil_round_trip (JsDate.local_day tz t)) as Hrt.
  destruct (JsDate.civil_from_days (JsDate.local_day tz t)) as [[y m] d].
  destruct Hrt as (Hday & Hm & _).
  pose proof (civil_month_length y m d Hm) as Hlen.
  exists (JsDate.days_from_civil y (m + 1) d - JsDate.days_from_civil y m d).
  split; [exact Hlen|].
  rewrite <- make_local_shift with (tz := tz). f_equal. lia.
Qed.

(** X18. After a generation the due date moves strictly forward and keeps
    its local time of day: by one day for a daily template, seven days for a
    weekly or custom one, and by the length of the current month — 28 to 31
    days — for a monthly one. *)
Theorem advance_moves_forward :
  forall (tz : Z) (freq : frequency) (t : Z),
    exists n : Z,
      Recurring.advance tz freq t = t + n * JsDate.MS_PER_DAY
      /\ JsDate.time_in_day tz (Recurring.advance tz freq t) = JsDate.time_in_day tz t
      /\ JsDate.local_day tz (Recurring.advance tz freq t) = JsDate.local_day tz t + n
      /\ t < Recurring.advance tz freq t
      /\ match freq with
         | daily => n = 1
         | weekly => n = 7
                     /\ JsDate.getDay tz (Recurring.advance tz freq t) = JsDate.getDay tz t
         | monthly => 28 <= n <= 31
         | custom => n = 7
         end.
Proof.
  intros tz freq t.
  assert (Hshape : exists n : Z,
            Recurring.advance tz freq t = t + n * JsDate.MS_PER_DAY
            /\ match freq with
               | daily => n = 1 | weekly => n = 7 | monthly => 28 <= n <= 31 | custom => n = 7
               end).
  { destruct freq; simpl.
    - exists 1. split; [apply addDays_shift | reflexivity].
    - exists 7. split; [apply addDays_shift | reflexivity].
    - destruct (addMonth_shift tz t) as (n & Hn & Heq). exists n. split; assumption.
    - exists 7. split; [apply addDays_shift | reflexivity]. }
  destruct Hshape as (n & Heq & Hn). exists n.
  split; [exact Heq|]. rewrite Heq.
  split; [apply time_in_day_shift|]. split; [apply local_day_shift|].
  split.
  - unfold JsDate.MS_PER_DAY. destruct freq; lia.
  - destruct freq; try exact Hn. split; [exact Hn|].
    unfold JsDate.getDay. rewrite local_day_shift. subst n.
    unfold JsDate.weekday_of_day. Z.div_mod_to_equations. lia.
Qed.

(** ** Which request writes which table *)

Lemma keeps_ret {A B : Type} (proj : tables -> B) (a : A) : keeps proj (ret a).
Proof. intros w. reflexivity. Qed.

Lemma keeps_throw {A B : Type} (proj : tables -> B) (e : Z) : keeps proj (@throw A e).
Proof. intros w. reflexivity. Qed.

Lemma keeps_bind {A A' B : Type} (proj : tables -> B) (m : M A) (k : A -> M A') :
  keeps proj m -> (forall a, keeps proj (k a)) -> keeps proj (bind m k).
Proof.
  intros Hm Hk w. unfold bind. specialize (Hm w).
  destruct (m w) as [[a|e] w1]; simpl in *; [|exact Hm].
  rewrite (Hk a w1). exact Hm.
Qed.

Lemma keeps_round_trip {B : Type} (proj : tables -> B) : keeps proj round_trip.
Proof. intros w. unfold round_trip. destruct (fault w) as [[|k]|]; reflexivity. Qed.

Lemma keeps_select {A B : Type} (proj : tables -> B) (q : tables -> A) :
  keeps proj (select q).
Proof.
  unfold select. apply keeps_bind; [apply keeps_round_trip | intros u w; reflexivity].
Qed.

Lemma keeps_modify {B : Type} (proj : tables -> B) (f : tables -> tables) :
  (forall t, proj (f t) = proj t) -> keeps proj (modify f).
Proof.
  intros H. unfold modify. apply keeps_bind; [apply keeps_round_trip|].
  intros u w. simpl. apply H.
Qed.

Lemma keeps_constrained {B : Type} (proj : tables -> B) (ok : tables -> bool) (m : M unit) :
  keeps proj m -> keeps proj (constrained ok m).
Proof. intros H w. unfold constrained. destruct (ok (rows w)); [apply H | reflexivity]. Qed.

Lemma keeps_insert_chore {B : Type} (proj : tables -> B) (mk : Z -> chore) :
  (forall t l, proj (set_chores t l) = proj t) -> keeps proj (insert_chore mk).
Proof.
  intros H. unfold insert_chore. apply keeps_bind; [apply keeps_round_trip|].
  intros u w. destruct (user_exists (rows w) (assigned_to (mk (seq_chore (seqs w)))));
    simpl; [apply H | reflexivity].
Qed.

Lemma keeps_insert_assignment {B : Type} (proj : tables -> B) (mk : Z -> chore_assignment) :
  (forall t l, proj (set_chore_assignments t l) = proj t) ->
  keeps proj (insert_assignment mk).
Proof.
  intros H. unfold insert_assignment. apply keeps_bind; [apply keeps_round_trip|].
  intros u w. simpl. apply H.
Qed.

Lemma keeps_insert_submission {B : Type} (proj : tables -> B) (mk : Z -> chore_submission) :
  (forall t l, proj (set_chore_submissions t l) = proj t) ->
  keeps proj (insert_submission mk).
Proof.
  intros H. unfold insert_submission. apply keeps_bind; [apply keeps_round_trip|].
  intros u w. simpl. apply H.
Qed.

Lemma keeps_transaction {A B : Type} (proj : tables -> B) (callback : M A) :
  keeps proj callback -> keeps proj (transaction callback).
Proof.
  intros H w. unfold transaction.
  assert (Hall : keeps proj (round_trip ;;; (r <- callback ;; (round_trip ;;; ret r)))).
  { apply keeps_bind; [apply keeps_round_trip|]. intros u.
    apply keeps_bind; [exact H|]. intros a.
    apply keeps_bind; [apply keeps_round_trip|]. intros u'. apply keeps_ret. }
  specialize (Hall w).
  destruct ((round_trip ;;; (r <- callback ;; (round_trip ;;; ret r))) w) as [[a|e] w1];
    simpl in *; [exact Hall | reflexivity].
Qed.

Lemma keeps_random_index {B : Type} (proj : tables -> B) (n : Z) :
  keeps proj (random_index n).
Proof. intros w. unfold random_index. destruct (entropy w); reflexivity. Qed.

(** Follows the structure of a handler down to its statements. *)
Ltac keeps_step :=
  first
    [ apply keeps_ret
    | apply keeps_throw
    | apply keeps_round_trip
    | apply keeps_select
    | apply keeps_random_index
    | apply keeps_transaction
    | apply keeps_constrained
    | apply keeps_insert_chore; solve [auto]
    | apply keeps_insert_assignment; solve [auto]
    | apply keeps_insert_submission; solve [auto]
    | apply keeps_modify; intro; solve [auto]
    | apply keeps_bind; [|intro]
    | progress cbv zeta
    | match goal with
      | |- keeps _ (if ?b then _ else _) => destruct b
      | |- keeps _ (match ?x with _ => _ end) => destruct x
      end ].

Ltac keeps_all := repeat keeps_step.

Section Untouched.

Context {B : Type} (proj : tables -> B) (Hproj : untouched proj).

Lemma keeps_create (now : Z) (caller : user) (b : Chores.create_body) :
  keeps proj (Chores.create now caller b).
Proof.
  destruct Hproj. unfold Chores.create, Chores.initialAssignedTo. keeps_all.
Qed.

Lemma keeps_update (caller : user) (id : Z) (p : Chores.patch_body) :
  keeps proj (Chores.update caller id p).
Proof.
  destruct Hproj. unfold Chores.update, Chores.checkChoreAccess. keeps_all.
Qed.

Lemma keeps_assign (now : Z) (caller : user) (id : Z) (userId : option Z) :
  keeps proj (Chores.assign now caller id userId).
Proof. destruct Hproj. unfold Chores.assign. keeps_all. Qed.

Lemma keeps_accept (now : Z) (caller : user) (id : Z) :
  keeps proj (Chores.accept now caller id).
Proof. destruct Hproj. unfold Chores.accept. keeps_all. Qed.

Lemma keeps_decline (now : Z) (caller : user) (id : Z) :
  keeps proj (Chores.decline now caller id).
Proof. destruct Hproj. unfold Chores.decline. keeps_all. Qed.

Lemma keeps_submit (now : Z) (caller : user) (id : Z) (file notes_ : option string) :
  keeps proj (Chores.submit now caller id file notes_).
Proof. destruct Hproj. unfold Chores.submit. keeps_all. Qed.

Lemma keeps_reject (now : Z) (caller : user) (id : Z) (feedback : option string) :
  keeps proj (Chores.reject now caller id feedback).
Proof. destruct Hproj. unfold Chores.reject. keeps_all. Qed.

End Untouched.

Lemma keeps_generation_loop {B : Type} (proj : tables -> B)
  (turn : recurring_chore -> M (option Z)) (l : list recurring_chore) :
  (forall rc, keeps proj (turn rc)) -> keeps proj (Recurring.generation_loop turn l).
Proof.
  intros Hturn. induction l as [|rc l IH]; simpl; [apply keeps_ret|].
  apply keeps_bind; [apply Hturn|]. intros g.
  apply keeps_bind; [exact IH|]. intros others. apply keeps_ret.
Qed.

Section Ungenerated.

Context {B : Type} (proj : tables -> B) (Hproj : untouched proj).
Hypothesis past_history : forall t l, proj (set_recurring_chore_history t l) = proj t.
Hypothesis past_templates : forall t l, proj (set_recurring_chores t l) = proj t.

Lemma keeps_materialize (tz now creator : Z) (rc : recurring_chore) (a : option Z) :
  keeps proj (Recurring.materialize tz now creator rc a).
Proof.
  destruct Hproj. unfold Recurring.materialize, insert_history. keeps_all.
Qed.

Lemma keeps_resolve_assignee (rc : recurring_chore) :
  keeps proj (Recurring.resolve_assignee rc).
Proof. unfold Recurring.resolve_assignee. keeps_all. Qed.

Lemma keeps_generate (tz now : Z) (caller : user) (recurringId : option Z) :
  keeps proj (Recurring.generate tz now caller recurringId).
Proof.
  unfold Recurring.generate.
  destruct (negb (role_eqb (u_role caller) parent)); [apply keeps_throw|].
  apply keeps_bind; [apply keeps_select|]. intros l.
  destruct l as [|rc l]; [apply keeps_ret|].
  apply keeps_bind; [|intros g; apply keeps_ret].
  apply keeps_generation_loop. intros rc0. unfold Recurring.generate_one.
  apply keeps_bind; [apply keeps_select|]. intros [h|]; [apply keeps_ret|].
  apply keeps_bind; [apply keeps_resolve_assignee|]. intros a.
  apply keeps_bind; [apply keeps_materialize|]. intros id.
  apply keeps_bind; [apply keeps_select|]. intros c. apply keeps_ret.
Qed.

Lemma keeps_generateRecurringChores (tz now : Z) :
  keeps proj (Recurring.generateRecurringChores tz now).
Proof.
  unfold Recurring.generateRecurringChores.
  apply keeps_bind; [apply keeps_select|]. intros l.
  destruct l as [|rc l]; [apply keeps_ret|].
  apply keeps_bind; [|intros g; apply keeps_ret].
  apply keeps_generation_loop. intros rc0. unfold Recurring.scheduled_one.
  apply keeps_bind; [apply keeps_select|]. intros [h|]; [apply keeps_ret|].
  apply keeps_bind; [apply keeps_resolve_assignee|]. intros a.
  apply keeps_bind; [apply keeps_materialize|]. intros id. apply keeps_ret.
Qed.

End Ungenerated.

Lemma keeps_delete {B : Type} (proj : tables -> B) (caller : user) (id : Z) :
  (forall t, proj (Chores.delete_chore id t) = proj t) ->
  keeps proj (Chores.delete caller id).
Proof. intros H. unfold Chores.delete. keeps_all. Qed.

Lemma keeps_approve {B : Type} (proj : tables -> B) (now : Z) (caller : user) (id : Z) :
  untouched proj ->
  (forall t l, proj (set_users t l) = proj t) ->
  (forall t l, proj (set_completed_tasks t l) = proj t) ->
  keeps proj (Chores.approve now caller id).
Proof.
  intros [H1 H2 H3] H4 H5.
  unfold Chores.approve, Chores.approve_writes, insert_completed_task. keeps_all.
Qed.

Lemma untouched_users : untouched users.
Proof. split; reflexivity. Qed.

Lemma untouched_completed_tasks : untouched completed_tasks.
Proof. split; reflexivity. Qed.

Lemma untouched_recurring_chores : untouched recurring_chores.
Proof. split; reflexivity. Qed.

Lemma untouched_families : untouched families.
Proof. split; reflexivity. Qed.

Lemma filter_nil {A : Type} (p : A -> bool) (l : list A) :
  (forall x, In x l -> p x = false) -> filter p l = [].
Proof.
  induction l as [|a l IH]; intros H; simpl; [reflexivity|].
  rewrite (H a (or_introl eq_refl)). apply IH. intros x Hx. apply H. now right.
Qed.

(** ** The rate limiter of the authentication routes *)

Lemma passed_within_window (maxAttempts windowMs : Z) (key : string) (times : list Z) :
  forall (m : Middleware.attempts) (c R : Z),
    m key = Some {| Middleware.count := c; Middleware.resetTime := R |} ->
    (forall t, In t times -> t <= R) ->
    fst (Middleware.passed maxAttempts windowMs m key times)
    = Nat.min (List.length times) (Z.to_nat (maxAttempts - c))
    /\ forall k, k <> key ->
         snd (Middleware.passed maxAttempts windowMs m key times) k = m k.
Proof.
  induction times as [|now later IH]; intros m c R Hm Hin; simpl.
  - split; [reflexivity | auto].
  - unfold Middleware.authRateLimit. rewrite Hm. simpl.
    assert (Hnow : (R <? now) = false)
      by (apply Z.ltb_ge; apply Hin; now left).
    rewrite Hnow.
    destruct (maxAttempts <=? c) eqn:Emax.
    + apply Z.leb_le in Emax.
      destruct (IH m c R Hm (fun t Ht => Hin t (or_intror Ht))) as [Hn Hk].
      destruct (Middleware.passed maxAttempts windowMs m key later) as [n m''].
      simpl in *. split; [|exact Hk].
      rewrite Hn. replace (Z.to_nat (maxAttempts - c)) with O by lia.
      now rewrite !Nat.min_0_r.
    + apply Z.leb_gt in Emax.
      set (m' := Middleware.set_attempt m key
                   {| Middleware.count := c + 1; Middleware.resetTime := R |}).
      assert (Hm' : m' key = Some {| Middleware.count := c + 1;
                                     Middleware.resetTime := R |}).
      { subst m'. unfold Middleware.set_attempt. now rewrite String.eqb_refl. }
      destruct (IH m' (c + 1) R Hm' (fun t Ht => Hin t (or_intror Ht))) as [Hn Hk].
      destruct (Middleware.passed maxAttempts windowMs m' key later) as [n m''].
      simpl in *. split.
      * rewrite Hn.
        replace (Z.to_nat (maxAttempts - c)) with (S (Z.to_nat (maxAttempts - (c + 1))))
          by lia.
        reflexivity.
      * intros k Hne. rewrite (Hk k Hne). subst m'. unfold Middleware.set_attempt.
        apply String.eqb_neq in Hne. now rewrite Hne.
Qed.

(** X23. The rate limiter lets through, of the requests of one client that
    arrive until the window opened by the first of them ends, exactly the
    first [maxAttempts] (at least 1) and refuses the rest; a client is in a
    new window when it has no entry or its entry has expired.  The entries
    of other clients are not touched. *)
Theorem rate_limit_per_window :
  forall (maxAttempts windowMs : Z) (m : Middleware.attempts) (key : string)
         (first : Z) (rest : list Z),
    1 <= maxAttempts ->
    (m key = None \/ exists a, m key = Some a /\ Middleware.resetTime a < first) ->
    (forall t, In t rest -> t <= first + windowMs) ->
    fst (Middleware.authRateLimit maxAttempts windowMs m key first) = Middleware.Next
    /\ fst (Middleware.passed maxAttempts windowMs m key (first :: rest))
       = Nat.min (S (List.length rest)) (Z.to_nat maxAttempts)
    /\ forall k, k <> key ->
         snd (Middleware.passed maxAttempts windowMs m key (first :: rest)) k = m k.
Proof.
  intros maxAttempts windowMs m key first rest Hmax Hnew Hin.
  set (m' := Middleware.set_attempt m key
               {| Middleware.count := 1; Middleware.resetTime := first + windowMs |}).
  assert (Hfirst : Middleware.authRateLimit maxAttempts windowMs m key first
                   = (Middleware.Next, m')).
  { unfold Middleware.authRateLimit.
    destruct Hnew as [-> | (a & -> & Ha)]; [reflexivity|].
    apply Z.ltb_lt in Ha. now rewrite Ha. }
  assert (Hm' : m' key = Some {| Middleware.count := 1;
                                 Middleware.resetTime := first + windowMs |}).
  { subst m'. unfold Middleware.set_attempt. now rewrite String.eqb_refl. }
  destruct (passed_within_window maxAttempts windowMs key rest m' 1 (first + windowMs)
              Hm' Hin) as [Hn Hk].
  split; [now rewrite Hfirst|].
  simpl. rewrite Hfirst.
  destruct (Middleware.passed maxAttempts windowMs m' key rest) as [n m''].
  simpl in *. split.
  - rewrite Hn.
    replace (Z.to_nat maxAttempts) with (S (Z.to_nat (maxAttempts - 1))) by lia.
    reflexivity.
  - intros k Hne. rewrite (Hk k Hne). subst m'. unfold Middleware.set_attempt.
    apply String.eqb_neq in Hne. now rewrite Hne.
Qed.

Lemma rate_limit_per_window_witness :
  fst (Middleware.authRateLimit 5 900000 Middleware.no_attempts "10.0.0.1"%string 0)
  = Middleware.Next
  /\ fst (Middleware.passed 5 900000 Middleware.no_attempts "10.0.0.1"%string
            [0; 10; 20; 30; 40; 50; 900000])
     = 5%nat.
Proof.
  destruct (rate_limit_per_window 5 900000 Middleware.no_attempts "10.0.0.1"%string 0
              [10; 20; 30; 40; 50; 900000]) as (Hfirst & Hcount & _).
  - lia.
  - left. reflexivity.
  - intros t Ht. simpl in Ht.
    repeat (destruct Ht as [<-|Ht]; [lia|]). contradiction.
  - split; [exact Hfirst | exact Hcount].
Defined.

(** ** Family codes *)

Lemma random_index_in_range (n r : Z) :
  0 < n -> 0 <= r < RANDOM_SCALE -> 0 <= r * n / RANDOM_SCALE < n.
Proof.
  intros Hn Hr. unfold RANDOM_SCALE in *.
  assert (Hpos : 0 < 2 ^ 53) by (apply Z.pow_pos_nonneg; lia).
  split.
  - apply Z.div_pos; nia.
  - apply Z.div_lt_upper_bound; nia.
Qed.

Lemma charAt_chars (i : Z) :
  0 <= i < 36 ->
  exists c, Middleware.charAt Middleware.chars i = String c EmptyString
            /\ Middleware.alphanumeric c = true.
Proof.
  intros Hi. unfold Middleware.charAt.
  replace (i <? 0) with false by (symmetry; apply Z.ltb_ge; lia).
  assert (Hk : (Z.to_nat i < 36)%nat) by lia.
  remember (Z.to_nat i) as k eqn:Ek. clear Ek Hi.
  do 36 (destruct k as [|k]; [eexists; split; reflexivity|]). lia.
Qed.

Lemma length_append (a b : string) :
  String.length (String.append a b) = (String.length a + String.length b)%nat.
Proof. induction a as [|c a IH]; simpl; [reflexivity | now rewrite IH]. Qed.

Lemma list_ascii_of_append (a b : string) :
  list_ascii_of_string (String.append a b)
  = list_ascii_of_string a ++ list_ascii_of_string b.
Proof. induction a as [|c a IH]; simpl; [reflexivity | now rewrite IH]. Qed.

(** The loop of [generateFamilyCode] appends [n] characters of [chars] and
    reads nothing but random draws. *)
Lemma append_random_chars_spec (n : nat) :
  forall (result : string) (w : world),
    Forall (fun r => 0 <= r < RANDOM_SCALE) (entropy w) ->
    forallb Middleware.alphanumeric (list_ascii_of_string result) = true ->
    exists (code : string) (w' : world),
      Middleware.append_random_chars n result w = (Ok code, w')
      /\ rows w' = rows w /\ seqs w' = seqs w /\ fault w' = fault w
      /\ Forall (fun r => 0 <= r < RANDOM_SCALE) (entropy w')
      /\ String.length code = (String.length result + n)%nat
      /\ forallb Middleware.alphanumeric (list_ascii_of_string code) = true.
Proof.
  induction n as [|n IH]; intros result w Hdraws Hres; simpl.
  - exists result, w. unfold ret. repeat split; auto.
  - unfold bind, random_index.
    assert (Hstep : forall i w1,
              0 <= i < 36 ->
              rows w1 = rows w -> seqs w1 = seqs w -> fault w1 = fault w ->
              Forall (fun r => 0 <= r < RANDOM_SCALE) (entropy w1) ->
              exists (code : string) (w' : world),
                Middleware.append_random_chars n
                  (String.append result (Middleware.charAt Middleware.chars i)) w1
                = (Ok code, w')
                /\ rows w' = rows w /\ seqs w' = seqs w /\ fault w' = fault w
                /\ Forall (fun r => 0 <= r < RANDOM_SCALE) (entropy w')
                /\ String.length code = (String.length result + S n)%nat
                /\ forallb Middleware.alphanumeric (list_ascii_of_string code) = true).
    { intros i w1 Hi Hr Hs Hf Hd.
      destruct (charAt_chars i Hi) as (c & Hc & Halpha).
      destruct (IH (String.append result (Middleware.charAt Middleware.chars i)) w1 Hd)
        as (code & w' & Hrun & Hr' & Hs' & Hf' & Hd' & Hlen & Hok).
      { rewrite list_ascii_of_append, forallb_app, Hres, Hc. simpl. now rewrite Halpha. }
      exists code, w'. split; [exact Hrun|].
      split; [congruence|]. split; [congruence|]. split; [congruence|].
      split; [exact Hd'|]. split; [|exact Hok].
      rewrite Hlen, length_append, Hc. simpl. lia. }
    destruct (entropy w) as [|r e] eqn:He.
    + apply Hstep; auto. lia. rewrite He. constructor.
    + inversion Hdraws as [|r0 e0 Hr0 He0]; subst.
      apply Hstep; auto.
      apply (random_index_in_range 36 r); [lia | exact Hr0].
Qed.

(** X24. A generated family code has 8 characters, all capital letters or
    digits, so it passes [validateFamilyCode]; generating it reads and
    writes no row.  The draws are those of [Math.random], in [0, 1). *)
Theorem generated_family_code_is_valid :
  forall w : world,
    Forall (fun r => 0 <= r < RANDOM_SCALE) (entropy w) ->
    exists (code : string) (w' : world),
      Middleware.generateFamilyCode w = (Ok code, w')
      /\ rows w' = rows w
      /\ fault w' = fault w
      /\ String.length code = 8%nat
      /\ Middleware.family_code_format code = true
      /\ Middleware.validateFamilyCode (Some code) w' = (Ok tt, w').
Proof.
  intros w Hdraws.
  destruct (append_random_chars_spec 8 EmptyString w Hdraws eq_refl)
    as (code & w' & Hrun & Hrows & _ & Hfault & _ & Hlen & Hok).
  exists code, w'. simpl in Hlen.
  assert (Hformat : Middleware.family_code_format code = true).
  { unfold Middleware.family_code_format. now rewrite Hlen, Hok. }
  split; [exact Hrun|]. split; [exact Hrows|]. split; [exact Hfault|].
  split; [exact Hlen|]. split; [exact Hformat|].
  unfold Middleware.validateFamilyCode.
  destruct code as [|c s]; [discriminate|]. now rewrite Hformat.
Qed.

Lemma generated_family_code_is_valid_witness :
  exists (code : string) (w' : world),
    Middleware.generateFamilyCode
      (set_entropy (Sample.world_with None) [0; RANDOM_SCALE - 1; 2 ^ 52])
    = (Ok code, w')
    /\ code = "A9SAAAAA"%string
    /\ Middleware.family_code_format code = true.
Proof.
  destruct (generated_family_code_is_valid
              (set_entropy (Sample.world_with None) [0; RANDOM_SCALE - 1; 2 ^ 52]))
    as (code & w' & Hrun & _ & _ & _ & Hformat & _).
  - simpl. repeat constructor; vm_compute; congruence.
  - exists code, w'. split; [exact Hrun|]. split; [|exact Hformat].
    vm_compute in Hrun. congruence.
Defined.

Lemma round_trip_frame (w : world) :
  rows (snd (round_trip w)) = rows w /\ entropy (snd (round_trip w)) = entropy w.
Proof. unfold round_trip. destruct (fault w) as [[|k]|]; split; reflexivity. Qed.

Lemma unique_code_attempts_spec (same_text : string -> string -> bool) (n : nat) :
  forall w : world,
    Forall (fun r => 0 <= r < RANDOM_SCALE) (entropy w) ->
    exists (r : result string) (w' : world),
      Middleware.unique_code_attempts same_text n w = (r, w')
      /\ rows w' = rows w
      /\ match r with
         | Ok code =>
             Middleware.family_code_format code = true
             /\ forall f, In f (families (rows w)) -> same_text (family_code f) code = false
         | Throw e => e = 500
         end.
Proof.
  induction n as [|n IH]; intros w Hdraws.
  - exists (Throw 500), w. simpl. auto.
  - cbn [Middleware.unique_code_attempts].
    destruct (append_random_chars_spec 8 EmptyString w Hdraws eq_refl)
      as (code & w1 & Hrun & Hrows & _ & _ & Hdraws1 & Hlen & Hok).
    unfold Middleware.generateFamilyCode, Middleware.checkFamilyCodeUnique.
    unfold select. unfold bind, ret.
    rewrite Hrun.
    destruct (round_trip_frame w1) as [Hrows2 Hent2].
    destruct (round_trip w1) as [[u|e] w2] eqn:Ert; simpl in Hrows2, Hent2.
    + destruct (filter (fun f => same_text (family_code f) code) (families (rows w2)))
        as [|f0 fs] eqn:Efilter.
      * exists (Ok code), w2. split; [reflexivity|]. split; [congruence|]. split.
        -- unfold Middleware.family_code_format. simpl in Hlen. now rewrite Hlen, Hok.
        -- intros f Hf.
           destruct (same_text (family_code f) code) eqn:Esame; [|reflexivity].
           exfalso.
           assert (Hin : In f (filter (fun f => same_text (family_code f) code)
                                      (families (rows w2)))).
           { apply filter_In. split; [|exact Esame]. now rewrite Hrows2, Hrows. }
           rewrite Efilter in Hin. contradiction.
      * assert (Hdraws2 : Forall (fun r => 0 <= r < RANDOM_SCALE) (entropy w2))
          by (now rewrite Hent2).
        destruct (IH w2 Hdraws2) as (r & w' & Hrec & Hr & Hres).
        exists r, w'. split; [exact Hrec|]. split; [congruence|].
        destruct r as [c|e']; [|exact Hres].
        destruct Hres as [Hfmt Hnone]. split; [exact Hfmt|].
        intros f Hf. apply Hnone. now rewrite Hrows2, Hrows.
    + exists (Throw e), w2. split; [reflexivity|]. split; [congruence|].
      unfold round_trip in Ert. destruct (fault w1) as [[|k]|]; inversion Ert. reflexivity.
Qed.

(** X25. [generateUniqueFamilyCode] either returns a well-formed code that no
    family row carries (under the column's collation), or throws 500 — after
    ten codes that were all taken, or on a failed round trip; it writes no
    row either way. *)
Theorem unique_family_code_is_fresh :
  forall (same_text : string -> string -> bool) (w : world),
    Forall (fun r => 0 <= r < RANDOM_SCALE) (entropy w) ->
    rows (snd (Middleware.generateUniqueFamilyCode same_text w)) = rows w
    /\ match fst (Middleware.generateUniqueFamilyCode same_text w) with
       | Ok code =>
           Middleware.family_code_format code = true
           /\ forall f, In f (families (rows w)) -> same_text (family_code f) code = false
       | Throw e => e = 500
       end.
Proof.
  intros same_text w Hdraws. unfold Middleware.generateUniqueFamilyCode.
  destruct (unique_code_attempts_spec same_text 10 w Hdraws) as (r & w' & Hrun & Hrows & Hres).
  rewrite Hrun. split; assumption.
Qed.

Lemma unique_family_code_is_fresh_witness :
  rows (snd (Middleware.generateUniqueFamilyCode String.eqb
               (set_entropy (Sample.world_with None) [2 ^ 52])))
  = Sample.home
  /\ match fst (Middleware.generateUniqueFamilyCode String.eqb
                  (set_entropy (Sample.world_with None) [2 ^ 52])) with
     | Ok code =>
         Middleware.family_code_format code = true
         /\ forall f, In f (families Sample.home) -> String.eqb (family_code f) code = false
     | Throw e => e = 500
     end.
Proof.
  apply (unique_family_code_is_fresh String.eqb
           (set_entropy (Sample.world_with None) [2 ^ 52])).
  simpl. repeat constructor; vm_compute; congruence.
Defined.


(* ------------------------------------------------------------------ *)
(** * One generation per template and due day *)

(** ** The history grows by at most one row per turn *)

Lemma appends_after {A A' : Type} (P : history_entry -> Prop) (m : M A) (k : A -> M A') :
  keeps recurring_chore_history m ->
  (forall a, appends_once P (k a)) ->
  appends_once P (bind m k).
Proof.
  intros Hm Hk w. unfold bind. specialize (Hm w).
  destruct (m w) as [[a|e] w1]; simpl in *; [|left; exact Hm].
  rewrite <- Hm. apply Hk.
Qed.

Lemma appends_before {A A' : Type} (P : history_entry -> Prop) (m : M A) (k : A -> M A') :
  appends_once P m ->
  (forall a, keeps recurring_chore_history (k a)) ->
  appends_once P (bind m k).
Proof.
  intros Hm Hk w. unfold bind. specialize (Hm w).
  destruct (m w) as [[a|e] w1]; simpl in *; [|exact Hm].
  rewrite (Hk a w1). exact Hm.
Qed.

Lemma appends_insert_history (P : history_entry -> Prop) (h : history_entry) :
  P h -> appends_once P (insert_history h).
Proof.
  intros HP w. unfold insert_history, modify, bind, round_trip.
  destruct (fault w) as [[|k]|]; simpl;
    [left; reflexivity | right; exists h; auto | right; exists h; auto].
Qed.

(** The writes of one generation add at most one history row, and that row
    is of the template and its due date. *)
Lemma materialize_appends (tz now creator : Z) (rc : recurring_chore) (a : option Z) :
  appends_once (fun h => h_recurring_id h = r_id rc /\ h_due_date h = next_due_date rc)
    (Recurring.materialize tz now creator rc a).
Proof.
  unfold Recurring.materialize.
  apply appends_after; [apply keeps_insert_chore; auto|]. intros id.
  apply appends_after; [destruct (Js.or_null a); keeps_all|]. intros _.
  apply appends_before; [apply appends_insert_history; split; reflexivity|].
  intros _. keeps_all.
Qed.

Lemma filter_snoc {A : Type} (p : A -> bool) (l : list A) (x : A) :
  filter p (l ++ [x]) = filter p l ++ (if p x then [x] else []).
Proof. rewrite filter_app. reflexivity. Qed.

(** A turn behind the guard adds a history row of a template and a day only
    when there was none. *)
Lemma turn_guarded (id day : Z) (rc : recurring_chore) (rest : M (option Z)) :
  appends_once (fun h => h_recurring_id h = r_id rc /\ h_due_date h = next_due_date rc) rest ->
  day_guarded id day
    (existing <- select (fun t => Recurring.existingHistory t rc) ;;
     match existing with
     | Some _ => ret None
     | None => rest
     end).
Proof.
  intros Hrest w. unfold select, bind.
  destruct (round_trip w) as [[[]|e] w0] eqn:Hrt;
    destruct (round_trip_rows _ _ _ Hrt) as [Hrows _]; simpl;
    [|left; now rewrite Hrows].
  destruct (Recurring.existingHistory (rows w0) rc) as [h0|] eqn:Hex;
    [left; unfold ret; simpl; now rewrite Hrows|].
  rewrite <- Hrows.
  destruct (Hrest w0) as [Hsame|(h & Happ & Hid & Hdue)]; [left; now rewrite Hsame|].
  rewrite Happ, filter_snoc.
  destruct (on_day id day h) eqn:Hon; [|left; apply app_nil_r].
  right. unfold on_day in Hon. apply andb_prop in Hon as [Hi Hd].
  apply Z.eqb_eq in Hi. apply Z.eqb_eq in Hd.
  assert (Hnone : filter (on_day id day) (recurring_chore_history (rows w0)) = []).
  { apply filter_nil. intros h0 Hin.
    unfold Recurring.existingHistory in Hex.
    pose proof (find_none _ _ Hex h0 Hin) as Hno. unfold on_day.
    now rewrite <- Hi, <- Hd, Hid, Hdue. }
  rewrite Hnone. split; [reflexivity|]. exists h. reflexivity.
Qed.

Lemma day_guarded_keeps {A : Type} (id day : Z) (m : M A) :
  keeps recurring_chore_history m -> day_guarded id day m.
Proof. intros H w. left. now rewrite (H w). Qed.

Lemma day_guarded_bind {A A' : Type} (id day : Z) (m : M A) (k : A -> M A') :
  day_guarded id day m ->
  (forall a, day_guarded id day (k a)) ->
  day_guarded id day (bind m k).
Proof.
  intros Hm Hk w. unfold bind. specialize (Hm w).
  destruct (m w) as [[a|e] w1]; simpl in *; [|exact Hm].
  destruct (Hk a w1) as [Hsame|(Hnone & h & Hone)].
  - rewrite Hsame. exact Hm.
  - destruct Hm as [Hm|(Hm & h' & Hone')].
    + right. split; [now rewrite <- Hm | now exists h].
    + rewrite Hone' in Hnone. discriminate.
Qed.

Lemma day_guarded_loop (id day : Z) (turn : recurring_chore -> M (option Z))
  (l : list recurring_chore) :
  (forall rc, day_guarded id day (turn rc)) ->
  day_guarded id day (Recurring.generation_loop turn l).
Proof.
  intros Hturn. induction l as [|rc l IH]; simpl.
  - apply day_guarded_keeps, keeps_ret.
  - apply day_guarded_bind; [apply Hturn|]. intros g.
    apply day_guarded_bind; [exact IH|]. intros others.
    apply day_guarded_keeps, keeps_ret.
Qed.

Lemma keeps_history_resolve_assignee (rc : recurring_chore) :
  keeps recurring_chore_history (Recurring.resolve_assignee rc).
Proof. unfold Recurring.resolve_assignee. keeps_all. Qed.

Lemma day_guarded_generate (id day tz now : Z) (caller : user) (recurringId : option Z) :
  day_guarded id day (Recurring.generate tz now caller recurringId).
Proof.
  unfold Recurring.generate.
  destruct (negb (role_eqb (u_role caller) parent));
    [apply day_guarded_keeps, keeps_throw|].
  apply day_guarded_bind; [apply day_guarded_keeps, keeps_select|]. intros l.
  destruct l as [|rc l]; [apply day_guarded_keeps, keeps_ret|].
  apply day_guarded_bind; [|intros g; apply day_guarded_keeps, keeps_ret].
  apply day_guarded_loop. intros rc0. unfold Recurring.generate_one.
  apply turn_guarded.
  apply appends_after; [apply keeps_history_resolve_assignee|]. intros a.
  apply appends_before; [apply materialize_appends|]. intros insertId. keeps_all.
Qed.

Lemma day_guarded_scheduler (id day tz now : Z) :
  day_guarded id day (Recurring.generateRecurringChores tz now).
Proof.
  unfold Recurring.generateRecurringChores.
  apply day_guarded_bind; [apply day_guarded_keeps, keeps_select|]. intros l.
  destruct l as [|rc l]; [apply day_guarded_keeps, keeps_ret|].
  apply day_guarded_bind; [|intros g; apply day_guarded_keeps, keeps_ret].
  apply day_guarded_loop. intros rc0. unfold Recurring.scheduled_one.
  apply turn_guarded.
  apply appends_after; [apply keeps_history_resolve_assignee|]. intros a.
  apply appends_before; [apply materialize_appends|]. intros insertId. keeps_all.
Qed.

(** Generation requests, however many, by whomever, with whichever round
    trip failing: the rows of a template and a day stay as they are, or the
    first one is added. *)
Lemma generation_keeps_day (id day : Z) (w0 w : world) :
  Api.reachable generates w0 w ->
  filter (on_day id day) (recurring_chore_history (rows w))
  = filter (on_day id day) (recurring_chore_history (rows w0))
  \/ (filter (on_day id day) (recurring_chore_history (rows w0)) = []
      /\ exists h, filter (on_day id day) (recurring_chore_history (rows w)) = [h]).
Proof.
  induction 1 as [|w tz now caller r f e Hreach IH Hallowed]; [now left|].
  assert (Hstep :
    filter (on_day id day)
      (recurring_chore_history
         (rows (Api.handle tz now caller r (set_entropy (set_fault w f) e))))
    = filter (on_day id day) (recurring_chore_history (rows w))
    \/ (filter (on_day id day) (recurring_chore_history (rows w)) = []
        /\ exists h,
             filter (on_day id day)
               (recurring_chore_history
                  (rows (Api.handle tz now caller r (set_entropy (set_fault w f) e))))
             = [h])).
  { destruct r; try discriminate Hallowed; simpl.
    - apply (day_guarded_generate id day tz now caller recurringId
               (set_entropy (set_fault w f) e)).
    - apply (day_guarded_scheduler id day tz now (set_entropy (set_fault w f) e)). }
  destruct Hstep as [Hsame|(Hnone & h & Hone)].
  - rewrite Hsame. exact IH.
  - destruct IH as [IH|(IH & h' & Hone')].
    + right. split; [now rewrite <- IH | now exists h].
    + rewrite Hone' in Hnone. discriminate.
Qed.

(** ** Generation only appends chores *)

Lemma extends_ret {A : Type} (a : A) : extends_chores (ret a).
Proof. intros w. exists []. simpl. now rewrite app_nil_r. Qed.

Lemma extends_keeps {A : Type} (m : M A) : keeps chores m -> extends_chores m.
Proof. intros H w. exists []. rewrite (H w). now rewrite app_nil_r. Qed.

Lemma extends_bind {A A' : Type} (m : M A) (k : A -> M A') :
  extends_chores m -> (forall a, extends_chores (k a)) -> extends_chores (bind m k).
Proof.
  intros Hm Hk w. unfold bind. destruct (Hm w) as (more & Hmore).
  destruct (m w) as [[a|e] w1]; simpl in *; [|now exists more].
  destruct (Hk a w1) as (more' & Hmore'). exists (more ++ more').
  now rewrite Hmore', Hmore, app_assoc.
Qed.

Lemma extends_insert_chore (mk : Z -> chore) : extends_chores (insert_chore mk).
Proof.
  intros w. unfold insert_chore, bind.
  destruct (round_trip w) as [[[]|e] w0] eqn:Hrt;
    destruct (round_trip_rows _ _ _ Hrt) as [Hrows _]; simpl;
    [|exists []; now rewrite Hrows, app_nil_r].
  destruct (user_exists (rows w0) (assigned_to (mk (seq_chore (seqs w0))))); simpl.
  - exists [mk (seq_chore (seqs w0))]. now rewrite Hrows.
  - exists []. now rewrite Hrows, app_nil_r.
Qed.

Lemma extends_loop (turn : recurring_chore -> M (option Z)) (l : list recurring_chore) :
  (forall rc, extends_chores (turn rc)) ->
  extends_chores (Recurring.generation_loop turn l).
Proof.
  intros Hturn. induction l as [|rc l IH]; simpl; [apply extends_ret|].
  apply extends_bind; [apply Hturn|]. intros g.
  apply extends_bind; [exact IH|]. intros others. apply extends_ret.
Qed.

Lemma extends_materialize (tz now creator : Z) (rc : recurring_chore) (a : option Z) :
  extends_chores (Recurring.materialize tz now creator rc a).
Proof.
  unfold Recurring.materialize.
  apply extends_bind; [apply extends_insert_chore|]. intros id.
  apply extends_keeps. unfold insert_history. destruct (Js.or_null a); keeps_all.
Qed.

Lemma keeps_chores_resolve_assignee (rc : recurring_chore) :
  keeps chores (Recurring.resolve_assignee rc).
Proof. unfold Recurring.resolve_assignee. keeps_all. Qed.

Lemma extends_generate (tz now : Z) (caller : user) (recurringId : option Z) :
  extends_chores (Recurring.generate tz now caller recurringId).
Proof.
  unfold Recurring.generate.
  destruct (negb (role_eqb (u_role caller) parent)); [apply extends_keeps, keeps_throw|].
  apply extends_bind; [apply extends_keeps, keeps_select|]. intros l.
  destruct l as [|rc l]; [apply extends_ret|].
  apply extends_bind; [|intros g; apply extends_ret].
  apply extends_loop. intros rc0. unfold Recurring.generate_one.
  apply extends_bind; [apply extends_keeps, keeps_select|]. intros [h|]; [apply extends_ret|].
  apply extends_bind; [apply extends_keeps, keeps_chores_resolve_assignee|]. intros a.
  apply extends_bind; [apply extends_materialize|]. intros id.
  apply extends_keeps. keeps_all.
Qed.

Lemma extends_scheduler (tz now : Z) :
  extends_chores (Recurring.generateRecurringChores tz now).
Proof.
  unfold Recurring.generateRecurringChores.
  apply extends_bind; [apply extends_keeps, keeps_select|]. intros l.
  destruct l as [|rc l]; [apply extends_ret|].
  apply extends_bind; [|intros g; apply extends_ret].
  apply extends_loop. intros rc0. unfold Recurring.scheduled_one.
  apply extends_bind; [apply extends_keeps, keeps_select|]. intros [h|]; [apply extends_ret|].
  apply extends_bind; [apply extends_keeps, keeps_chores_resolve_assignee|]. intros a.
  apply extends_bind; [apply extends_materialize|]. intros id. apply extends_ret.
Qed.

Lemma generation_extends_chores (w0 w : world) :
  Api.reachable generates w0 w ->
  exists more, chores (rows w) = chores (rows w0) ++ more.
Proof.
  induction 1 as [|w tz now caller r f e Hreach IH Hallowed];
    [exists []; now rewrite app_nil_r|].
  destruct IH as (more & IH).
  assert (Hstep : exists more',
    chores (rows (Api.handle tz now caller r (set_entropy (set_fault w f) e)))
    = chores (rows w) ++ more').
  { destruct r; try discriminate Hallowed; simpl.
    - apply (extends_generate tz now caller recurringId (set_entropy (set_fault w f) e)).
    - apply (extends_scheduler tz now (set_entropy (set_fault w f) e)). }
  destruct Hstep as (more' & Hstep). exists (more ++ more').
  now rewrite Hstep, IH, app_assoc.
Qed.

(** ** The two calls in succession *)

Lemma advance_later_day (tz : Z) (freq : frequency) (t : Z) :
  JsDate.DATE t < JsDate.DATE (Recurring.advance tz freq t).
Proof.
  assert (Hshape : exists n : Z,
            1 <= n /\ Recurring.advance tz freq t = t + n * JsDate.MS_PER_DAY).
  { destruct freq; simpl.
    - exists 1. split; [lia | apply addDays_shift].
    - exists 7. split; [lia | apply addDays_shift].
    - destruct (addMonth_shift tz t) as (n & Hn & Heq). exists n. split; [lia | exact Heq].
    - exists 7. split; [lia | apply addDays_shift]. }
  destruct Hshape as (n & Hn & ->). unfold JsDate.DATE.
  rewrite Z.div_add by (unfold JsDate.MS_PER_DAY; lia). lia.
Qed.

(** The call for one template, when the query finds it: the loop has the one
    turn. *)
Lemma generate_selected (tz now : Z) (caller : user) (x : recurring_chore) (v : world) :
  u_role caller = parent ->
  r_id x <> 0 ->
  NoDup (map r_id (recurring_chores (rows v))) ->
  In x (recurring_chores (rows v)) ->
  r_family_id x = u_family_id caller ->
  r_is_active x = true ->
  fault v = None ->
  Recurring.generate tz now caller (Some (r_id x)) v
  = match Recurring.generate_one tz now caller x v with
    | (Ok (Some _), v') => (Ok (200, 1), v')
    | (Ok None, v') => (Ok (200, 0), v')
    | (Throw e, v') => (Throw e, v')
    end.
Proof.
  intros Hrole Hid Hnd Hin Hfam Hact Hfault.
  assert (Hquery :
            filter (fun y => (r_id y =? r_id x) && (r_family_id y =? u_family_id caller)
                             && r_is_active y)
                   (recurring_chores (rows v)) = [x]).
  { apply (filter_unique r_id); auto.
    - now rewrite Hfam, Hact, !Z.eqb_refl.
    - intros y Hy. apply andb_prop in Hy as [Hy _]. apply andb_prop in Hy as [Hy _].
      now apply Z.eqb_eq in Hy. }
  assert (Hparam : Js.or_null (Some (r_id x)) = Some (r_id x)).
  { unfold Js.or_null, Js.truthy_opt, Js.truthy. apply Z.eqb_neq in Hid. now rewrite Hid. }
  unfold Recurring.generate. rewrite Hrole. simpl.
  unfold bind at 1. unfold select at 1. unfold bind at 1.
  rewrite (round_trip_no_fault v Hfault). rewrite Hparam, Hquery.
  unfold bind at 1. simpl. unfold bind at 1.
  destruct (Recurring.generate_one tz now caller x v) as [[[id|]|e] v']; reflexivity.
Qed.

(** A turn for a template whose due day has no history row yet, with no
    round trip failing. *)
Lemma generate_one_fresh (tz now : Z) (caller : user) (x : recurring_chore) (v : world) :
  Recurring.existingHistory (rows v) x = None ->
  members_readable x ->
  (forall a, In a (candidates x) -> user_exists (rows v) (Some a) = true) ->
  fault v = None ->
  exists (a : option Z) (v' : world),
    let c := Recurring.generated_chore now (u_id caller) x a (seq_chore (seqs v)) in
    Recurring.generate_one tz now caller x v = (Ok (Some (c_id c)), v')
    /\ fault v' = None
    /\ chores (rows v') = chores (rows v) ++ [c]
    /\ recurring_chore_history (rows v')
       = recurring_chore_history (rows v)
         ++ [ {| h_recurring_id := r_id x; h_chore_id := c_id c;
                 h_due_date := next_due_date x; h_status := generated;
                 h_assigned_to := a |} ]
    /\ recurring_chores (rows v')
       = Chores.update_where (fun r => r_id r =? r_id x)
           (fun r => Recurring.reschedule now r
                       (Recurring.advance tz (r_frequency x) (next_due_date x)))
           (recurring_chores (rows v))
    /\ users (rows v') = users (rows v).
Proof.
  intros Hfresh Hread Hfk Hfault.
  destruct (resolve_assignee_no_fault x v Hfault Hread)
    as (a & va & Hres & Hrows & Hseqs & Hfa & Hcand).
  assert (Hfk' : user_exists (rows va) a = true).
  { rewrite Hrows. destruct Hcand as [->|(y & -> & Hy)]; [reflexivity | now apply Hfk]. }
  exists a.
  assert (Hrun : exists v',
    Recurring.materialize tz now (u_id caller) x a va
    = (Ok (seq_chore (seqs va)), v')
    /\ fault v' = None
    /\ chores (rows v')
       = chores (rows va)
         ++ [Recurring.generated_chore now (u_id caller) x a (seq_chore (seqs va))]
    /\ recurring_chore_history (rows v')
       = recurring_chore_history (rows va)
         ++ [ {| h_recurring_id := r_id x; h_chore_id := seq_chore (seqs va);
                 h_due_date := next_due_date x; h_status := generated;
                 h_assigned_to := a |} ]
    /\ recurring_chores (rows v')
       = Chores.update_where (fun r => r_id r =? r_id x)
           (fun r => Recurring.reschedule now r
                       (Recurring.advance tz (r_frequency x) (next_due_date x)))
           (recurring_chores (rows va))
    /\ users (rows v') = users (rows va)).
  { clear Hres Hrows Hseqs Hcand. destruct va as [t sq f e]. simpl in *. subst f.
    unfold Recurring.materialize. unfold_gateway. simpl. rewrite Hfk'.
    destruct a as [y|]; [destruct (Js.truthy y) eqn:Hy|];
      unfold Js.or_null, Js.truthy_opt; rewrite ?Hy; simpl;
      eexists; (split; [reflexivity|]); simpl; repeat split; reflexivity. }
  destruct Hrun as (v' & Hmat & Hf' & Hchores & Hhist & Htemplates & Husers).
  exists v'. cbv zeta. simpl c_id. rewrite <- Hseqs, <- Hrows.
  split; [|repeat split; assumption].
  unfold Recurring.generate_one. unfold bind at 1. unfold select at 1. unfold bind at 1.
  rewrite (round_trip_no_fault v Hfault), Hfresh.
  unfold bind at 1. rewrite Hres. unfold bind at 1. rewrite Hmat.
  unfold select, bind, ret. rewrite (round_trip_no_fault v' Hf'). reflexivity.
Qed.

Lemma no_row_on_day (t : tables) (x : recurring_chore) :
  (forall h0, In h0 (recurring_chore_history t) ->
     h_recurring_id h0 = r_id x ->
     JsDate.DATE (h_due_date h0) <> JsDate.DATE (next_due_date x)) ->
  Recurring.existingHistory t x = None
  /\ filter (on_day (r_id x) (JsDate.DATE (next_due_date x))) (recurring_chore_history t) = [].
Proof.
  intros H.
  assert (Hall : forall h0, In h0 (recurring_chore_history t) ->
            (h_recurring_id h0 =? r_id x)
            && (JsDate.DATE (h_due_date h0) =? JsDate.DATE (next_due_date x)) = false).
  { intros h0 Hin. destruct (h_recurring_id h0 =? r_id x) eqn:Ei; [|reflexivity].
    apply Z.eqb_eq in Ei. simpl. apply Z.eqb_neq. now apply H. }
  split; [now apply find_none_iff | now apply filter_nil].
Qed.

Lemma row_on_day (t : tables) (x : recurring_chore) (h0 : history_entry) :
  In h0 (recurring_chore_history t) ->
  h_recurring_id h0 = r_id x ->
  JsDate.DATE (h_due_date h0) = JsDate.DATE (next_due_date x) ->
  exists h1, Recurring.existingHistory t x = Some h1.
Proof.
  intros Hin Hid Hday. unfold Recurring.existingHistory.
  destruct (find_some_exists
              (fun h => (h_recurring_id h =? r_id x)
                        && (JsDate.DATE (h_due_date h) =? JsDate.DATE (next_due_date x)))
              (recurring_chore_history t) h0 Hin) as (h1 & Hfind & _).
  - now rewrite Hid, Hday, !Z.eqb_refl.
  - eauto.
Qed.

(** C2. Generation is idempotent per calendar due date.  A first call for a
    template whose due day has no history row yet answers 200 with one chore
    generated: exactly one chore, due on that date, and exactly one history
    row, of the template, the chore and the date, are appended.  A second
    call in succession, on the store the first one leaves, at any later
    instant: the history still holds that one row for the template and the
    day, and the chores are those before, the generated one, and at most
    chores due on a later day (the template has moved on by at least a
    day).  So it stays through any number of generation calls, by the route
    or the scheduler, with any round trip failing: one history row for the
    template and the day, and the chore it names.  From the store before the
    first call no sequence of such calls leaves more than one history row
    for the template and the day.  The guard itself: a call that finds a
    template with a history row on the calendar day of its next due date
    answers 200 with nothing generated and leaves the store as it is. *)
Theorem generation_once_per_due_date :
  forall (tz now : Z) (caller : user) (rc : recurring_chore) (w : world),
    u_role caller = parent ->
    r_id rc <> 0 ->
    NoDup (map r_id (recurring_chores (rows w))) ->
    In rc (recurring_chores (rows w)) ->
    r_family_id rc = u_family_id caller ->
    r_is_active rc = true ->
    members_readable rc ->
    (forall a, In a (candidates rc) -> existsb (fun u => u_id u =? a) (users (rows w)) = true) ->
    (forall h0, In h0 (recurring_chore_history (rows w)) ->
       h_recurring_id h0 = r_id rc ->
       JsDate.DATE (h_due_date h0) <> JsDate.DATE (next_due_date rc)) ->
    fault w = None ->
    exists (w1 : world) (c : chore) (h : history_entry),
      Recurring.generate tz now caller (Some (r_id rc)) w = (Ok (200, 1), w1)
      /\ chores (rows w1) = chores (rows w) ++ [c]
      /\ due_date c = Some (next_due_date rc)
      /\ recurring_chore_history (rows w1) = recurring_chore_history (rows w) ++ [h]
      /\ h_recurring_id h = r_id rc
      /\ h_chore_id h = c_id c
      /\ h_due_date h = next_due_date rc
      /\ h_status h = generated
      /\ filter (on_day (r_id rc) (JsDate.DATE (next_due_date rc)))
           (recurring_chore_history (rows w1)) = [h]
      /\ (forall (later : Z) (second : user) (draws : list Z),
            u_role second = parent ->
            u_family_id second = u_family_id caller ->
            exists (n : Z) (w2 : world) (more : list chore),
              Recurring.generate tz later second (Some (r_id rc)) (set_entropy w1 draws)
              = (Ok (200, n), w2)
              /\ filter (on_day (r_id rc) (JsDate.DATE (next_due_date rc)))
                   (recurring_chore_history (rows w2)) = [h]
              /\ chores (rows w2) = chores (rows w) ++ c :: more
              /\ Forall (fun x => exists d, due_date x = Some d
                                            /\ JsDate.DATE (next_due_date rc) < JsDate.DATE d)
                        more)
      /\ (forall w2 : world,
            Api.reachable generates w1 w2 ->
            filter (on_day (r_id rc) (JsDate.DATE (next_due_date rc)))
              (recurring_chore_history (rows w2)) = [h]
            /\ exists more, chores (rows w2) = chores (rows w) ++ c :: more)
      /\ (forall w2 : world,
            Api.reachable generates w w2 ->
            (List.length (filter (on_day (r_id rc) (JsDate.DATE (next_due_date rc)))
                            (recurring_chore_history (rows w2))) <= 1)%nat)
      /\ (forall (later : Z) (second : user) (v : world) (x : recurring_chore)
                 (h0 : history_entry),
            u_role second = parent ->
            r_id x <> 0 ->
            NoDup (map r_id (recurring_chores (rows v))) ->
            In x (recurring_chores (rows v)) ->
            r_family_id x = u_family_id second ->
            r_is_active x = true ->
            In h0 (recurring_chore_history (rows v)) ->
            h_recurring_id h0 = r_id x ->
            JsDate.DATE (h_due_date h0) = JsDate.DATE (next_due_date x) ->
            fault v = None ->
            Recurring.generate tz later second (Some (r_id x)) v = (Ok (200, 0), v)
            /\ Recurring.scheduled_one tz later x v = (Ok None, v)).
Proof.
  intros tz now caller rc w Hrole Hid Hnd Hin Hfam Hact Hread Hfk Hnorow Hfault.
  destruct (no_row_on_day (rows w) rc Hnorow) as [Hfresh Hempty].
  destruct (generate_one_fresh tz now caller rc w Hfresh Hread Hfk Hfault)
    as (a & w1 & Hone & Hf1 & Hchores & Hhist & Htemplates & Husers).
  cbv zeta in Hone, Hchores, Hhist. simpl c_id in Hone, Hhist.
  set (c := Recurring.generated_chore now (u_id caller) rc a (seq_chore (seqs w))) in *.
  set (h := {| h_recurring_id := r_id rc; h_chore_id := seq_chore (seqs w);
               h_due_date := next_due_date rc; h_status := generated;
               h_assigned_to := a |}) in *.
  assert (Hday1 : filter (on_day (r_id rc) (JsDate.DATE (next_due_date rc)))
                    (recurring_chore_history (rows w1)) = [h]).
  { rewrite Hhist, filter_snoc, Hempty. unfold on_day. simpl. now rewrite !Z.eqb_refl. }
  exists w1, c, h.
  split.
  { rewrite (generate_selected tz now caller rc w Hrole Hid Hnd Hin Hfam Hact Hfault).
    now rewrite Hone. }
  split; [exact Hchores|]. split; [reflexivity|]. split; [exact Hhist|].
  split; [reflexivity|]. split; [reflexivity|]. split; [reflexivity|].
  split; [reflexivity|]. split; [exact Hday1|].
  split.
  { intros later second draws Hrole2 Hfam2.
    set (v := set_entropy w1 draws).
    set (rc1 := Recurring.reschedule now rc
                  (Recurring.advance tz (r_frequency rc) (next_due_date rc))).
    assert (Hin1 : In rc1 (recurring_chores (rows v))).
    { simpl. rewrite Htemplates. unfold Chores.update_where. apply in_map_iff.
      exists rc. split; [now rewrite Z.eqb_refl | exact Hin]. }
    assert (Hnd1 : NoDup (map r_id (recurring_chores (rows v)))).
    { simpl. rewrite Htemplates. rewrite update_where_keys; [exact Hnd | reflexivity]. }
    assert (Hfv : fault v = None) by exact Hf1.
    assert (Hsel := generate_selected tz later second rc1 v Hrole2 Hid Hnd1 Hin1
                      (eq_trans Hfam (eq_sym Hfam2)) Hact Hfv).
    change (r_id rc1) with (r_id rc) in Hsel.
    assert (Hguarded := day_guarded_generate (r_id rc) (JsDate.DATE (next_due_date rc))
                          tz later second (Some (r_id rc)) v).
    assert (Hkept : forall w2,
              snd (Recurring.generate tz later second (Some (r_id rc)) v) = w2 ->
              filter (on_day (r_id rc) (JsDate.DATE (next_due_date rc)))
                (recurring_chore_history (rows w2)) = [h]).
    { intros w2 <-. destruct Hguarded as [Hsame|(Hnone & _)].
      - rewrite Hsame. exact Hday1.
      - simpl in Hnone. rewrite Hday1 in Hnone. discriminate. }
    destruct (Recurring.existingHistory (rows v) rc1) as [h1|] eqn:Hex.
    - destruct (generation_guard tz later second rc1 v h1 Hex Hfv) as [Hskip _].
      rewrite Hskip in Hsel. exists 0, v, [].
      split; [exact Hsel|]. split; [apply Hkept; now rewrite Hsel|].
      split; [exact Hchores | constructor].
    - assert (Hread1 : members_readable rc1) by exact Hread.
      assert (Hfk1 : forall y, In y (candidates rc1) ->
                user_exists (rows v) (Some y) = true).
      { intros y Hy. simpl. rewrite Husers. now apply Hfk. }
      destruct (generate_one_fresh tz later second rc1 v Hex Hread1 Hfk1 Hfv)
        as (a2 & w2 & Hone2 & _ & Hchores2 & _).
      cbv zeta in Hone2, Hchores2. rewrite Hone2 in Hsel.
      exists 1, w2,
        [Recurring.generated_chore later (u_id second) rc1 a2 (seq_chore (seqs v))].
      split; [exact Hsel|]. split; [apply Hkept; now rewrite Hsel|].
      split.
      + rewrite Hchores2. simpl. rewrite Hchores. now rewrite <- app_assoc.
      + constructor; [|constructor].
        exists (Recurring.advance tz (r_frequency rc) (next_due_date rc)).
        split; [reflexivity | apply advance_later_day]. }
  split.
  { intros w2 Hreach. split.
    - destruct (generation_keeps_day (r_id rc) (JsDate.DATE (next_due_date rc)) w1 w2 Hreach)
        as [Hsame|(Hnone & _)].
      + rewrite Hsame. exact Hday1.
      + rewrite Hday1 in Hnone. discriminate.
    - destruct (generation_extends_chores w1 w2 Hreach) as (more & Hmore).
      exists more. rewrite Hmore, Hchores. now rewrite <- app_assoc. }
  split.
  { intros w2 Hreach.
    destruct (generation_keeps_day (r_id rc) (JsDate.DATE (next_due_date rc)) w w2 Hreach)
      as [Hsame|(_ & h' & Hone')].
    - rewrite Hsame, Hempty. simpl. lia.
    - rewrite Hone'. simpl. lia. }
  intros later second v x h0 Hrole2 Hid2 Hnd2 Hin2 Hfam2 Hact2 Hin0 Hid0 Hday0 Hfault2.
  destruct (row_on_day (rows v) x h0 Hin0 Hid0 Hday0) as (h1 & Hex).
  destruct (generation_guard tz later second x v h1 Hex Hfault2) as [Hskip Hsched].
  split; [|exact Hsched].
  rewrite (generate_selected tz later second x v Hrole2 Hid2 Hnd2 Hin2 Hfam2 Hact2 Hfault2).
  now rewrite Hskip.
Qed.

Lemma generation_once_per_due_date_witness :
  (exists (w1 : world) (c : chore) (h : history_entry),
     Recurring.generate 0 Sample.noon Sample.mum (Some 1) (Sample.world_with None)
     = (Ok (200, 1), w1)
     /\ chores (rows w1) = chores Sample.home ++ [c]
     /\ due_date c = Some Sample.wed_10_jan_9am
     /\ recurring_chore_history (rows w1) = [h]
     /\ exists (n : Z) (w2 : world) (more : list chore),
          Recurring.generate 0 (Sample.noon + 1) Sample.mum (Some 1) (set_entropy w1 [])
          = (Ok (200, n), w2)
          /\ filter (on_day 1 19732) (recurring_chore_history (rows w2)) = [h]
          /\ chores (rows w2) = chores Sample.home ++ c :: more
          /\ Forall (fun x => exists d, due_date x = Some d /\ 19732 < JsDate.DATE d) more)
  /\ fst (Recurring.generate 0 Sample.noon Sample.mum (Some 1) (Sample.world_with (Some 6%nat)))
     = Throw 500
  /\ Recurring.generate 0 (Sample.noon + 1) Sample.mum (Some 1)
       (snd (Recurring.generate 0 Sample.noon Sample.mum (Some 1)
               (Sample.world_with (Some 6%nat))))
     = (Ok (200, 0),
        snd (Recurring.generate 0 Sample.noon Sample.mum (Some 1)
               (Sample.world_with (Some 6%nat)))).
Proof.
  destruct (generation_once_per_due_date 0 Sample.noon Sample.mum (Sample.trash 1)
              (Sample.world_with None))
    as (w1 & c & h & Hfirst & Hchores & Hdue & Hhist & _ & _ & _ & _ & _ & Hsecond & _ & _
        & Hguard);
    try reflexivity.
  - discriminate.
  - simpl. repeat constructor; simpl; intuition discriminate.
  - simpl. auto.
  - right. right. intros ids. discriminate.
  - intros a Ha. simpl in Ha. destruct Ha as [<-|[<-|[<-|[]]]]; reflexivity.
  - intros h0 [].
  - split; [|split; [reflexivity|]].
    + exists w1, c, h.
      split; [exact Hfirst|]. split; [exact Hchores|]. split; [exact Hdue|].
      split; [exact Hhist|].
      destruct (Hsecond (Sample.noon + 1) Sample.mum [] eq_refl eq_refl)
        as (n & w2 & more & Hrun & Hday & Hall & Hlater).
      exists n, w2, more. repeat split; assumption.
    + apply (Hguard (Sample.noon + 1) Sample.mum
               (snd (Recurring.generate 0 Sample.noon Sample.mum (Some 1)
                       (Sample.world_with (Some 6%nat))))
               (Sample.trash 1)
               {| h_recurring_id := 1; h_chore_id := 14;
                  h_due_date := Sample.wed_10_jan_9am; h_status := generated;
                  h_assigned_to := Some 7 |}); try reflexivity.
      * discriminate.
      * vm_compute. repeat constructor; simpl; intuition discriminate.
      * vm_compute. auto.
      * vm_compute. auto.
Defined.
(** C3. The round-robin rule is not reached when the template's member list
    comes back from the json column as an array, which is how a list sent as
    an array is stored: [JSON.parse] is applied to the array itself.  With
    two members or more it throws, so the assignee is never picked: the
    generation of the template answers 500, in the route and in the
    scheduler's turn, before anything is written.  With one member it
    returns a number, which has no length, and nobody is picked.  In neither
    case is the first member picked, with or without history. *)
Theorem rotation_unreached_for_member_array :
  forall (tz now : Z) (caller : user) (rc : recurring_chore) (first : Z) (rest : list Z)
         (w : world),
    auto_assign rc = true ->
    r_rotation_type rc = round_robin ->
    rotation_members rc = Some (Js.IdArray (first :: rest)) ->
    (rest <> [] -> Recurring.resolve_assignee rc w = (Throw 500, w))
    /\ (rest = [] -> Recurring.resolve_assignee rc w = (Ok None, w))
    /\ fst (Recurring.resolve_assignee rc w) <> Ok (Some first)
    /\ (rest <> [] ->
        u_role caller = parent ->
        r_id rc <> 0 ->
        NoDup (map r_id (recurring_chores (rows w))) ->
        In rc (recurring_chores (rows w)) ->
        r_family_id rc = u_family_id caller ->
        r_is_active rc = true ->
        (forall h0, In h0 (recurring_chore_history (rows w)) ->
           h_recurring_id h0 = r_id rc ->
           JsDate.DATE (h_due_date h0) <> JsDate.DATE (next_due_date rc)) ->
        fault w = None ->
        Recurring.generate tz now caller (Some (r_id rc)) w = (Throw 500, w)
        /\ Recurring.scheduled_one tz now rc w = (Throw 500, w)).
Proof.
  intros tz now caller rc first rest w Hauto Hrot Hmem.
  assert (Hmany : rest <> [] -> Recurring.resolve_assignee rc w = (Throw 500, w)).
  { intros Hrest. unfold Recurring.resolve_assignee. rewrite Hauto, Hrot, Hmem.
    destruct rest as [|second rest]; [congruence | reflexivity]. }
  assert (Hone : rest = [] -> Recurring.resolve_assignee rc w = (Ok None, w)).
  { intros ->. unfold Recurring.resolve_assignee. rewrite Hauto, Hrot, Hmem. reflexivity. }
  split; [exact Hmany|]. split; [exact Hone|]. split.
  { destruct rest as [|second rest].
    - rewrite (Hone eq_refl). discriminate.
    - rewrite Hmany; discriminate. }
  intros Hrest Hrole Hid Hnd Hin Hfam Hact Hnorow Hfault.
  destruct (no_row_on_day (rows w) rc Hnorow) as [Hfresh _].
  split.
  - rewrite (generate_selected tz now caller rc w Hrole Hid Hnd Hin Hfam Hact Hfault).
    unfold Recurring.generate_one. unfold bind at 1. unfold select at 1. unfold bind at 1.
    rewrite (round_trip_no_fault w Hfault), Hfresh.
    unfold bind at 1. rewrite (Hmany Hrest). reflexivity.
  - unfold Recurring.scheduled_one. unfold bind at 1. unfold select at 1. unfold bind at 1.
    rewrite (round_trip_no_fault w Hfault), Hfresh.
    unfold bind at 1. rewrite (Hmany Hrest). reflexivity.
Qed.

Lemma rotation_unreached_for_member_array_witness :
  Recurring.generate 0 Sample.noon Sample.mum (Some 1)
    (Scenes.with_rota (Js.IdArray [7; 8; 9]))
  = (Throw 500, Scenes.with_rota (Js.IdArray [7; 8; 9]))
  /\ Recurring.resolve_assignee (Scenes.rota (Js.IdArray [7]))
       (Scenes.with_rota (Js.IdArray [7]))
     = (Ok None, Scenes.with_rota (Js.IdArray [7]))
  /\ map assigned_to
       (chores (rows (snd (Recurring.generate 0 Sample.noon Sample.mum (Some 1)
                             (Scenes.with_rota (Js.IdArray [7]))))))
     = [Some 7; Some 8; Some 7; None; None]
  /\ map assigned_to
       (chores (rows (snd (Recurring.generate 0 Sample.noon Sample.mum (Some 1)
                             (Scenes.with_rota (Js.IdText [7; 8; 9]))))))
     = [Some 7; Some 8; Some 7; None; Some 7].
Proof.
  split; [|split; [|split; reflexivity]].
  - apply (rotation_unreached_for_member_array 0 Sample.noon Sample.mum
             (Scenes.rota (Js.IdArray [7; 8; 9])) 7 [8; 9]
             (Scenes.with_rota (Js.IdArray [7; 8; 9])) eq_refl eq_refl eq_refl);
      try reflexivity.
    + discriminate.
    + discriminate.
    + simpl. repeat constructor. simpl. tauto.
    + simpl. auto.
    + intros h0 [].
  - apply (rotation_unreached_for_member_array 0 Sample.noon Sample.mum
             (Scenes.rota (Js.IdArray [7])) 7 []
             (Scenes.with_rota (Js.IdArray [7])) eq_refl eq_refl eq_refl).
    reflexivity.
Defined.

(* ------------------------------------------------------------------ *)
(** * The protected routes *)

(** ** What [protect] does before a handler runs *)

Lemma seen_rows (now : Z) (l : list user) (p : user -> bool) :
  Chores.update_where p
    (fun u => Auth.set_login_state u (login_attempts u) (locked_until u) (Some now)) l
  = map (fun x => if p x then seen now x else x) l.
Proof. reflexivity. Qed.

(** With a verified token of an active user and no round trip failing,
    [protect] hands the user's row to the handler and leaves the store with
    that user's [last_login] stamped. *)
Lemma protect_runs (now : Z) (caller : user) (w : world) :
  signed_in caller (rows w) ->
  fault w = None ->
  Middleware.protect now (Some (u_id caller)) w
  = (Ok caller, admitted now (u_id caller) w).
Proof.
  intros (Hin & Hact & Hkey) Hfault.
  destruct (filter_head (fun u => (u_id u =? u_id caller) && u_is_active u)
              (users (rows w)) caller Hin) as (rest & Hfound).
  { now rewrite Z.eqb_refl, Hact. }
  { intros y Hy Hp. apply andb_prop in Hp as [Hp _]. apply Z.eqb_eq in Hp. now apply Hkey. }
  destruct w as [t sq f e]. simpl in *. subst f.
  unfold Middleware.protect. unfold_gateway. simpl. rewrite Hfound. simpl.
  reflexivity.
Qed.

Lemma protected_runs {A : Type} (now : Z) (caller : user) (handler : user -> M A)
  (w : world) :
  signed_in caller (rows w) ->
  fault w = None ->
  Routes.protected now (Some (u_id caller)) handler w
  = handler caller (admitted now (u_id caller) w).
Proof.
  intros Hin Hfault. unfold Routes.protected, bind.
  now rewrite (protect_runs now caller w Hin Hfault).
Qed.

(** The caller is still signed in after a request by somebody else, and, as
    the row [seen], after a request of their own. *)
Lemma signed_in_after_other (now id : Z) (other : user) (t : tables) :
  signed_in other t -> u_id other <> id -> signed_in other (let_in now id t).
Proof.
  intros (Hin & Hact & Hkey) Hid. split; [|split; [exact Hact|]].
  - simpl. apply in_map_iff. exists other. split; [|exact Hin].
    apply Z.eqb_neq in Hid. now rewrite Hid.
  - simpl. intros x Hx Hxid. apply in_map_iff in Hx as (x0 & Hx0 & Hin0).
    destruct (u_id x0 =? id) eqn:E.
    + subst x. simpl in Hxid. apply Z.eqb_eq in E. congruence.
    + subst x. now apply Hkey.
Qed.

Lemma signed_in_after_own (now : Z) (caller : user) (t : tables) :
  signed_in caller t -> signed_in (seen now caller) (let_in now (u_id caller) t).
Proof.
  intros (Hin & Hact & Hkey). split; [|split; [exact Hact|]].
  - simpl. apply in_map_iff. exists caller. split; [now rewrite Z.eqb_refl | exact Hin].
  - simpl. intros x Hx Hxid. apply in_map_iff in Hx as (x0 & Hx0 & Hin0).
    destruct (u_id x0 =? u_id caller) eqn:E.
    + subst x. apply Z.eqb_eq in E. now rewrite (Hkey x0 Hin0 E).
    + subst x. apply Z.eqb_neq in E. contradiction.
Qed.

(** Letting a user in changes no user's id, family or role. *)
Lemma let_in_users (now id : Z) (t : tables) (u : user) :
  In u (users t) ->
  exists u', In u' (users (let_in now id t))
             /\ u_id u' = u_id u /\ u_family_id u' = u_family_id u
             /\ u_role u' = u_role u.
Proof.
  intros Hin. exists (if u_id u =? id then seen now u else u). split.
  - simpl. apply in_map_iff. exists u. split; [reflexivity | exact Hin].
  - destruct (u_id u =? id); repeat split; reflexivity.
Qed.

Lemma let_in_users_back (now id : Z) (t : tables) (u' : user) :
  In u' (users (let_in now id t)) ->
  exists u, In u (users t)
            /\ u_id u' = u_id u /\ u_family_id u' = u_family_id u
            /\ u_role u' = u_role u.
Proof.
  simpl. intros Hin. apply in_map_iff in Hin as (u & <- & Hin). exists u.
  split; [exact Hin|]. destruct (u_id u =? id); repeat split; reflexivity.
Qed.

(** X30. [protect] answers 401 to a request without token and to a token of
    an id that no active user has, sending no write.  For the token of an
    active user (ids being keys) with no round trip failing it hands that
    user's row, as read, to the handler, having set [last_login] to now on
    that row and changed nothing else: every other user row, every other
    column of that row and every other table are as they were. *)
Theorem protect_stamps_last_login :
  forall (now : Z) (w : world),
    fault w = None ->
    Middleware.protect now None w = (Throw 401, w)
    /\ (forall id,
          (forall x, In x (users (rows w)) -> u_id x = id -> u_is_active x = false) ->
          Middleware.protect now (Some id) w = (Throw 401, w))
    /\ (forall caller,
          signed_in caller (rows w) ->
          exists w',
            Middleware.protect now (Some (u_id caller)) w = (Ok caller, w')
            /\ users (rows w')
               = map (fun x => if u_id x =? u_id caller then seen now x else x)
                     (users (rows w))
            /\ In (seen now caller) (users (rows w'))
            /\ last_login (seen now caller) = Some now
            /\ users_apart_from_last_login (rows w') = users_apart_from_last_login (rows w)
            /\ (forall x, In x (users (rows w)) -> u_id x <> u_id caller ->
                  In x (users (rows w')))
            /\ families (rows w') = families (rows w)
            /\ chores (rows w') = chores (rows w)
            /\ chore_assignments (rows w') = chore_assignments (rows w)
            /\ chore_submissions (rows w') = chore_submissions (rows w)
            /\ completed_tasks (rows w') = completed_tasks (rows w)
            /\ recurring_chores (rows w') = recurring_chores (rows w)
            /\ recurring_chore_history (rows w') = recurring_chore_history (rows w)).
Proof.
  intros now w Hfault. split; [reflexivity|]. split.
  - intros id Hnone.
    assert (Hfilter : filter (fun u => (u_id u =? id) && u_is_active u) (users (rows w))
                      = []).
    { apply filter_nil. intros x Hx. destruct (u_id x =? id) eqn:E; [|reflexivity].
      apply Z.eqb_eq in E. simpl. now apply Hnone. }
    destruct w as [t sq f e]. simpl in *. subst f.
    unfold Middleware.protect. unfold_gateway. simpl. rewrite Hfilter. reflexivity.
  - intros caller Hsigned. exists (admitted now (u_id caller) w).
    split; [now apply protect_runs|]. simpl.
    split; [reflexivity|]. split.
    { destruct Hsigned as (Hin & _). apply in_map_iff. exists caller.
      split; [now rewrite Z.eqb_refl | exact Hin]. }
    split; [reflexivity|]. split.
    { unfold users_apart_from_last_login. simpl. rewrite map_map. apply map_ext.
      intros x. destruct (u_id x =? u_id caller); reflexivity. }
    split; [|repeat split; reflexivity].
    intros x Hx Hid. apply in_map_iff. exists x. split; [|exact Hx].
    apply Z.eqb_neq in Hid. now rewrite Hid.
Qed.

Lemma protect_stamps_last_login_witness :
  Middleware.protect Sample.noon None (Sample.world_with None)
  = (Throw 401, Sample.world_with None)
  /\ Middleware.protect Sample.noon (Some 5) (Sample.world_with None)
     = (Throw 401, Sample.world_with None)
  /\ exists w',
       Middleware.protect Sample.noon (Some 8) (Sample.world_with None) = (Ok Sample.bob, w')
       /\ map (fun u => (u_id u, last_login u)) (users (rows w'))
          = [(1, None); (7, None); (8, Some Sample.noon); (9, None)].
Proof.
  destruct (protect_stamps_last_login Sample.noon (Sample.world_with None) eq_refl)
    as (Hnone & Hunknown & Hknown).
  split; [exact Hnone|]. split.
  - apply Hunknown. simpl. intros x Hx Hid.
    repeat (destruct Hx as [<-|Hx]; [simpl in Hid; discriminate|]). contradiction.
  - destruct (Hknown Sample.bob) as (w' & Hrun & Husers & _).
    + split; [simpl; auto|]. split; [reflexivity|].
      simpl. intros x Hx Hid.
      repeat (destruct Hx as [<-|Hx]; [simpl in Hid; try discriminate; try reflexivity|]).
      contradiction.
    + exists w'. split; [exact Hrun|]. rewrite Husers. reflexivity.
Defined.

(** ** Who may write *)

(** The handlers that only parents may use turn a child away before any
    statement is sent. *)
Lemma children_are_refused (tz now : Z) (caller : user) (w : world) :
  u_role caller = child ->
  (forall b, Chores.create now caller b w = (Ok 403, w))
  /\ (forall id userId, Chores.assign now caller id userId w = (Ok 403, w))
  /\ (forall id, Chores.approve now caller id w = (Ok 403, w))
  /\ (forall id feedback, Chores.reject now caller id feedback w = (Ok 403, w))
  /\ (forall id, Chores.delete caller id w = (Ok 403, w))
  /\ (forall b, Recurring.create tz now caller b w = (Throw 403, w))
  /\ (forall recurringId, Recurring.generate tz now caller recurringId w = (Throw 403, w))
  /\ (forall id, Templates.delete caller id w = (Throw 403, w)).
Proof.
  intros Hrole.
  unfold Chores.create, Chores.assign, Chores.approve, Chores.reject, Chores.delete,
    Recurring.create, Recurring.generate, Templates.delete.
  rewrite Hrole. simpl. repeat split; reflexivity.
Qed.

(** X2. A signed-in child gets 403 from chore creation, assign, approve,
    reject and delete, from template creation and deletion and from manual
    generation.  The handler sends no statement: the store is as [protect]
    leaves it, the caller's [last_login] set to now and every other row of
    every table as it was. *)
Theorem only_parents_manage :
  forall (tz now : Z) (caller : user) (w : world),
    signed_in caller (rows w) ->
    u_role caller = child ->
    fault w = None ->
    (forall b,
        Routes.create now (Some (u_id caller)) b w
        = (Ok 403, admitted now (u_id caller) w))
    /\ (forall id userId,
          Routes.assign now (Some (u_id caller)) id userId w
          = (Ok 403, admitted now (u_id caller) w))
    /\ (forall id,
          Routes.approve now (Some (u_id caller)) id w
          = (Ok 403, admitted now (u_id caller) w))
    /\ (forall id feedback,
          Routes.reject now (Some (u_id caller)) id feedback w
          = (Ok 403, admitted now (u_id caller) w))
    /\ (forall id,
          Routes.delete now (Some (u_id caller)) id w
          = (Ok 403, admitted now (u_id caller) w))
    /\ (forall b,
          Routes.create_recurring tz now (Some (u_id caller)) b w
          = (Throw 403, admitted now (u_id caller) w))
    /\ (forall recurringId,
          Routes.generate tz now (Some (u_id caller)) recurringId w
          = (Throw 403, admitted now (u_id caller) w))
    /\ (forall id,
          Routes.delete_recurring now (Some (u_id caller)) id w
          = (Throw 403, admitted now (u_id caller) w))
    /\ users (rows (admitted now (u_id caller) w))
       = map (fun x => if u_id x =? u_id caller then seen now x else x) (users (rows w))
    /\ chores (rows (admitted now (u_id caller) w)) = chores (rows w)
    /\ chore_assignments (rows (admitted now (u_id caller) w)) = chore_assignments (rows w)
    /\ chore_submissions (rows (admitted now (u_id caller) w)) = chore_submissions (rows w)
    /\ completed_tasks (rows (admitted now (u_id caller) w)) = completed_tasks (rows w)
    /\ recurring_chores (rows (admitted now (u_id caller) w)) = recurring_chores (rows w)
    /\ recurring_chore_history (rows (admitted now (u_id caller) w))
       = recurring_chore_history (rows w).
Proof.
  intros tz now caller w Hsigned Hrole Hfault.
  destruct (children_are_refused tz now caller (admitted now (u_id caller) w) Hrole)
    as (Hcreate & Hassign & Happrove & Hreject & Hdelete & Htemplate & Hgenerate & Hremove).
  unfold Routes.create, Routes.assign, Routes.approve, Routes.reject, Routes.delete,
    Routes.create_recurring, Routes.generate, Routes.delete_recurring.
  repeat split; intros; try reflexivity;
    rewrite (protected_runs now caller _ w Hsigned Hfault); auto.
Qed.

Lemma only_parents_manage_witness :
  Routes.approve Sample.noon (Some 7) 10 (Sample.world_with None)
  = (Ok 403, admitted Sample.noon 7 (Sample.world_with None))
  /\ Routes.generate 0 Sample.noon (Some 7) None (Sample.world_with None)
     = (Throw 403, admitted Sample.noon 7 (Sample.world_with None))
  /\ map (fun u => (u_id u, last_login u, earnings u))
       (users (rows (admitted Sample.noon 7 (Sample.world_with None))))
     = [(1, None, 0); (7, Some Sample.noon, 0); (8, None, 0); (9, None, 0)].
Proof.
  destruct (only_parents_manage 0 Sample.noon Sample.ann (Sample.world_with None))
    as (_ & _ & Happrove & _ & _ & _ & Hgen & _ & Husers & _); try reflexivity.
  - split; [simpl; auto|]. split; [reflexivity|].
    simpl. intros x Hx Hid.
    repeat (destruct Hx as [<-|Hx]; [simpl in Hid; try discriminate; try reflexivity|]).
    contradiction.
  - split; [apply Happrove|]. split; [apply Hgen|].
    etransitivity; [apply f_equal; exact Husers | reflexivity].
Defined.

(** ** Creating a chore *)

Lemma create_checks_the_body (now : Z) (caller : user) (b : Chores.create_body) (w : world) :
  u_role caller = parent ->
  Chores.b_title b = None \/ Chores.b_title b = Some EmptyString
  \/ Chores.b_reward_amount b = None ->
  Chores.create now caller b w = (Ok 400, w).
Proof.
  intros Hrole H. unfold Chores.create. rewrite Hrole. simpl.
  destruct (Chores.b_title b) as [[|c s]|]; try reflexivity.
  destruct H as [H|[H|H]]; [discriminate | discriminate |]. rewrite H. reflexivity.
Qed.

(** X3. POST /api/chores by a signed-in parent without a title (missing or
    empty) or without a reward amount answers 400.  The handler sends no
    statement: the store is as [protect] leaves it, the caller's
    [last_login] set to now and everything else as it was; no chore and no
    assignment is added. *)
Theorem create_requires_title_and_reward :
  forall (now : Z) (caller : user) (b : Chores.create_body) (w : world),
    signed_in caller (rows w) ->
    u_role caller = parent ->
    Chores.b_title b = None \/ Chores.b_title b = Some EmptyString
    \/ Chores.b_reward_amount b = None ->
    fault w = None ->
    Routes.create now (Some (u_id caller)) b w = (Ok 400, admitted now (u_id caller) w)
    /\ chores (rows (admitted now (u_id caller) w)) = chores (rows w)
    /\ chore_assignments (rows (admitted now (u_id caller) w)) = chore_assignments (rows w)
    /\ users (rows (admitted now (u_id caller) w))
       = map (fun x => if u_id x =? u_id caller then seen now x else x) (users (rows w)).
Proof.
  intros now caller b w Hsigned Hrole Hbody Hfault.
  split; [|repeat split; reflexivity].
  unfold Routes.create. rewrite (protected_runs now caller _ w Hsigned Hfault).
  now apply create_checks_the_body.
Qed.

Lemma mum_signed_in : signed_in Sample.mum (rows (Sample.world_with None)).
Proof.
  split; [simpl; auto|]. split; [reflexivity|].
  simpl. intros x Hx Hid.
  repeat (destruct Hx as [<-|Hx]; [simpl in Hid; try discriminate; try reflexivity|]).
  contradiction.
Defined.

Lemma create_requires_title_and_reward_witness :
  Routes.create Sample.noon (Some 1)
    (Bodies.new_chore (Some EmptyString) false None None None) (Sample.world_with None)
  = (Ok 400, admitted Sample.noon 1 (Sample.world_with None))
  /\ chores (rows (admitted Sample.noon 1 (Sample.world_with None))) = chores Sample.home.
Proof.
  destruct (create_requires_title_and_reward Sample.noon Sample.mum
              (Bodies.new_chore (Some EmptyString) false None None None)
              (Sample.world_with None) mum_signed_in eq_refl
              ltac:(right; left; reflexivity) eq_refl) as (Hrun & Hchores & _).
  split; [exact Hrun | exact Hchores].
Defined.

(** ** What [protect] leaves alone *)

Lemma update_where_proj {A B : Type} (proj : A -> B) (p : A -> bool) (f : A -> A) (l : list A) :
  (forall x, proj (f x) = proj x) ->
  map proj (Chores.update_where p f l) = map proj l.
Proof.
  intros H. unfold Chores.update_where. rewrite map_map. apply map_ext.
  intros x. destruct (p x); [apply H | reflexivity].
Qed.

Lemma keeps_protect {B : Type} (proj : tables -> B) (now : Z) (token : option Z) :
  (forall t l, proj (set_users t l) = proj t) ->
  keeps proj (Middleware.protect now token).
Proof. intros H. unfold Middleware.protect. keeps_all. Qed.

Lemma keeps_protect_users (now : Z) (token : option Z) :
  keeps users_apart_from_last_login (Middleware.protect now token).
Proof.
  unfold Middleware.protect.
  destruct token as [id|]; [|apply keeps_throw].
  apply keeps_bind; [apply keeps_select|]. intros [|user_ rest]; [apply keeps_throw|].
  apply keeps_bind; [|intros u; apply keeps_ret].
  apply keeps_modify. intros t. unfold users_apart_from_last_login. simpl.
  apply update_where_proj. reflexivity.
Qed.

Lemma keeps_protected {A B : Type} (proj : tables -> B) (now : Z) (token : option Z)
  (handler : user -> M A) :
  keeps proj (Middleware.protect now token) ->
  (forall caller, keeps proj (handler caller)) ->
  keeps proj (Routes.protected now token handler).
Proof. intros Hp Hh. unfold Routes.protected. now apply keeps_bind. Qed.

Lemma untouched_users_apart_from_last_login : untouched users_apart_from_last_login.
Proof. split; reflexivity. Qed.

(** ** Updating a chore *)

Lemma keeps_update_fixed_part (caller : user) (id : Z) (p : Chores.patch_body) :
  keeps (fun t => map chore_fixed_part (chores t)) (Chores.update caller id p).
Proof.
  unfold Chores.update, Chores.checkChoreAccess.
  repeat first
    [ apply keeps_modify; intros t; simpl; apply update_where_proj; reflexivity
    | keeps_step ].
Qed.

Lemma keeps_update_others {B : Type} (proj : tables -> B) (caller : user) (id : Z)
  (p : Chores.patch_body) :
  (forall t l, proj (set_chores t l) = proj t) ->
  keeps proj (Chores.update caller id p).
Proof. intros H. unfold Chores.update, Chores.checkChoreAccess. keeps_all. Qed.

(** X7. Whatever the token (that of a user, or none), the patch and the
    failing round trip, a request to PATCH /api/chores/:id changes no
    chore's id, family, creator, payable [current_reward], assignee or dates
    and adds or removes no chore; of the
    users it changes no column but [last_login], which [protect] sets; and
    it writes no assignment, submission, completed task, template, history
    row or family.  So a patched [reward_amount] does not change what an
    approval pays. *)
Theorem update_leaves_payout_and_assignee :
  forall (now : Z) (token : option Z) (id : Z) (p : Chores.patch_body) (w : world),
    let t' := rows (snd (Routes.update now token id p w)) in
    map chore_fixed_part (chores t') = map chore_fixed_part (chores (rows w))
    /\ users_apart_from_last_login t' = users_apart_from_last_login (rows w)
    /\ chore_assignments t' = chore_assignments (rows w)
    /\ chore_submissions t' = chore_submissions (rows w)
    /\ completed_tasks t' = completed_tasks (rows w)
    /\ recurring_chores t' = recurring_chores (rows w)
    /\ recurring_chore_history t' = recurring_chore_history (rows w)
    /\ families t' = families (rows w).
Proof.
  intros now token id p w. cbv zeta. unfold Routes.update.
  split; [|split; [|split; [|split; [|split; [|split; [|split]]]]]].
  - apply (keeps_protected (fun t => map chore_fixed_part (chores t)));
      [apply keeps_protect; reflexivity | intros caller; apply keeps_update_fixed_part].
  - apply (keeps_protected users_apart_from_last_login);
      [apply keeps_protect_users | intros caller; apply keeps_update_others; reflexivity].
  - apply (keeps_protected chore_assignments);
      [apply keeps_protect; reflexivity | intros caller; apply keeps_update_others; reflexivity].
  - apply (keeps_protected chore_submissions);
      [apply keeps_protect; reflexivity | intros caller; apply keeps_update_others; reflexivity].
  - apply (keeps_protected completed_tasks);
      [apply keeps_protect; reflexivity | intros caller; apply keeps_update_others; reflexivity].
  - apply (keeps_protected recurring_chores);
      [apply keeps_protect; reflexivity | intros caller; apply keeps_update_others; reflexivity].
  - apply (keeps_protected recurring_chore_history);
      [apply keeps_protect; reflexivity | intros caller; apply keeps_update_others; reflexivity].
  - apply (keeps_protected families);
      [apply keeps_protect; reflexivity | intros caller; apply keeps_update_others; reflexivity].
Qed.

Lemma update_refusals (caller : user) (p : Chores.patch_body) (w : world) (c : chore) :
  NoDup (map c_id (chores (rows w))) ->
  In c (chores (rows w)) ->
  fault w = None ->
  (forall id, (forall x, In x (chores (rows w)) -> c_id x <> id) ->
     Chores.update caller id p w = (Throw 404, w))
  /\ (c_family_id c <> u_family_id caller ->
      Chores.update caller (c_id c) p w = (Throw 403, w))
  /\ (u_role caller = child -> assigned_to c <> Some (u_id caller) ->
      c_created_by c <> u_id caller ->
      Chores.update caller (c_id c) p w = (Throw 403, w))
  /\ (c_family_id c = u_family_id caller -> u_role caller = parent ->
      Chores.no_updates p = true ->
      Chores.update caller (c_id c) p w = (Ok 400, w)).
Proof.
  intros Hnd Hin Hfault.
  assert (Hfind : find (fun x => c_id x =? c_id c) (chores (rows w)) = Some c).
  { apply (find_unique c_id); auto.
    - apply Z.eqb_refl.
    - intros y Hy. now apply Z.eqb_eq. }
  destruct w as [t sq f e]. simpl in *. subst f.
  unfold Chores.update, Chores.checkChoreAccess. unfold_gateway. simpl.
  split; [|split; [|split]].
  - intros id Hnone.
    rewrite (find_none_iff (fun x => c_id x =? id) (chores t)); [reflexivity|].
    intros x Hx. apply Z.eqb_neq. now apply Hnone.
  - intros Hfam. rewrite Hfind. apply Z.eqb_neq in Hfam. rewrite Hfam. reflexivity.
  - intros Hrole Hasg Hcr. rewrite Hfind, Hrole. simpl.
    destruct (c_family_id c =? u_family_id caller); [|reflexivity]. simpl.
    assert (Hopt : opt_is (assigned_to c) (u_id caller) = false).
    { destruct (assigned_to c) as [a|]; [|reflexivity]. simpl.
      apply Z.eqb_neq. congruence. }
    apply Z.eqb_neq in Hcr. rewrite Hopt, Hcr. reflexivity.
  - intros Hfam Hrole Hnone. rewrite Hfind, Hfam, Z.eqb_refl, Hrole. simpl.
    rewrite Hfind. simpl. rewrite Hnone. reflexivity.
Qed.

(** X8. PATCH /api/chores/:id by a signed-in user is refused: with 404 when
    no chore has the id; with 403 when the chore belongs to another family,
    or when the caller is a child who neither is its assignee nor created
    it; and with 400 when the caller is a parent of the chore's family and
    the body carries none of the seven allowed fields.  In each case the
    store is as [protect] leaves it: the caller's [last_login] set to now,
    every chore and every other row as it was. *)
Theorem update_guards :
  forall (now : Z) (caller : user) (p : Chores.patch_body) (w : world) (c : chore),
    signed_in caller (rows w) ->
    NoDup (map c_id (chores (rows w))) ->
    In c (chores (rows w)) ->
    fault w = None ->
    (forall id, (forall x, In x (chores (rows w)) -> c_id x <> id) ->
       catchAsync (Routes.update now (Some (u_id caller)) id p) w
       = (404, admitted now (u_id caller) w))
    /\ (c_family_id c <> u_family_id caller ->
        catchAsync (Routes.update now (Some (u_id caller)) (c_id c) p) w
        = (403, admitted now (u_id caller) w))
    /\ (u_role caller = child -> assigned_to c <> Some (u_id caller) ->
        c_created_by c <> u_id caller ->
        catchAsync (Routes.update now (Some (u_id caller)) (c_id c) p) w
        = (403, admitted now (u_id caller) w))
    /\ (c_family_id c = u_family_id caller -> u_role caller = parent ->
        Chores.p_title p = None -> Chores.p_description p = None ->
        Chores.p_reward_amount p = None -> Chores.p_reward_type p = None ->
        Chores.p_requires_photo p = None -> Chores.p_acceptance_timer p = None ->
        Chores.p_status p = None ->
        catchAsync (Routes.update now (Some (u_id caller)) (c_id c) p) w
        = (400, admitted now (u_id caller) w))
    /\ chores (rows (admitted now (u_id caller) w)) = chores (rows w)
    /\ users (rows (admitted now (u_id caller) w))
       = map (fun x => if u_id x =? u_id caller then seen now x else x) (users (rows w)).
Proof.
  intros now caller p w c Hsigned Hnd Hin Hfault.
  destruct (update_refusals caller p (admitted now (u_id caller) w) c Hnd Hin eq_refl)
    as (Hunknown & Hfamily & Hchild & Hempty).
  unfold catchAsync, Routes.update.
  split; [|split; [|split; [|split; [|split; reflexivity]]]].
  - intros id Hnone. rewrite (protected_runs now caller _ w Hsigned Hfault).
    now rewrite (Hunknown id Hnone).
  - intros Hfam. rewrite (protected_runs now caller _ w Hsigned Hfault).
    now rewrite (Hfamily Hfam).
  - intros Hrole Hasg Hcr. rewrite (protected_runs now caller _ w Hsigned Hfault).
    now rewrite (Hchild Hrole Hasg Hcr).
  - intros Hfam Hrole H1 H2 H3 H4 H5 H6 H7.
    rewrite (protected_runs now caller _ w Hsigned Hfault).
    rewrite (Hempty Hfam Hrole); [reflexivity|].
    unfold Chores.no_updates. now rewrite H1, H2, H3, H4, H5, H6, H7.
Qed.

Lemma update_guards_witness :
  catchAsync (Routes.update Sample.noon (Some 8) 10 (Bodies.reward_patch 900))
    (Sample.world_with None)
  = (403, admitted Sample.noon 8 (Sample.world_with None))
  /\ catchAsync (Routes.update Sample.noon (Some 1) 10 Bodies.empty_patch)
       (Sample.world_with None)
     = (400, admitted Sample.noon 1 (Sample.world_with None))
  /\ catchAsync (Routes.update Sample.noon (Some 1) 99 (Bodies.reward_patch 900))
       (Sample.world_with None)
     = (404, admitted Sample.noon 1 (Sample.world_with None)).
Proof.
  assert (Hnd : NoDup (map c_id (chores (rows (Sample.world_with None))))).
  { simpl. repeat constructor; simpl; intuition discriminate. }
  assert (Hin : In Sample.dishes (chores (rows (Sample.world_with None)))).
  { simpl. auto. }
  assert (Hbob : signed_in Sample.bob (rows (Sample.world_with None))).
  { split; [simpl; auto|]. split; [reflexivity|].
    simpl. intros x Hx Hid.
    repeat (destruct Hx as [<-|Hx]; [simpl in Hid; try discriminate; try reflexivity|]).
    contradiction. }
  split; [|split].
  - destruct (update_guards Sample.noon Sample.bob (Bodies.reward_patch 900)
                (Sample.world_with None) Sample.dishes Hbob Hnd Hin eq_refl)
      as (_ & _ & H & _).
    apply H; [reflexivity | discriminate | discriminate].
  - destruct (update_guards Sample.noon Sample.mum Bodies.empty_patch
                (Sample.world_with None) Sample.dishes mum_signed_in Hnd Hin eq_refl)
      as (_ & _ & _ & H & _).
    apply H; reflexivity.
  - destruct (update_guards Sample.noon Sample.mum (Bodies.reward_patch 900)
                (Sample.world_with None) Sample.dishes mum_signed_in Hnd Hin eq_refl)
      as (H & _).
    apply H. simpl. intros x Hx.
    repeat (destruct Hx as [<-|Hx]; [discriminate|]). contradiction.
Defined.

(** ** Assigning and accepting *)

Lemma Forall2_update_where {A : Type} (R : A -> A -> Prop) (p : A -> bool) (f : A -> A)
  (l : list A) :
  (forall x, In x l -> p x = true -> R x (f x)) ->
  (forall x, In x l -> p x = false -> R x x) ->
  Forall2 R l (Chores.update_where p f l).
Proof.
  intros Hyes Hno. unfold Chores.update_where. apply Forall2_map_r.
  intros x Hx. destruct (p x) eqn:E; [now apply Hyes | now apply Hno].
Qed.

(** The handler of assign, run for a parent on a chore of the family. *)
Lemma assign_in_family (now : Z) (caller : user) (w : world) (c : chore) (userId : Z) :
  u_role caller = parent ->
  NoDup (map c_id (chores (rows w))) ->
  In c (chores (rows w)) ->
  c_family_id c = u_family_id caller ->
  userId <> 0 ->
  fault w = None ->
  ((exists u, In u (users (rows w)) /\ u_id u = userId
              /\ u_family_id u = u_family_id caller) ->
   exists (a : chore_assignment) (w' : world),
     Chores.assign now caller (c_id c) (Some userId) w = (Ok 200, w')
     /\ chores (rows w')
        = map (fun r => if c_id r =? c_id c
                        then Chores.with_assignment r pending_acceptance
                               (Some userId) (Some now)
                        else r)
              (chores (rows w))
     /\ chore_assignments (rows w') = chore_assignments (rows w) ++ [a]
     /\ a_id a = seq_assignment (seqs w)
     /\ a_chore_id a = c_id c
     /\ a_user_id a = userId
     /\ assigned_by a = u_id caller
     /\ a_status a = asg_pending
     /\ a_assigned_at a = now
     /\ a_accepted_at a = None
     /\ declined_at a = None
     /\ acceptance_deadline a
        = Some (now + (if acceptance_timer c =? 0 then 5 else acceptance_timer c) * 60000)
     /\ users (rows w') = users (rows w)
     /\ chore_submissions (rows w') = chore_submissions (rows w)
     /\ completed_tasks (rows w') = completed_tasks (rows w)
     /\ fault w' = None)
  /\ ((forall u, In u (users (rows w)) -> u_id u = userId ->
         u_family_id u <> u_family_id caller) ->
      Chores.assign now caller (c_id c) (Some userId) w = (Ok 404, w)).
Proof.
  intros Hrole Hnd Hin Hfam Hnz Hfault.
  assert (Hfind : find (fun x => (c_id x =? c_id c) && (c_family_id x =? u_family_id caller))
                       (chores (rows w)) = Some c).
  { apply (find_unique c_id); auto.
    - now rewrite Hfam, !Z.eqb_refl.
    - intros y Hy. apply andb_prop in Hy as [Hy _]. now apply Z.eqb_eq. }
  assert (Hparam : Js.or_null (Some userId) = Some userId).
  { unfold Js.or_null, Js.truthy_opt, Js.truthy. apply Z.eqb_neq in Hnz. now rewrite Hnz. }
  destruct w as [t sq f e]. simpl in *. subst f.
  unfold Chores.assign. rewrite Hrole, Hparam. simpl. split.
  - intros (u & Hu & Huid & Hufam).
    destruct (find_some_exists
                (fun x => (u_id x =? userId) && (u_family_id x =? u_family_id caller))
                (users t) u Hu) as (u' & Hfindu & Hu' & Hpu').
    { now rewrite Huid, Hufam, !Z.eqb_refl. }
    assert (Hfk : existsb (fun x => u_id x =? userId) (users t) = true).
    { apply existsb_exists. exists u. split; [assumption | now apply Z.eqb_eq]. }
    unfold_gateway. simpl. rewrite Hfind. simpl. rewrite Hfindu. simpl.
    unfold user_exists. simpl. rewrite Hfk. simpl.
    exists {| a_id := seq_assignment sq; a_chore_id := c_id c; a_user_id := userId;
              assigned_by := u_id caller; a_assigned_at := now; a_accepted_at := None;
              declined_at := None; a_status := asg_pending;
              acceptance_deadline :=
                Some (JsDate.addMinutes now
                        (Chores.timer_or_5 (Some (acceptance_timer c)))) |}.
    eexists. split; [reflexivity|]. simpl.
    do 10 (split; [reflexivity|]).
    split; [|repeat split; reflexivity].
    unfold JsDate.addMinutes, JsDate.MS_PER_MINUTE, Chores.timer_or_5, Js.or_null,
      Js.truthy_opt, Js.truthy.
    destruct (acceptance_timer c =? 0); reflexivity.
  - intros Hout. unfold_gateway. simpl. rewrite Hfind. simpl.
    rewrite (find_none_iff
               (fun x => (u_id x =? userId) && (u_family_id x =? u_family_id caller))
               (users t)); [reflexivity|].
    intros x Hx. destruct (u_id x =? userId) eqn:E; [|reflexivity]. simpl.
    apply Z.eqb_eq in E. apply Z.eqb_neq. now apply Hout.
Qed.




(** The handler of accept, run for the assignee of a chore pending
    acceptance. *)
Lemma accept_by_assignee (now : Z) (caller : user) (w : world) (c : chore) :
  In c (chores (rows w)) ->
  assigned_to c = Some (u_id caller) ->
  status c = pending_acceptance ->
  fault w = None ->
  exists w' : world,
    Chores.accept now caller (c_id c) w = (Ok 200, w')
    /\ chores (rows w')
       = map (fun r => if c_id r =? c_id c
                       then Chores.with_accepted r in_progress now else r)
             (chores (rows w))
    /\ chore_assignments (rows w')
       = map (fun a => if pending_for (c_id c) (u_id caller) a then accepted now a else a)
             (chore_assignments (rows w))
    /\ users (rows w') = users (rows w)
    /\ chore_submissions (rows w') = chore_submissions (rows w)
    /\ completed_tasks (rows w') = completed_tasks (rows w)
    /\ seqs w' = seqs w
    /\ fault w' = None.
Proof.
  intros Hin Hasg Hst Hfault.
  destruct (find_some_exists
              (fun c0 => (c_id c0 =? c_id c) && opt_is (assigned_to c0) (u_id caller)
                         && status_eqb (status c0) pending_acceptance)
              (chores (rows w)) c Hin) as (c' & Hfind & _ & Hp).
  { rewrite Hasg, Hst. simpl. now rewrite !Z.eqb_refl. }
  assert (Hid : c_id c' = c_id c).
  { apply andb_prop in Hp as [Hp _]. apply andb_prop in Hp as [Hp _]. now apply Z.eqb_eq. }
  destruct w as [t sq f e]. simpl in *. subst f.
  unfold Chores.accept, Chores.assigned_chore. unfold_gateway. simpl.
  rewrite Hfind. simpl. rewrite Hid.
  eexists. split; [reflexivity|]. simpl. split; [reflexivity|].
  split; [|repeat split; reflexivity].
  unfold Chores.update_where. apply map_ext. intros a.
  unfold Chores.is_pending_assignment, pending_for.
  destruct (a_status a); reflexivity.
Qed.


Lemma bob_signed_in : signed_in Sample.bob (rows (Sample.world_with None)).
Proof.
  split; [simpl; auto|]. split; [reflexivity|].
  simpl. intros x Hx Hid.
  repeat (destruct Hx as [<-|Hx]; [simpl in Hid; try discriminate; try reflexivity|]).
  contradiction.
Defined.

Lemma Forall2_map_both {A B : Type} (R : A -> A -> Prop) (f : A -> B) (l l' : list A) :
  Forall2 R l l' ->
  (forall x x', R x x' -> f x' = f x) ->
  map f l' = map f l.
Proof.
  intros H Hf. induction H as [|x x' l l' Hx _ IH]; simpl; [reflexivity|].
  now rewrite (Hf x x' Hx), IH.
Qed.


(** The handlers of accept, decline and submit find no chore to act on. *)
Lemma nothing_to_act_on (now : Z) (caller : user) (id : Z) (w : world) :
  fault w = None ->
  ((forall x, In x (chores (rows w)) -> c_id x = id ->
      assigned_to x = Some (u_id caller) -> status x <> pending_acceptance) ->
   Chores.accept now caller id w = (Ok 404, w)
   /\ Chores.decline now caller id w = (Ok 404, w))
  /\ ((forall x, In x (chores (rows w)) -> c_id x = id ->
         assigned_to x = Some (u_id caller) -> status x <> in_progress) ->
      forall file notes_, Chores.submit now caller id file notes_ w = (Ok 404, w)).
Proof.
  intros Hfault.
  assert (Hnone : forall st,
            (forall x, In x (chores (rows w)) -> c_id x = id ->
               assigned_to x = Some (u_id caller) -> status x <> st) ->
            Chores.assigned_chore (rows w) id (u_id caller) st = None).
  { intros st H. unfold Chores.assigned_chore. apply find_none_iff. intros x Hx.
    destruct (c_id x =? id) eqn:Eid; [|reflexivity].
    destruct (assigned_to x) as [a|] eqn:Ea; [|reflexivity]. simpl.
    destruct (a =? u_id caller) eqn:Eu; [|reflexivity]. simpl.
    apply Z.eqb_eq in Eid, Eu. subst a.
    destruct (status_eqb (status x) st) eqn:Es; [|reflexivity].
    apply status_eqb_eq in Es. exfalso. exact (H x Hx Eid Ea Es). }
  destruct w as [t sq f e]. simpl in *. subst f. split.
  - intros H. unfold Chores.accept, Chores.decline. unfold_gateway. simpl.
    rewrite (Hnone pending_acceptance H). split; reflexivity.
  - intros H file notes_. unfold Chores.submit. unfold_gateway. simpl.
    rewrite (Hnone in_progress H). reflexivity.
Qed.

(** X11. Accept, decline and submit by a signed-in user answer 404 when no
    chore with that id is assigned to the caller in the status the step
    starts from (pending_acceptance for accept and decline, in_progress for
    submit): nobody acts on another user's chore, and no step is taken out
    of order.  The store is as [protect] leaves it: the caller's
    [last_login] set to now, every chore, assignment, submission and other
    row as it was. *)
Theorem only_the_assignee_acts :
  forall (now : Z) (caller : user) (id : Z) (w : world),
    signed_in caller (rows w) ->
    fault w = None ->
    ((forall x, In x (chores (rows w)) -> c_id x = id ->
        assigned_to x = Some (u_id caller) -> status x <> pending_acceptance) ->
     Routes.accept now (Some (u_id caller)) id w = (Ok 404, admitted now (u_id caller) w)
     /\ Routes.decline now (Some (u_id caller)) id w
        = (Ok 404, admitted now (u_id caller) w))
    /\ ((forall x, In x (chores (rows w)) -> c_id x = id ->
           assigned_to x = Some (u_id caller) -> status x <> in_progress) ->
        forall file notes_,
          Routes.submit now (Some (u_id caller)) id file notes_ w
          = (Ok 404, admitted now (u_id caller) w))
    /\ chores (rows (admitted now (u_id caller) w)) = chores (rows w)
    /\ chore_assignments (rows (admitted now (u_id caller) w)) = chore_assignments (rows w)
    /\ chore_submissions (rows (admitted now (u_id caller) w)) = chore_submissions (rows w)
    /\ completed_tasks (rows (admitted now (u_id caller) w)) = completed_tasks (rows w)
    /\ users (rows (admitted now (u_id caller) w))
       = map (fun x => if u_id x =? u_id caller then seen now x else x) (users (rows w)).
Proof.
  intros now caller id w Hsigned Hfault.
  destruct (nothing_to_act_on now caller id (admitted now (u_id caller) w) eq_refl)
    as [Hfirst Hsubmit].
  unfold Routes.accept, Routes.decline, Routes.submit.
  split; [|split; [|repeat split; reflexivity]].
  - intros H. rewrite !(protected_runs now caller _ w Hsigned Hfault). now apply Hfirst.
  - intros H file notes_. rewrite (protected_runs now caller _ w Hsigned Hfault).
    now apply Hsubmit.
Qed.

Lemma ann_signed_in : signed_in Sample.ann (rows (Sample.world_with None)).
Proof.
  split; [simpl; auto|]. split; [reflexivity|].
  simpl. intros x Hx Hid.
  repeat (destruct Hx as [<-|Hx]; [simpl in Hid; try discriminate; try reflexivity|]).
  contradiction.
Defined.

Lemma only_the_assignee_acts_witness :
  (Routes.accept Sample.noon (Some 7) 11 (Sample.world_with None)
   = (Ok 404, admitted Sample.noon 7 (Sample.world_with None))
   /\ Routes.decline Sample.noon (Some 7) 11 (Sample.world_with None)
      = (Ok 404, admitted Sample.noon 7 (Sample.world_with None)))
  /\ Routes.submit Sample.noon (Some 8) 11 None None (Sample.world_with None)
     = (Ok 404, admitted Sample.noon 8 (Sample.world_with None)).
Proof.
  destruct (only_the_assignee_acts Sample.noon Sample.ann 11 (Sample.world_with None)
              ann_signed_in eq_refl) as (Hann & _).
  destruct (only_the_assignee_acts Sample.noon Sample.bob 11 (Sample.world_with None)
              bob_signed_in eq_refl) as (_ & Hbob & _).
  split.
  - apply Hann. simpl. intros x Hx Hid Hasg.
    repeat (destruct Hx as [<-|Hx]; [simpl in *; discriminate|]). contradiction.
  - apply Hbob. simpl. intros x Hx Hid Hasg.
    repeat (destruct Hx as [<-|Hx]; [simpl in *; discriminate|]). contradiction.
Defined.

(** ** Submitting and reviewing *)

Lemma assigned_chore_lookup (t : tables) (c : chore) (userId : Z) :
  NoDup (map c_id (chores t)) ->
  In c (chores t) ->
  assigned_to c = Some userId ->
  Chores.assigned_chore t (c_id c) userId (status c) = Some c.
Proof.
  intros Hnd Hin Hasg. unfold Chores.assigned_chore.
  apply (find_unique c_id); auto.
  - rewrite Hasg. simpl. rewrite !Z.eqb_refl. simpl. now apply status_eqb_eq.
  - intros y Hy. apply andb_prop in Hy as [Hy _]. apply andb_prop in Hy as [Hy _].
    now apply Z.eqb_eq.
Qed.

Lemma submit_needs_the_photo (now : Z) (caller : user) (w : world) (c : chore)
  (notes_ : option string) :
  NoDup (map c_id (chores (rows w))) ->
  In c (chores (rows w)) ->
  assigned_to c = Some (u_id caller) ->
  status c = in_progress ->
  requires_photo c = true ->
  fault w = None ->
  Chores.submit now caller (c_id c) None notes_ w = (Ok 400, w).
Proof.
  intros Hnd Hin Hasg Hst Hphoto Hfault.
  pose proof (assigned_chore_lookup (rows w) c (u_id caller) Hnd Hin Hasg) as Hfind.
  rewrite Hst in Hfind.
  destruct w as [t sq f e]. simpl in *. subst f.
  unfold Chores.submit. unfold_gateway. simpl. rewrite Hfind. simpl.
  rewrite Hphoto. reflexivity.
Qed.

(** X12. A submit without a photo, by the signed-in assignee of a chore in
    progress that requires one, answers 400.  The store is as [protect]
    leaves it, the caller's [last_login] set to now: the chore stays in
    progress and no submission is added. *)
Theorem submit_requires_photo :
  forall (now : Z) (caller : user) (w : world) (c : chore) (notes_ : option string),
    signed_in caller (rows w) ->
    NoDup (map c_id (chores (rows w))) ->
    In c (chores (rows w)) ->
    assigned_to c = Some (u_id caller) ->
    status c = in_progress ->
    requires_photo c = true ->
    fault w = None ->
    Routes.submit now (Some (u_id caller)) (c_id c) None notes_ w
    = (Ok 400, admitted now (u_id caller) w)
    /\ chores (rows (admitted now (u_id caller) w)) = chores (rows w)
    /\ chore_submissions (rows (admitted now (u_id caller) w)) = chore_submissions (rows w)
    /\ users (rows (admitted now (u_id caller) w))
       = map (fun x => if u_id x =? u_id caller then seen now x else x) (users (rows w)).
Proof.
  intros now caller w c notes_ Hsigned Hnd Hin Hasg Hst Hphoto Hfault.
  split; [|repeat split; reflexivity].
  unfold Routes.submit. rewrite (protected_runs now caller _ w Hsigned Hfault).
  now apply submit_needs_the_photo.
Qed.

Lemma cat_signed_in_garage : signed_in Sample.cat (rows Scenes.with_garage).
Proof.
  split; [simpl; auto|]. split; [reflexivity|].
  simpl. intros x Hx Hid.
  repeat (destruct Hx as [<-|Hx]; [simpl in Hid; try discriminate; try reflexivity|]).
  contradiction.
Defined.

Lemma submit_requires_photo_witness :
  Routes.submit Sample.noon (Some 9) 14 None (Some "tidy"%string) Scenes.with_garage
  = (Ok 400, admitted Sample.noon 9 Scenes.with_garage)
  /\ chores (rows (admitted Sample.noon 9 Scenes.with_garage))
     = chores Sample.home ++ [Scenes.garage].
Proof.
  destruct (submit_requires_photo Sample.noon Sample.cat Scenes.with_garage Scenes.garage
              (Some "tidy"%string) cat_signed_in_garage
              ltac:(simpl; repeat constructor; simpl; intuition discriminate)
              ltac:(simpl; auto 6) eq_refl eq_refl eq_refl eq_refl) as (Hrun & Hchores & _).
  split; [exact Hrun | exact Hchores].
Defined.








(** An approval in the right state, no round trip failing, goes through and
    leaves every row of the chore completed. *)
Lemma approve_runs (now : Z) (caller : user) (w : world) (c : chore) (assignee : Z)
  (u : user) (s0 : chore_submission) :
  u_role caller = parent ->
  NoDup (map c_id (chores (rows w))) ->
  In c (chores (rows w)) ->
  c_family_id c = u_family_id caller ->
  status c = pending_approval ->
  assigned_to c = Some assignee ->
  In u (users (rows w)) ->
  u_id u = assignee ->
  In s0 (chore_submissions (rows w)) ->
  s_chore_id s0 = c_id c ->
  s_user_id s0 = assignee ->
  fault w = None ->
  exists (task : completed_task) (w' : world),
    Chores.approve now caller (c_id c) w = (Ok 200, w')
    /\ fault w' = None
    /\ chores (rows w')
       = Chores.update_where (fun r => c_id r =? c_id c)
           (fun r => Chores.with_completed r completed now) (chores (rows w))
    /\ completed_tasks (rows w') = completed_tasks (rows w) ++ [task]
    /\ ct_chore_id task = c_id c
    /\ ct_user_id task = assignee
    /\ reward_earned task = current_reward c.
Proof.
  intros Hrole Hnd Hin Hfam Hst Hasg Hu Huid Hs0 Hs0c Hs0u Hfault.
  destruct (latest_submission_spec (rows w) c assignee s0 Hasg Hs0 Hs0c Hs0u)
    as (s & Hlatest & _).
  pose proof (approve_lookup (rows w) caller c assignee u Hnd Hin Hfam Hst Hasg Hu Huid) as Hfind.
  destruct w as [t sq f e]. simpl in *. subst f.
  unfold Chores.approve. rewrite Hrole. simpl. unfold Chores.approve_writes.
  unfold insert_completed_task.
  unfold_gateway. simpl. rewrite Hfind. simpl. rewrite Hlatest, Hasg. simpl.
  destruct (c_reward_type c) eqn:Htype; simpl;
    eexists; eexists; (split; [reflexivity|]); simpl;
    (split; [reflexivity|]); (split; [reflexivity|]); (split; [reflexivity|]);
    repeat split; reflexivity.
Qed.

(** Nothing acts on a chore all of whose rows are completed. *)
Lemma completed_chore_is_closed (later : Z) (anyone : user) (id : Z) (v : world)
  (feedback file notes_ : option string) :
  fault v = None ->
  (forall x, In x (chores (rows v)) -> c_id x = id -> status x = completed) ->
  Chores.approve later anyone id v
  = (Ok (if role_eqb (u_role anyone) parent then 404 else 403), v)
  /\ Chores.reject later anyone id feedback v
     = (Ok (if role_eqb (u_role anyone) parent then 404 else 403), v)
  /\ Chores.accept later anyone id v = (Ok 404, v)
  /\ Chores.decline later anyone id v = (Ok 404, v)
  /\ Chores.submit later anyone id file notes_ v = (Ok 404, v).
Proof.
  intros Hfault Hdone.
  assert (Hnone : forall st, st <> completed -> forall userId,
            Chores.assigned_chore (rows v) id userId st = None).
  { intros st Hne userId. unfold Chores.assigned_chore. apply find_none_iff. intros x Hx.
    destruct (c_id x =? id) eqn:Eid; [|reflexivity].
    destruct (status_eqb (status x) st) eqn:Es; [|apply andb_false_r].
    apply Z.eqb_eq in Eid. apply status_eqb_eq in Es.
    rewrite (Hdone x Hx Eid) in Es. congruence. }
  assert (Hpending : forall fam (extra : chore -> bool),
            find (fun x => Chores.is_pending_approval fam id x && extra x)
                 (chores (rows v)) = None).
  { intros fam extra. apply find_none_iff. intros x Hx.
    unfold Chores.is_pending_approval.
    destruct (c_id x =? id) eqn:E; [|reflexivity].
    apply Z.eqb_eq in E. rewrite (Hdone x Hx E). simpl.
    now rewrite andb_false_r. }
  assert (Hpending' : forall fam,
            find (Chores.is_pending_approval fam id) (chores (rows v)) = None).
  { intros fam. apply find_none_iff. intros x Hx.
    unfold Chores.is_pending_approval.
    destruct (c_id x =? id) eqn:E; [|reflexivity].
    apply Z.eqb_eq in E. rewrite (Hdone x Hx E). simpl.
    now rewrite andb_false_r. }
  clear Hdone.
  destruct v as [t1 sq1 f1 e1]. simpl in *. subst f1.
  split; [|split; [|split; [|split]]].
  - unfold Chores.approve. destruct (role_eqb (u_role anyone) parent); simpl; [|reflexivity].
    unfold_gateway. simpl.
    rewrite (Hpending (u_family_id anyone)
               (fun c0 => match assigned_to c0 with
                          | Some a => existsb (fun u0 => u_id u0 =? a) (users t1)
                          | None => false
                          end)).
    reflexivity.
  - unfold Chores.reject. destruct (role_eqb (u_role anyone) parent); simpl; [|reflexivity].
    unfold_gateway. simpl. rewrite Hpending'. reflexivity.
  - unfold Chores.accept. unfold_gateway. simpl.
    rewrite (Hnone pending_acceptance ltac:(discriminate)). reflexivity.
  - unfold Chores.decline. unfold_gateway. simpl.
    rewrite (Hnone pending_acceptance ltac:(discriminate)). reflexivity.
  - unfold Chores.submit. unfold_gateway. simpl.
    rewrite (Hnone in_progress ltac:(discriminate)). reflexivity.
Qed.

(** X15. After a signed-in parent's successful approval the chore is
    settled.  The approval adds one completed task, of the chore and its
    assignee, with the chore's [current_reward].  After it a second approve,
    a reject, and an accept, decline or submit by any signed-in user on the
    same chore answer 404 (403 for approve and reject by a non-parent), the
    store being as [protect] leaves it, with only that caller's [last_login]
    set: no further completed task is added and no balance moves. *)
Theorem approved_chore_is_settled :
  forall (now : Z) (caller : user) (w : world) (c : chore) (assignee : Z)
         (u : user) (s0 : chore_submission),
    signed_in caller (rows w) ->
    u_role caller = parent ->
    NoDup (map c_id (chores (rows w))) ->
    In c (chores (rows w)) ->
    c_family_id c = u_family_id caller ->
    status c = pending_approval ->
    assigned_to c = Some assignee ->
    In u (users (rows w)) ->
    u_id u = assignee ->
    In s0 (chore_submissions (rows w)) ->
    s_chore_id s0 = c_id c ->
    s_user_id s0 = assignee ->
    fault w = None ->
    exists (task : completed_task) (w1 : world),
      Routes.approve now (Some (u_id caller)) (c_id c) w = (Ok 200, w1)
      /\ completed_tasks (rows w1) = completed_tasks (rows w) ++ [task]
      /\ ct_chore_id task = c_id c
      /\ ct_user_id task = assignee
      /\ reward_earned task = current_reward c
      /\ (forall x, In x (chores (rows w1)) -> c_id x = c_id c -> status x = completed)
      /\ forall (later : Z) (anyone : user) (feedback file notes_ : option string),
           signed_in anyone (rows w1) ->
           Routes.approve later (Some (u_id anyone)) (c_id c) w1
           = (Ok (match u_role anyone with parent => 404 | child => 403 end),
              admitted later (u_id anyone) w1)
           /\ Routes.reject later (Some (u_id anyone)) (c_id c) feedback w1
              = (Ok (match u_role anyone with parent => 404 | child => 403 end),
                 admitted later (u_id anyone) w1)
           /\ Routes.accept later (Some (u_id anyone)) (c_id c) w1
              = (Ok 404, admitted later (u_id anyone) w1)
           /\ Routes.decline later (Some (u_id anyone)) (c_id c) w1
              = (Ok 404, admitted later (u_id anyone) w1)
           /\ Routes.submit later (Some (u_id anyone)) (c_id c) file notes_ w1
              = (Ok 404, admitted later (u_id anyone) w1)
           /\ completed_tasks (rows (admitted later (u_id anyone) w1))
              = completed_tasks (rows w) ++ [task]
           /\ users (rows (admitted later (u_id anyone) w1))
              = map (fun x => if u_id x =? u_id anyone then seen later x else x)
                    (users (rows w1))
           /\ chores (rows (admitted later (u_id anyone) w1)) = chores (rows w1).
Proof.
  intros now caller w c assignee u s0
         Hsigned Hrole Hnd Hin Hfam Hst Hasg Hu Huid Hs0 Hs0c Hs0u Hfault.
  destruct (let_in_users now (u_id caller) (rows w) u Hu) as (u' & Hu' & Hid' & _).
  destruct (approve_runs now caller (admitted now (u_id caller) w) c assignee u' s0
              Hrole Hnd Hin Hfam Hst Hasg Hu' (eq_trans Hid' Huid) Hs0 Hs0c Hs0u eq_refl)
    as (task & w1 & Hrun & Hfault1 & Hchores & Htasks & Htask).
  exists task, w1. unfold Routes.approve at 1.
  rewrite (protected_runs now caller _ w Hsigned Hfault).
  split; [exact Hrun|]. split; [exact Htasks|].
  destruct Htask as (Ht1 & Ht2 & Ht3). do 3 (split; [assumption|]).
  assert (Hdone : forall x, In x (chores (rows w1)) -> c_id x = c_id c ->
                            status x = completed).
  { intros x Hx Hid. rewrite Hchores in Hx.
    apply updated_rows in Hx as (r & _ & ->).
    destruct (c_id r =? c_id c) eqn:E; [reflexivity|].
    apply Z.eqb_neq in E. contradiction. }
  split; [exact Hdone|].
  intros later anyone feedback file notes_ Hanyone.
  destruct (completed_chore_is_closed later anyone (c_id c)
              (admitted later (u_id anyone) w1) feedback file notes_ eq_refl Hdone)
    as (Happrove & Hreject & Haccept & Hdecline & Hsubmit).
  unfold Routes.approve, Routes.reject, Routes.accept, Routes.decline, Routes.submit.
  rewrite !(protected_runs later anyone _ w1 Hanyone Hfault1).
  assert (Hcode : (if role_eqb (u_role anyone) parent then 404 else 403)
                  = match u_role anyone with parent => 404 | child => 403 end).
  { destruct (u_role anyone); reflexivity. }
  rewrite <- Hcode.
  repeat split; assumption.
Qed.

Lemma approved_chore_is_settled_witness :
  exists (task : completed_task) (w1 : world),
    Routes.approve Sample.noon (Some 1) 10 (Sample.world_with None) = (Ok 200, w1)
    /\ completed_tasks (rows w1) = [task]
    /\ reward_earned task = 500
    /\ Routes.approve (Sample.noon + 1) (Some 1) 10 w1
       = (Ok 404, admitted (Sample.noon + 1) 1 w1)
    /\ completed_tasks (rows (admitted (Sample.noon + 1) 1 w1)) = [task].
Proof.
  destruct (approved_chore_is_settled Sample.noon Sample.mum (Sample.world_with None)
              Sample.dishes 7 Sample.ann Sample.dishes_done mum_signed_in eq_refl
              ltac:(simpl; repeat constructor; simpl; intuition discriminate)
              ltac:(simpl; auto) eq_refl eq_refl eq_refl
              ltac:(simpl; auto) eq_refl
              ltac:(simpl; auto) eq_refl eq_refl eq_refl)
    as (task & w1 & Hrun & Htasks & _ & _ & Hreward & _ & Hafter).
  exists task, w1. split; [exact Hrun|]. split; [exact Htasks|]. split; [exact Hreward|].
  assert (Hmum : signed_in (seen Sample.noon Sample.mum) (rows w1)).
  { unfold Routes.approve, Routes.protected, bind in Hrun.
    rewrite (protect_runs Sample.noon Sample.mum (Sample.world_with None)
               mum_signed_in eq_refl) in Hrun.
    vm_compute in Hrun. injection Hrun as <-.
    split; [simpl; auto|]. split; [reflexivity|].
    simpl. intros x Hx Hid.
    repeat (destruct Hx as [<-|Hx]; [simpl in Hid; try discriminate; try reflexivity|]).
    contradiction. }
  destruct (Hafter (Sample.noon + 1) (seen Sample.noon Sample.mum) None None None Hmum)
    as (Happrove & _ & _ & _ & _ & Hsame & _).
  split; [exact Happrove | exact Hsame].
Defined.

(** ** What a generation writes *)



(** ** Which request writes which table *)

(** X20. Which request to the chore routes writes which table, whatever its
    arguments, its token (that of a user, or none) and the failing round
    trip.  Of the users, every
    request but an approve leaves every column other than [last_login] as it
    was, so no other request moves a balance; [last_login] is what
    [protect] sets, and a run of the scheduler changes no user at all.  Only
    an approve or a delete changes the completed tasks; only a generation,
    by the route or by the scheduler, changes a recurring template; none
    changes the families. *)
Theorem requests_write_their_own_tables :
  forall (tz now : Z) (token : option Z) (r : Api.request) (w : world),
    let t' := rows (Routes.serve tz now token r w) in
    match r with
    | Api.Approve _ => True
    | Api.Scheduled => users t' = users (rows w)
    | _ => users_apart_from_last_login t' = users_apart_from_last_login (rows w)
    end
    /\ match r with
       | Api.Approve _ | Api.Delete _ => True
       | _ => completed_tasks t' = completed_tasks (rows w)
       end
    /\ match r with
       | Api.Generate _ | Api.Scheduled => True
       | _ => recurring_chores t' = recurring_chores (rows w)
       end
    /\ families t' = families (rows w).
Proof.
  intros tz now token r w t'. subst t'.
  pose proof untouched_users as Hu.
  pose proof untouched_users_apart_from_last_login as Hl.
  pose proof untouched_completed_tasks as Hc.
  pose proof untouched_recurring_chores as Hr.
  pose proof untouched_families as Hf.
  destruct r; unfold Routes.serve, Recurring.cron_job;
    (split; [|split; [|split]]); try exact I;
    try (unfold Routes.create, Routes.update, Routes.assign, Routes.accept,
           Routes.decline, Routes.submit, Routes.approve, Routes.reject, Routes.delete,
           Routes.generate;
         apply keeps_protected;
         [first [apply keeps_protect_users | apply keeps_protect; reflexivity] | intros caller]);
    first
      [ now apply keeps_create
      | now apply keeps_update
      | now apply keeps_assign
      | now apply keeps_accept
      | now apply keeps_decline
      | now apply keeps_submit
      | now apply keeps_reject
      | apply keeps_approve; [assumption | reflexivity | reflexivity]
      | apply keeps_delete; reflexivity
      | apply keeps_generate; [assumption | reflexivity | reflexivity]
      | apply keeps_generateRecurringChores; [assumption | reflexivity | reflexivity] ].
Qed.

(** A template that is paused, due after the end of the local day of [now],
    or past its end date, is not due. *)
Lemma not_due (tz now : Z) (rc : recurring_chore) :
  r_is_active rc = false
  \/ (JsDate.local_day tz now + 1) * JsDate.MS_PER_DAY - 1 - tz < next_due_date rc
  \/ (exists e, end_date rc = Some e /\ e < JsDate.DATE now) ->
  Recurring.is_due tz now rc = false.
Proof.
  unfold Recurring.is_due. intros [H|[H|(e & He & Hlt)]].
  - now rewrite H.
  - assert (Hlate : (next_due_date rc <=? JsDate.endOfDay tz now) = false).
    { apply Z.leb_gt. unfold JsDate.endOfDay, JsDate.make_local. lia. }
    rewrite Hlate. now rewrite andb_false_r.
  - rewrite He. apply andb_false_iff. right. apply Z.leb_gt. exact Hlt.
Qed.

Lemma nothing_to_generate (tz now : Z) (caller : user) (w : world) :
  u_role caller = parent ->
  fault w = None ->
  (forall rid,
      rid <> 0 ->
      (forall rc, In rc (recurring_chores (rows w)) -> r_id rc = rid ->
         r_family_id rc <> u_family_id caller \/ r_is_active rc = false) ->
      Recurring.generate tz now caller (Some rid) w = (Ok (200, 0), w))
  /\ ((forall rc, In rc (recurring_chores (rows w)) ->
         r_family_id rc = u_family_id caller -> Recurring.is_due tz now rc = false) ->
      Recurring.generate tz now caller None w = (Ok (200, 0), w)).
Proof.
  intros Hrole Hfault.
  destruct w as [t sq f e]. simpl in *. subst f.
  split.
  - intros rid Hrid H.
    assert (Hnone : filter (fun rc => (r_id rc =? rid)
                                      && (r_family_id rc =? u_family_id caller)
                                      && r_is_active rc)
                           (recurring_chores t) = []).
    { apply filter_nil. intros rc Hrc.
      destruct (r_id rc =? rid) eqn:Eid; [|reflexivity].
      apply Z.eqb_eq in Eid. destruct (H rc Hrc Eid) as [Hfam | Hact].
      - apply Z.eqb_neq in Hfam. now rewrite Hfam.
      - rewrite Hact. apply andb_false_r. }
    assert (Hparam : Js.or_null (Some rid) = Some rid).
    { unfold Js.or_null, Js.truthy_opt, Js.truthy. apply Z.eqb_neq in Hrid. now rewrite Hrid. }
    unfold Recurring.generate. rewrite Hrole, Hparam. simpl.
    unfold_gateway. simpl. now rewrite Hnone.
  - intros H. unfold Recurring.generate. rewrite Hrole. simpl.
    unfold_gateway. simpl.
    rewrite (filter_nil (fun rc => (r_family_id rc =? u_family_id caller)
                                   && Recurring.is_due tz now rc) (recurring_chores t));
      [reflexivity|].
    intros rc Hrc. destruct (r_family_id rc =? u_family_id caller) eqn:Efam; [|reflexivity].
    apply Z.eqb_eq in Efam. simpl. now apply H.
Qed.

(** X21. Generation with nothing to do generates nothing.  A signed-in
    parent's request for a template id that is not an active template of
    the caller's family (another family's, a paused or an unknown one), and
    a request without id when every template of the family is paused, due
    after the end of today (local time) or past its end date, answer 200
    with zero chores, the store being as [protect] leaves it: the caller's
    [last_login] set to now, every chore, template, history row and other
    row as it was.  A run of the scheduler when every template is such
    returns 0 and leaves the store as it was. *)
Theorem generation_with_nothing_due :
  forall (tz now : Z) (caller : user) (w : world),
    signed_in caller (rows w) ->
    u_role caller = parent ->
    fault w = None ->
    (forall rid,
        rid <> 0 ->
        (forall rc, In rc (recurring_chores (rows w)) -> r_id rc = rid ->
           r_family_id rc <> u_family_id caller \/ r_is_active rc = false) ->
        Routes.generate tz now (Some (u_id caller)) (Some rid) w
        = (Ok (200, 0), admitted now (u_id caller) w))
    /\ ((forall rc, In rc (recurring_chores (rows w)) ->
           r_family_id rc = u_family_id caller ->
           r_is_active rc = false
           \/ (JsDate.local_day tz now + 1) * JsDate.MS_PER_DAY - 1 - tz < next_due_date rc
           \/ (exists e, end_date rc = Some e /\ e < JsDate.DATE now)) ->
        Routes.generate tz now (Some (u_id caller)) None w
        = (Ok (200, 0), admitted now (u_id caller) w))
    /\ ((forall rc, In rc (recurring_chores (rows w)) ->
           r_is_active rc = false
           \/ (JsDate.local_day tz now + 1) * JsDate.MS_PER_DAY - 1 - tz < next_due_date rc
           \/ (exists e, end_date rc = Some e /\ e < JsDate.DATE now)) ->
        Recurring.generateRecurringChores tz now w = (Ok 0, w))
    /\ chores (rows (admitted now (u_id caller) w)) = chores (rows w)
    /\ chore_assignments (rows (admitted now (u_id caller) w)) = chore_assignments (rows w)
    /\ recurring_chores (rows (admitted now (u_id caller) w)) = recurring_chores (rows w)
    /\ recurring_chore_history (rows (admitted now (u_id caller) w))
       = recurring_chore_history (rows w)
    /\ users (rows (admitted now (u_id caller) w))
       = map (fun x => if u_id x =? u_id caller then seen now x else x) (users (rows w)).
Proof.
  intros tz now caller w Hsigned Hrole Hfault.
  destruct (nothing_to_generate tz now caller (admitted now (u_id caller) w) Hrole eq_refl)
    as [Hid Hall].
  unfold Routes.generate.
  split; [|split; [|split; [|repeat split; reflexivity]]].
  - intros rid Hrid H. rewrite (protected_runs now caller _ w Hsigned Hfault).
    now apply Hid.
  - intros H. rewrite (protected_runs now caller _ w Hsigned Hfault).
    apply Hall. intros rc Hrc Hfam. apply not_due. now apply H.
  - intros H. destruct w as [t sq f e]. simpl in *. subst f.
    unfold Recurring.generateRecurringChores. unfold_gateway. simpl.
    rewrite (filter_nil (Recurring.is_due tz now) (recurring_chores t)); [reflexivity|].
    intros rc Hrc. apply not_due. now apply H.
Qed.

Lemma generation_with_nothing_due_witness :
  Routes.generate 0 Sample.noon (Some 1) (Some 5) (Sample.world_with None)
  = (Ok (200, 0), admitted Sample.noon 1 (Sample.world_with None))
  /\ Routes.generate 0 (Sample.noon - 2 * JsDate.MS_PER_DAY) (Some 1) None
       (Sample.world_with None)
     = (Ok (200, 0), admitted (Sample.noon - 2 * JsDate.MS_PER_DAY) 1 (Sample.world_with None))
  /\ Recurring.generateRecurringChores 0 (Sample.noon - 2 * JsDate.MS_PER_DAY)
       (Sample.world_with None)
     = (Ok 0, Sample.world_with None).
Proof.
  destruct (generation_with_nothing_due 0 Sample.noon Sample.mum
              (Sample.world_with None) mum_signed_in eq_refl eq_refl) as (Hid & _).
  destruct (generation_with_nothing_due 0 (Sample.noon - 2 * JsDate.MS_PER_DAY)
              Sample.mum (Sample.world_with None) mum_signed_in eq_refl eq_refl)
    as (_ & Hall & Hcron & _).
  split; [|split].
  - apply Hid; [discriminate|]. simpl. intros rc Hrc Hrid.
    repeat (destruct Hrc as [<-|Hrc]; [discriminate|]). contradiction.
  - apply Hall. simpl. intros rc Hrc Hfam.
    repeat (destruct Hrc as [<-|Hrc]; [right; left; reflexivity|]). contradiction.
  - apply Hcron. simpl. intros rc Hrc.
    repeat (destruct Hrc as [<-|Hrc]; [right; left; reflexivity|]). contradiction.
Defined.

(** ** Chores that start out assigned *)

Lemma signed_in_same_users (u : user) (t t' : tables) :
  users t' = users t -> signed_in u t -> signed_in u t'.
Proof. unfold signed_in. intros ->. auto. Qed.

(** X22. A chore in status assigned, as POST /api/chores and the generation
    leave a chore that starts with an assignee, cannot be taken up by that
    assignee: the signed-in assignee's accept, decline and submit answer
    404, the store being as [protect] leaves it (the caller's [last_login]
    set, every chore and assignment as it was).  It gets going through a
    signed-in parent's assign to that user, which answers 200 and after
    which the assignee's accept answers 200. *)
Theorem assigned_chore_waits_for_an_offer :
  forall (now later : Z) (caller u : user) (w : world) (c : chore),
    signed_in caller (rows w) ->
    signed_in u (rows w) ->
    u_role caller = parent ->
    NoDup (map c_id (chores (rows w))) ->
    In c (chores (rows w)) ->
    c_family_id c = u_family_id caller ->
    status c = assigned ->
    assigned_to c = Some (u_id u) ->
    u_id u <> 0 ->
    u_family_id u = u_family_id caller ->
    fault w = None ->
    Routes.accept now (Some (u_id u)) (c_id c) w = (Ok 404, admitted now (u_id u) w)
    /\ Routes.decline now (Some (u_id u)) (c_id c) w = (Ok 404, admitted now (u_id u) w)
    /\ (forall file notes_,
          Routes.submit now (Some (u_id u)) (c_id c) file notes_ w
          = (Ok 404, admitted now (u_id u) w))
    /\ chores (rows (admitted now (u_id u) w)) = chores (rows w)
    /\ chore_assignments (rows (admitted now (u_id u) w)) = chore_assignments (rows w)
    /\ exists w1 : world,
         Routes.assign now (Some (u_id caller)) (c_id c) (Some (u_id u)) w = (Ok 200, w1)
         /\ (exists c', In c' (chores (rows w1)) /\ c_id c' = c_id c
                        /\ status c' = pending_acceptance
                        /\ assigned_to c' = Some (u_id u))
         /\ fst (Routes.accept later (Some (u_id u)) (c_id c) w1) = Ok 200.
Proof.
  intros now later caller u w c Hcaller Hu Hrole Hnd Hin Hfam Hst Hasg Hnz Hufam Hfault.
  destruct (nothing_to_act_on now u (c_id c) (admitted now (u_id u) w) eq_refl)
    as [Hfirst Hsubmit].
  assert (Hother : forall st, st <> assigned ->
            forall x, In x (chores (rows w)) -> c_id x = c_id c ->
              assigned_to x = Some (u_id u) -> status x <> st).
  { intros st Hne x Hx Hid _.
    rewrite (NoDup_map_inj c_id (chores (rows w)) x c Hnd Hx Hin Hid). congruence. }
  unfold Routes.accept at 1, Routes.decline, Routes.submit.
  split; [|split; [|split; [|split; [reflexivity|split; [reflexivity|]]]]].
  - rewrite (protected_runs now u _ w Hu Hfault).
    apply Hfirst. apply Hother. discriminate.
  - rewrite (protected_runs now u _ w Hu Hfault).
    apply Hfirst. apply Hother. discriminate.
  - intros file notes_. rewrite (protected_runs now u _ w Hu Hfault).
    apply Hsubmit. apply Hother. discriminate.
  - destruct (assign_in_family now caller (admitted now (u_id caller) w) c (u_id u)
                Hrole Hnd Hin Hfam Hnz eq_refl) as [Hok _].
    destruct Hu as (Huin & Huact & Hukey).
    destruct (let_in_users now (u_id caller) (rows w) u Huin)
      as (u' & Hu' & Hid' & Hfam' & _).
    destruct Hok as (a & w1 & Hrun & Hchores & _ & _ & _ & _ & _ & _ & _ & _ & _ & _
                     & Husers & _ & _ & Hfault1).
    { exists u'. split; [exact Hu'|]. split; congruence. }
    exists w1. unfold Routes.assign.
    rewrite (protected_runs now caller _ w Hcaller Hfault).
    split; [exact Hrun|].
    set (c' := Chores.with_assignment c pending_acceptance (Some (u_id u)) (Some now)).
    assert (Hin' : In c' (chores (rows w1))).
    { rewrite Hchores. apply in_map_iff. exists c.
      split; [now rewrite Z.eqb_refl | exact Hin]. }
    split; [exists c'; repeat split; auto|].
    set (again := if u_id u =? u_id caller then seen now u else u).
    assert (Hagain_id : u_id again = u_id u).
    { unfold again. destruct (u_id u =? u_id caller); reflexivity. }
    assert (Hagain : signed_in again (rows w1)).
    { apply (signed_in_same_users again (let_in now (u_id caller) (rows w)));
        [exact Husers|].
      unfold again. destruct (u_id u =? u_id caller) eqn:E.
      - apply Z.eqb_eq in E.
        destruct Hcaller as (Hcin & Hcact & Hckey).
        assert (Heq : u = caller) by (now apply Hckey).
        subst u. apply signed_in_after_own. repeat split; assumption.
      - apply Z.eqb_neq in E. apply signed_in_after_other; [|exact E].
        repeat split; assumption. }
    destruct (accept_by_assignee later again (admitted later (u_id again) w1) c'
                Hin' (eq_sym (f_equal Some Hagain_id)) eq_refl eq_refl)
      as (w2 & Hrun2 & _).
    unfold Routes.accept. rewrite <- Hagain_id.
    rewrite (protected_runs later again _ w1 Hagain Hfault1).
    simpl in Hrun2. now rewrite Hrun2.
Qed.

Lemma assigned_chore_waits_for_an_offer_witness :
  Routes.accept Sample.noon (Some 8) 14 Scenes.with_ironing
  = (Ok 404, admitted Sample.noon 8 Scenes.with_ironing)
  /\ exists w1 : world,
       Routes.assign Sample.noon (Some 1) 14 (Some 8) Scenes.with_ironing = (Ok 200, w1)
       /\ fst (Routes.accept (Sample.noon + 1) (Some 8) 14 w1) = Ok 200.
Proof.
  assert (Hkeys : forall v : user,
            In v (users (rows Scenes.with_ironing)) ->
            signed_in v (rows Scenes.with_ironing)).
  { intros v Hv. split; [exact Hv|].
    simpl in Hv.
    repeat (destruct Hv as [<-|Hv];
            [split; [reflexivity|]; simpl; intros x Hx Hid;
             repeat (destruct Hx as [<-|Hx];
                     [simpl in Hid; try discriminate; try reflexivity|]);
             contradiction|]).
    contradiction. }
  destruct (assigned_chore_waits_for_an_offer Sample.noon (Sample.noon + 1)
              Sample.mum Sample.bob Scenes.with_ironing Scenes.ironing
              (Hkeys Sample.mum ltac:(simpl; auto))
              (Hkeys Sample.bob ltac:(simpl; auto)) eq_refl
              ltac:(simpl; repeat constructor; simpl; intuition discriminate)
              ltac:(simpl; auto 6) eq_refl eq_refl eq_refl
              ltac:(discriminate) eq_refl eq_refl)
    as (Haccept & _ & _ & _ & _ & w1 & Hassign & _ & Hoffer).
  split; [exact Haccept|]. exists w1. split; [exact Hassign | exact Hoffer].
Defined.

(** ** User profiles *)

(** The user [protect] hands over is a row of the table with the id of the
    token. *)
Lemma protect_returns (now : Z) (token : option Z) (w w' : world) (caller : user) :
  Middleware.protect now token w = (Ok caller, w') ->
  In caller (users (rows w)) /\ token = Some (u_id caller).
Proof.
  unfold Middleware.protect. destruct token as [id|]; [|discriminate].
  unfold select, modify, bind.
  destruct (round_trip w) as [[[]|e] w0] eqn:Hrt; [|discriminate].
  destruct (round_trip_rows _ _ _ Hrt) as [Hrows _].
  destruct (filter (fun u => (u_id u =? id) && u_is_active u) (users (rows w0)))
    as [|user_ rest] eqn:Hfound; [discriminate|].
  destruct (round_trip w0) as [[[]|e] w1]; [|discriminate].
  unfold ret. intros H. injection H as <- _.
  assert (Hin : In user_ (filter (fun u => (u_id u =? id) && u_is_active u)
                            (users (rows w0)))).
  { rewrite Hfound. now left. }
  apply filter_In in Hin as [Hin Hp]. apply andb_prop in Hp as [Hp _].
  apply Z.eqb_eq in Hp. rewrite <- Hrows. split; [exact Hin | now rewrite Hp].
Qed.

(** The handler of PATCH /api/users/:id, run for a child. *)
Lemma child_patch (caller : user) (id : Z) (p : Users.patch_body) (w : world) :
  u_role caller = child ->
  map user_fixed_part (users (rows (snd (Users.patch caller id p w))))
  = map user_fixed_part (users (rows w))
  /\ (id <> u_id caller -> Users.patch caller id p w = (Throw 403, w)).
Proof.
  intros Hrole.
  unfold Users.patch, Middleware.checkUserAccess, Users.updates. rewrite Hrole. simpl.
  destruct (id =? u_id caller) eqn:Eid; simpl.
  - assert (Hneq : id <> u_id caller -> False) by (apply Z.eqb_eq in Eid; congruence).
    unfold bind at 1. unfold ret at 1.
    destruct (Users.no_updates _) eqn:Enone.
    + repeat split; try reflexivity. intros H. destruct (Hneq H).
    + destruct w as [t sq f e].
      assert (Hfixed : forall l,
                map user_fixed_part
                  (Chores.update_where (fun u => u_id u =? id)
                     (Users.apply_patch
                        {| Users.p_name := Users.p_name p;
                           Users.p_avatar_url := Users.p_avatar_url p;
                           Users.p_preferences := Users.p_preferences p;
                           Users.p_role := None; Users.p_earnings := None;
                           Users.p_screen_time_earned := None |}) l)
                = map user_fixed_part l).
      { intros l. apply update_where_proj. intros x. reflexivity. }
      destruct f as [[|[|k]]|]; unfold_gateway; simpl; rewrite ?Hfixed;
        repeat split; try reflexivity; intros H; destruct (Hneq H).
  - unfold bind, throw. simpl. repeat split; reflexivity.
Qed.

Lemma keeps_patch_user {B : Type} (proj : tables -> B) (caller : user) (id : Z)
  (p : Users.patch_body) :
  (forall t l, proj (set_users t l) = proj t) ->
  keeps proj (Users.patch caller id p).
Proof.
  intros H. unfold Users.patch, Middleware.checkUserAccess. keeps_all.
Qed.

(** X26. A request to PATCH /api/users/:id with the token of a child changes
    no user's id, family, role, earnings, screen time, e-mail, password or
    active flag, whatever the id, the body and the failing round trip, and
    writes no chore, assignment, submission, completed task, template,
    history row or family.  On an id other than the child's own, with no
    round trip failing, it throws 403, the store being as [protect] leaves
    it. *)
Theorem child_patch_keeps_roles_and_balances :
  forall (now : Z) (token : option Z) (id : Z) (p : Users.patch_body) (w : world),
    (forall x, In x (users (rows w)) -> token = Some (u_id x) -> u_role x = child) ->
    let t' := rows (snd (Routes.patch_user now token id p w)) in
    map user_fixed_part (users t') = map user_fixed_part (users (rows w))
    /\ chores t' = chores (rows w)
    /\ chore_assignments t' = chore_assignments (rows w)
    /\ chore_submissions t' = chore_submissions (rows w)
    /\ completed_tasks t' = completed_tasks (rows w)
    /\ recurring_chores t' = recurring_chores (rows w)
    /\ recurring_chore_history t' = recurring_chore_history (rows w)
    /\ families t' = families (rows w)
    /\ (forall caller,
          signed_in caller (rows w) -> token = Some (u_id caller) ->
          id <> u_id caller -> fault w = None ->
          Routes.patch_user now token id p w = (Throw 403, admitted now (u_id caller) w)).
Proof.
  intros now token id p w Hchild. cbv zeta.
  assert (Hothers : forall (B : Type) (proj : tables -> B),
            (forall t l, proj (set_users t l) = proj t) ->
            proj (rows (snd (Routes.patch_user now token id p w))) = proj (rows w)).
  { intros B proj Hproj. unfold Routes.patch_user.
    apply (keeps_protected proj);
      [now apply keeps_protect | intros caller; now apply keeps_patch_user]. }
  split.
  { unfold Routes.patch_user, Routes.protected, bind.
    assert (Hprotect : map user_fixed_part
                         (users (rows (snd (Middleware.protect now token w))))
                       = map user_fixed_part (users (rows w))).
    { unfold Middleware.protect.
      destruct token as [tid|]; [|reflexivity].
      unfold select, modify, bind.
      destruct (round_trip w) as [[[]|e] w0] eqn:Hrt;
        destruct (round_trip_rows _ _ _ Hrt) as [Hrows _]; simpl;
        [|now rewrite Hrows].
      destruct (filter (fun u => (u_id u =? tid) && u_is_active u) (users (rows w0)))
        as [|user_ rest]; simpl; [now rewrite Hrows|].
      destruct (round_trip w0) as [[[]|e] w1] eqn:Hrt';
        destruct (round_trip_rows _ _ _ Hrt') as [Hrows' _]; simpl;
        [|now rewrite Hrows', Hrows].
      rewrite Hrows', <- Hrows. apply update_where_proj. reflexivity. }
    destruct (Middleware.protect now token w) as [[caller|e] w'] eqn:Hrun;
      simpl in *; [|exact Hprotect].
    destruct (protect_returns now token w w' caller Hrun) as [Hin Htoken].
    destruct (child_patch caller id p w' (Hchild caller Hin Htoken)) as [Hfixed _].
    now rewrite Hfixed. }
  do 7 (split; [apply (Hothers _ _); reflexivity|]).
  intros caller Hsigned Htoken Hid Hfault. subst token.
  unfold Routes.patch_user. rewrite (protected_runs now caller _ w Hsigned Hfault).
  destruct Hsigned as (Hin & _).
  now apply (child_patch caller id p _ (Hchild caller Hin eq_refl)).
Qed.

Lemma child_patch_keeps_roles_and_balances_witness :
  map user_fixed_part
    (users (rows (snd (Routes.patch_user Sample.noon (Some 7) 7 (Bodies.raise 100000)
                         (Sample.world_with None)))))
  = map user_fixed_part (users Sample.home)
  /\ Routes.patch_user Sample.noon (Some 7) 8 (Bodies.raise 100000) (Sample.world_with None)
     = (Throw 403, admitted Sample.noon 7 (Sample.world_with None)).
Proof.
  assert (Hchild : forall x, In x (users (rows (Sample.world_with None))) ->
                     Some 7 = Some (u_id x) -> u_role x = child).
  { simpl. intros x Hx Hid.
    repeat (destruct Hx as [<-|Hx]; [simpl in Hid; try discriminate; try reflexivity|]).
    contradiction. }
  destruct (child_patch_keeps_roles_and_balances Sample.noon (Some 7) 7
              (Bodies.raise 100000) (Sample.world_with None) Hchild) as (Hfixed & _).
  destruct (child_patch_keeps_roles_and_balances Sample.noon (Some 7) 8
              (Bodies.raise 100000) (Sample.world_with None) Hchild)
    as (_ & _ & _ & _ & _ & _ & _ & _ & Hother).
  split; [exact Hfixed|].
  apply (Hother Sample.ann ann_signed_in eq_refl); [discriminate | reflexivity].
Defined.

(** The handler of PATCH /api/users/:id, run for a parent. *)
Lemma parent_patch (caller : user) (id : Z) (p : Users.patch_body) (w : world) :
  u_role caller = parent ->
  NoDup (map u_id (users (rows w))) ->
  fault w = None ->
  ((forall u, In u (users (rows w)) -> u_id u <> id) ->
   Users.patch caller id p w = (Throw 404, w))
  /\ (forall u, In u (users (rows w)) -> u_id u = id ->
        u_family_id u <> u_family_id caller ->
        Users.patch caller id p w = (Throw 403, w))
  /\ (forall u, In u (users (rows w)) -> u_id u = id ->
        u_family_id u = u_family_id caller ->
        Users.no_updates p = false ->
        exists w' : world,
          Users.patch caller id p w = (Ok 200, w')
          /\ users (rows w')
             = map (fun x => if u_id x =? id then Users.apply_patch p x else x)
                   (users (rows w))
          /\ families (rows w') = families (rows w)
          /\ chores (rows w') = chores (rows w)
          /\ chore_assignments (rows w') = chore_assignments (rows w)
          /\ chore_submissions (rows w') = chore_submissions (rows w)
          /\ completed_tasks (rows w') = completed_tasks (rows w)
          /\ recurring_chores (rows w') = recurring_chores (rows w)
          /\ recurring_chore_history (rows w') = recurring_chore_history (rows w)).
Proof.
  intros Hrole Hnd Hfault.
  destruct w as [t sq f e]. simpl in *. subst f.
  unfold Users.patch, Middleware.checkUserAccess, Users.updates. rewrite Hrole. simpl.
  split; [|split].
  - intros Hnone. unfold_gateway. simpl.
    rewrite (filter_nil (fun u => u_id u =? id) (users t)); [reflexivity|].
    intros u Hu. apply Z.eqb_neq. now apply Hnone.
  - intros u Hu Hid Hfam. unfold_gateway. simpl.
    rewrite (filter_unique u_id (fun x => u_id x =? id) (users t) u Hnd Hu).
    + apply Z.eqb_neq in Hfam. now rewrite Hfam.
    + now apply Z.eqb_eq.
    + intros y Hy. apply Z.eqb_eq in Hy. congruence.
  - intros u Hu Hid Hfam Hsome. unfold_gateway. simpl.
    rewrite (filter_unique u_id (fun x => u_id x =? id) (users t) u Hnd Hu).
    + rewrite Hfam, Z.eqb_refl, Hsome. simpl.
      eexists. split; [reflexivity|]. simpl. repeat split; reflexivity.
    + now apply Z.eqb_eq.
    + intros y Hy. apply Z.eqb_eq in Hy. congruence.
Qed.

(** X27. A signed-in parent's PATCH /api/users/:id, no round trip failing,
    reaches only users of the parent's family: an unknown id throws 404 and
    a user of another family 403, the store being as [protect] leaves it.
    For a user of the family and a body with at least one field it answers
    200: on the row of that id the name, role, earnings and screen time the
    body gives are set, the others kept; on every other row these columns
    are as they were; no row changes its family, e-mail, password, active
    flag or login state, except for the caller's [last_login], which
    [protect] sets to now; no other table is written. *)
Theorem parent_patch_stays_in_family :
  forall (now : Z) (caller : user) (id : Z) (p : Users.patch_body) (w : world),
    signed_in caller (rows w) ->
    u_role caller = parent ->
    NoDup (map u_id (users (rows w))) ->
    fault w = None ->
    ((forall u, In u (users (rows w)) -> u_id u <> id) ->
     Routes.patch_user now (Some (u_id caller)) id p w
     = (Throw 404, admitted now (u_id caller) w))
    /\ (forall u, In u (users (rows w)) -> u_id u = id ->
          u_family_id u <> u_family_id caller ->
          Routes.patch_user now (Some (u_id caller)) id p w
          = (Throw 403, admitted now (u_id caller) w))
    /\ (forall u, In u (users (rows w)) -> u_id u = id ->
          u_family_id u = u_family_id caller ->
          ~ (Users.p_name p = None /\ Users.p_avatar_url p = None
             /\ Users.p_preferences p = None /\ Users.p_role p = None
             /\ Users.p_earnings p = None /\ Users.p_screen_time_earned p = None) ->
          exists w' : world,
            Routes.patch_user now (Some (u_id caller)) id p w = (Ok 200, w')
            /\ Forall2
                 (fun x x' =>
                    u_id x' = u_id x /\ u_family_id x' = u_family_id x
                    /\ u_email x' = u_email x /\ password_hash x' = password_hash x
                    /\ u_is_active x' = u_is_active x
                    /\ login_attempts x' = login_attempts x
                    /\ locked_until x' = locked_until x
                    /\ last_login x'
                       = (if u_id x =? u_id caller then Some now else last_login x)
                    /\ (u_id x = id ->
                        u_name x' = match Users.p_name p with
                                    | Some v => v | None => u_name x end
                        /\ u_role x' = match Users.p_role p with
                                       | Some v => v | None => u_role x end
                        /\ earnings x' = match Users.p_earnings p with
                                         | Some v => v | None => earnings x end
                        /\ screen_time_earned x'
                           = match Users.p_screen_time_earned p with
                             | Some v => v | None => screen_time_earned x end)
                    /\ (u_id x <> id ->
                        u_name x' = u_name x /\ u_role x' = u_role x
                        /\ earnings x' = earnings x
                        /\ screen_time_earned x' = screen_time_earned x))
                 (users (rows w)) (users (rows w'))
            /\ families (rows w') = families (rows w)
            /\ chores (rows w') = chores (rows w)
            /\ chore_assignments (rows w') = chore_assignments (rows w)
            /\ chore_submissions (rows w') = chore_submissions (rows w)
            /\ completed_tasks (rows w') = completed_tasks (rows w)
            /\ recurring_chores (rows w') = recurring_chores (rows w)
            /\ recurring_chore_history (rows w') = recurring_chore_history (rows w)).
Proof.
  intros now caller id p w Hsigned Hrole Hnd Hfault.
  assert (Hnd' : NoDup (map u_id (users (rows (admitted now (u_id caller) w))))).
  { simpl. rewrite map_map.
    rewrite (map_ext _ u_id); [exact Hnd|].
    intros x. now destruct (u_id x =? u_id caller). }
  destruct (parent_patch caller id p (admitted now (u_id caller) w) Hrole Hnd' eq_refl)
    as (Hunknown & Hforeign & Hown).
  unfold Routes.patch_user. rewrite (protected_runs now caller _ w Hsigned Hfault).
  split; [|split].
  - intros Hnone. apply Hunknown. intros u' Hu'.
    destruct (let_in_users_back now (u_id caller) (rows w) u' Hu') as (u & Hu & Hid & _).
    rewrite Hid. now apply Hnone.
  - intros u Hu Hid Hfam.
    destruct (let_in_users now (u_id caller) (rows w) u Hu) as (u' & Hu' & Hid' & Hfam' & _).
    apply (Hforeign u' Hu'); congruence.
  - intros u Hu Hid Hfam Hsome.
    destruct (let_in_users now (u_id caller) (rows w) u Hu) as (u' & Hu' & Hid' & Hfam' & _).
    destruct (Hown u' Hu') as (w' & Hrun & Husers & Hrest); try congruence.
    { unfold Users.no_updates.
      destruct (Users.p_name p), (Users.p_avatar_url p), (Users.p_preferences p),
        (Users.p_role p), (Users.p_earnings p), (Users.p_screen_time_earned p);
        try reflexivity.
      exfalso. apply Hsome. repeat split; reflexivity. }
    exists w'. split; [exact Hrun|]. split; [|exact Hrest].
    rewrite Husers. simpl. rewrite map_map. apply Forall2_map_r. intros x _.
    destruct (u_id x =? u_id caller) eqn:Ec; simpl;
      (destruct (u_id x =? id) eqn:Ei;
       [apply Z.eqb_eq in Ei | apply Z.eqb_neq in Ei]);
      simpl; do 8 (split; [reflexivity|]);
      (split; intros H; try contradiction);
      unfold Chores.or_else; repeat split; reflexivity.
Qed.

Lemma parent_patch_stays_in_family_witness :
  Routes.patch_user Sample.noon (Some 1) 5 (Bodies.raise 100000) (Sample.world_with None)
  = (Throw 404, admitted Sample.noon 1 (Sample.world_with None))
  /\ exists w' : world,
       Routes.patch_user Sample.noon (Some 1) 7 (Bodies.raise 100000)
         (Sample.world_with None) = (Ok 200, w')
       /\ map u_id (users (rows w')) = [1; 7; 8; 9]
       /\ chores (rows w') = chores Sample.home
       /\ map earnings (users (rows w')) = [0; 100000; 0; 0].
Proof.
  destruct (parent_patch_stays_in_family Sample.noon Sample.mum 5 (Bodies.raise 100000)
              (Sample.world_with None) mum_signed_in eq_refl
              ltac:(simpl; repeat constructor; simpl; intuition discriminate) eq_refl)
    as (Hunknown & _).
  destruct (parent_patch_stays_in_family Sample.noon Sample.mum 7 (Bodies.raise 100000)
              (Sample.world_with None) mum_signed_in eq_refl
              ltac:(simpl; repeat constructor; simpl; intuition discriminate) eq_refl)
    as (_ & _ & Hown).
  split.
  - apply Hunknown. simpl. intros u Hu.
    repeat (destruct Hu as [<-|Hu]; [discriminate|]). contradiction.
  - destruct (Hown Sample.ann ltac:(simpl; auto) eq_refl eq_refl)
      as (w' & Hrun & Husers & _ & Hchores & _).
    { intros (_ & _ & _ & _ & H & _). discriminate H. }
    exists w'. split; [exact Hrun|]. split; [|split; [exact Hchores|]].
    + apply (Forall2_map_both _ u_id _ _ Husers). intros x x' (Hid & _). exact Hid.
    + vm_compute in Hrun. injection Hrun as <-. reflexivity.
Defined.

(** ** Deleting a template *)

Lemma template_delete (caller : user) (id : Z) (w : world) :
  u_role caller = parent ->
  fault w = None ->
  ((forall rc, In rc (recurring_chores (rows w)) -> r_id rc = id ->
      r_family_id rc <> u_family_id caller) ->
   Templates.delete caller id w = (Throw 404, w))
  /\ (forall rc, In rc (recurring_chores (rows w)) -> r_id rc = id ->
        r_family_id rc = u_family_id caller ->
        exists w' : world,
          Templates.delete caller id w = (Ok 200, w')
          /\ recurring_chores (rows w')
             = filter (fun x => negb (r_id x =? id)) (recurring_chores (rows w))
          /\ recurring_chore_history (rows w')
             = filter (fun h => negb (h_recurring_id h =? id))
                      (recurring_chore_history (rows w))
          /\ chores (rows w') = chores (rows w)
          /\ chore_assignments (rows w') = chore_assignments (rows w)
          /\ chore_submissions (rows w') = chore_submissions (rows w)
          /\ completed_tasks (rows w') = completed_tasks (rows w)
          /\ users (rows w') = users (rows w)
          /\ families (rows w') = families (rows w)).
Proof.
  intros Hrole Hfault.
  destruct w as [t sq f e]. simpl in *. subst f.
  unfold Templates.delete. rewrite Hrole. simpl. split.
  - intros Hnone. unfold_gateway. simpl.
    rewrite (find_none_iff (fun r => (r_id r =? id) && (r_family_id r =? u_family_id caller))
               (recurring_chores t)); [reflexivity|].
    intros x Hx. destruct (r_id x =? id) eqn:Eid; [|reflexivity]. simpl.
    apply Z.eqb_eq in Eid. apply Z.eqb_neq. now apply Hnone.
  - intros rc Hrc Hid Hfam.
    destruct (find_some_exists
                (fun r => (r_id r =? id) && (r_family_id r =? u_family_id caller))
                (recurring_chores t) rc Hrc) as (rc' & Hfind & _).
    { now rewrite Hid, Hfam, !Z.eqb_refl. }
    unfold_gateway. simpl. rewrite Hfind. simpl.
    eexists. split; [reflexivity|]. simpl. repeat split; reflexivity.
Qed.

(** X28. A signed-in parent's DELETE /api/recurring/:id, no round trip
    failing, throws 404 when no template with that id belongs to the family,
    the store being as [protect] leaves it.  Otherwise it answers 200: the
    templates and the history rows left are exactly those of other ids, in
    their order, and every chore, those the template generated included,
    every assignment, submission and completed task is in place; of the
    users only the caller's [last_login] changes ([protect]). *)
Theorem template_delete_keeps_chores :
  forall (now : Z) (caller : user) (id : Z) (w : world),
    signed_in caller (rows w) ->
    u_role caller = parent ->
    fault w = None ->
    ((forall rc, In rc (recurring_chores (rows w)) -> r_id rc = id ->
        r_family_id rc <> u_family_id caller) ->
     Routes.delete_recurring now (Some (u_id caller)) id w
     = (Throw 404, admitted now (u_id caller) w))
    /\ (forall rc, In rc (recurring_chores (rows w)) -> r_id rc = id ->
          r_family_id rc = u_family_id caller ->
          exists w' : world,
            Routes.delete_recurring now (Some (u_id caller)) id w = (Ok 200, w')
            /\ recurring_chores (rows w')
               = filter (fun x => negb (r_id x =? id)) (recurring_chores (rows w))
            /\ (forall x, In x (recurring_chores (rows w')) <->
                          In x (recurring_chores (rows w)) /\ r_id x <> id)
            /\ recurring_chore_history (rows w')
               = filter (fun h => negb (h_recurring_id h =? id))
                        (recurring_chore_history (rows w))
            /\ (forall h, In h (recurring_chore_history (rows w')) <->
                          In h (recurring_chore_history (rows w)) /\ h_recurring_id h <> id)
            /\ chores (rows w') = chores (rows w)
            /\ chore_assignments (rows w') = chore_assignments (rows w)
            /\ chore_submissions (rows w') = chore_submissions (rows w)
            /\ completed_tasks (rows w') = completed_tasks (rows w)
            /\ users (rows w')
               = map (fun x => if u_id x =? u_id caller then seen now x else x)
                     (users (rows w))
            /\ families (rows w') = families (rows w)).
Proof.
  intros now caller id w Hsigned Hrole Hfault.
  destruct (template_delete caller id (admitted now (u_id caller) w) Hrole eq_refl)
    as [Hnone Hown].
  unfold Routes.delete_recurring. rewrite (protected_runs now caller _ w Hsigned Hfault).
  split; [exact Hnone|].
  intros rc Hrc Hid Hfam.
  destruct (Hown rc Hrc Hid Hfam) as (w' & Hrun & Htemplates & Hhistory & Hrest).
  exists w'. split; [exact Hrun|]. split; [exact Htemplates|]. split.
  { intros x. rewrite Htemplates. simpl.
    rewrite filter_In, negb_true_iff, Z.eqb_neq. reflexivity. }
  split; [exact Hhistory|]. split; [|exact Hrest].
  intros h. rewrite Hhistory. simpl.
  rewrite filter_In, negb_true_iff, Z.eqb_neq. reflexivity.
Qed.

Lemma template_delete_keeps_chores_witness :
  Routes.delete_recurring Sample.noon (Some 1) 5 (Sample.world_with None)
  = (Throw 404, admitted Sample.noon 1 (Sample.world_with None))
  /\ exists w' : world,
       Routes.delete_recurring Sample.noon (Some 1) 1
         (Sample.with_history [Sample.past_run Sample.wed_10_jan_9am (Some 7)])
       = (Ok 200, w')
       /\ recurring_chores (rows w') = [Sample.trash 2]
       /\ recurring_chore_history (rows w') = []
       /\ chores (rows w') = chores Sample.home.
Proof.
  destruct (template_delete_keeps_chores Sample.noon Sample.mum 5 (Sample.world_with None)
              mum_signed_in eq_refl eq_refl) as [Hother _].
  destruct (template_delete_keeps_chores Sample.noon Sample.mum 1
              (Sample.with_history [Sample.past_run Sample.wed_10_jan_9am (Some 7)])
              mum_signed_in eq_refl eq_refl) as [_ Hown].
  split.
  - apply Hother. simpl. intros rc Hrc Hid.
    repeat (destruct Hrc as [<-|Hrc]; [discriminate|]). contradiction.
  - destruct (Hown (Sample.trash 1) ltac:(simpl; auto) eq_refl eq_refl)
      as (w' & Hrun & Htemplates & _ & Hhistory & _ & Hchores & _).
    exists w'. repeat split; assumption.
Defined.

(** ** Login *)

(** X29. POST /api/auth/login changes, whatever the credentials, the
    collation, the password check's answer and the failing round trip,
    nothing but the login state of users (attempt counter, lock expiry, last
    login): no user's id, family, name, e-mail, password, role, earnings,
    screen time or active flag, no user row added or removed, and no row of
    the families, chores, assignments, submissions, completed tasks,
    templates or their history. *)
Theorem login_touches_only_login_state :
  forall (same_text bcrypt_compare : string -> string -> bool) (now : Z)
         (familyCode email password : string) (w : world),
    let t' := rows (snd (Auth.login same_text bcrypt_compare now familyCode email
                           password w)) in
    users_apart_from_login_state t' = users_apart_from_login_state (rows w)
    /\ families t' = families (rows w)
    /\ chores t' = chores (rows w)
    /\ chore_assignments t' = chore_assignments (rows w)
    /\ chore_submissions t' = chore_submissions (rows w)
    /\ completed_tasks t' = completed_tasks (rows w)
    /\ recurring_chores t' = recurring_chores (rows w)
    /\ recurring_chore_history t' = recurring_chore_history (rows w).
Proof.
  intros same_text bcrypt_compare now familyCode email password w t'. subst t'.
  assert (Hfixed : forall (p : user -> bool) a l last l0,
            map (fun u => (u_id u, u_family_id u, u_name u, u_email u, password_hash u,
                           u_role u, earnings u, screen_time_earned u, u_is_active u))
              (Chores.update_where p
                 (fun u => Auth.set_login_state u a l (last u)) l0)
            = map (fun u => (u_id u, u_family_id u, u_name u, u_email u, password_hash u,
                             u_role u, earnings u, screen_time_earned u, u_is_active u))
                l0).
  { intros p a l last l0. apply update_where_proj. intros x. reflexivity. }
  destruct w as [t sq f e]. unfold Auth.login, users_apart_from_login_state.
  destruct f as [[|[|k]]|]; unfold_gateway; simpl;
    (destruct (Auth.find_users same_text t familyCode email) as [|user_ rest];
     [repeat split; reflexivity|]);
    (destruct (Auth.is_locked now user_); [repeat split; reflexivity|]);
    destruct (bcrypt_compare password (password_hash user_)); simpl;
      rewrite ?(Hfixed _ _ _ last_login), ?(Hfixed _ _ _ (fun _ => Some now));
      repeat split; reflexivity.
Qed.
